(** * TIS-100 emulator: the node interpreter and the grid scheduler

    A shallow embedding of [tis100/node.py], [tis100/logger.py] and
    [tis100/tis.py].  Python objects live in a heap (a list of node records
    addressed by index), so that a write through a port really mutates the
    peer.  A Python generator is represented by the point where it is
    suspended; one [next()] is a function from that point and the heap to
    the next suspension point, an exception, or exhaustion of the fuel that
    bounds the number of instructions dispatched inside one call. *)

From Stdlib Require Import Ascii.
From stdpp Require Import gmap strings list.

Open Scope Z_scope.

(** ** Python values that the interpreter manipulates *)

(** Exceptions that the modelled code can raise.  [DanglingRef] has no
    Python counterpart: it stands for a reference outside the heap, which
    the object graph of a run never contains. *)
Inductive exn :=
| AssertionError | NameError | IndexError | TypeError | ValueError
| KeyError | DanglingRef.

(** A node's state ([Node.IDLE] .. [Node.WRITE]). *)
Inductive mode := IDLE | RUN | READ | WRITE.

(** A neighboring node direction ([Node.UP] .. [Node.LEFT]). *)
Inductive direction := UP | DOWN | RIGHT | LEFT.

Global Instance mode_eq_dec : EqDecision mode.
Proof. solve_decision. Defined.

Global Instance direction_eq_dec : EqDecision direction.
Proof. solve_decision. Defined.

(** The integer behind each direction constant. *)
Definition dir_code (d : direction) : nat :=
  match d with UP => 0 | DOWN => 1 | RIGHT => 2 | LEFT => 3 end%nat.

Definition code_dir (c : nat) : option direction :=
  match c with
  | 0 => Some UP | 1 => Some DOWN | 2 => Some RIGHT | 3 => Some LEFT
  | _ => None
  end%nat.

Global Instance direction_countable : Countable direction.
Proof. refine (inj_countable dir_code code_dir _). by intros []. Defined.

(** [Node.DIRECTIONS = (UP, DOWN, LEFT, RIGHT)] *)
Definition DIRECTIONS : list direction := [UP; DOWN; LEFT; RIGHT].

(** [Node._opposite_directions] *)
Definition _opposite_directions (d : direction) : direction :=
  match d with UP => DOWN | DOWN => UP | LEFT => RIGHT | RIGHT => LEFT end.

(** [Node._direction_labels] *)
Definition _direction_labels (d : direction) : string :=
  match d with UP => "UP" | DOWN => "DOWN" | LEFT => "LEFT" | RIGHT => "RIGHT" end.

(** [Node._label_to_direction] *)
Definition _label_to_direction (s : string) : option direction :=
  if String.eqb s "UP" then Some UP
  else if String.eqb s "DOWN" then Some DOWN
  else if String.eqb s "LEFT" then Some LEFT
  else if String.eqb s "RIGHT" then Some RIGHT
  else None.

(** An instruction is the triple built by the compiler: the opcode name and
    two argument tokens, each [None] when the line has no such argument. *)
Abbreviation token := (option string).
Abbreviation instr := (string * token * token)%type.

(** [tok == 'NAME'] for an argument token. *)
Definition tok_is (t : token) (name : string) : bool :=
  match t with Some s => String.eqb s name | None => false end.

(** *** [int(src)] on a token

    Python's [int] on a string: blanks around the number are dropped, then
    an optional sign and at least one decimal digit must remain. *)
Definition is_space (c : Ascii.ascii) : bool :=
  let n := Ascii.nat_of_ascii c in
  ((n =? 32) || ((9 <=? n) && (n <=? 13)))%nat.

Definition digit_of (c : Ascii.ascii) : option Z :=
  let n := Ascii.nat_of_ascii c in
  if ((48 <=? n) && (n <=? 57))%nat then Some (Z.of_nat n - 48) else None.

Fixpoint lstrip (s : string) : string :=
  match s with
  | String c s' => if is_space c then lstrip s' else s
  | EmptyString => EmptyString
  end.

Definition strip (s : string) : string :=
  String.rev (lstrip (String.rev (lstrip s))).

Fixpoint digits (s : string) (n : Z) : option Z :=
  match s with
  | EmptyString => Some n
  | String c s' =>
      match digit_of c with
      | Some d => digits s' (10 * n + d)
      | None => None
      end
  end.

Definition unsigned_int (s : string) : option Z :=
  match s with
  | EmptyString => None
  | _ => digits s 0
  end.

Definition py_int (s : string) : option Z :=
  match strip s with
  | String "-"%char s' => Z.opp <$> unsigned_int s'
  | String "+"%char s' => unsigned_int s'
  | s' => unsigned_int s'
  end.

(** [l[i]] on a list, with Python's negative indices. *)
Definition py_index {A} (l : list A) (i : Z) : option A :=
  let len := Z.of_nat (length l) in
  if 0 <=? i then l !! Z.to_nat i
  else if - len <=? i then l !! Z.to_nat (len + i)
  else None.

(** ** Nodes and the heap *)

(** A reference to a node object: its index in the heap. *)
Abbreviation ref := nat.

(** The attributes of a [Node] ([Node.__init__]).  [node_id] and [cur_op]
    are only used for log lines and are left out, as are the log lines
    themselves.  [ops] and [labels] are [None] until bytecode is loaded.
    [_mode] is the Python list, bottom of the stack first.  A [LogNode]
    ([logger.py]) is a node with [is_log] set: it has the extra attribute
    [seen_inputs] and overrides [write_input]. *)
Record Node := mkNode {
  ops : option (list instr);
  labels : option (gmap string Z);
  acc : Z;
  bak : Z;
  iptr : Z;
  next_iptr : Z;
  _mode : list mode;
  _last_port_dir : option direction;
  inputs : gmap direction (list Z);
  attached_nodes : gmap direction ref;
  is_log : bool;
  seen_inputs : list Z;
}.

Definition set_acc (v : Z) (n : Node) : Node :=
  mkNode (ops n) (labels n) v (bak n) (iptr n) (next_iptr n) (_mode n)
         (_last_port_dir n) (inputs n) (attached_nodes n) (is_log n)
         (seen_inputs n).

Definition set_bak (v : Z) (n : Node) : Node :=
  mkNode (ops n) (labels n) (acc n) v (iptr n) (next_iptr n) (_mode n)
         (_last_port_dir n) (inputs n) (attached_nodes n) (is_log n)
         (seen_inputs n).

Definition set_iptr (v : Z) (n : Node) : Node :=
  mkNode (ops n) (labels n) (acc n) (bak n) v (next_iptr n) (_mode n)
         (_last_port_dir n) (inputs n) (attached_nodes n) (is_log n)
         (seen_inputs n).

Definition set_next_iptr (v : Z) (n : Node) : Node :=
  mkNode (ops n) (labels n) (acc n) (bak n) (iptr n) v (_mode n)
         (_last_port_dir n) (inputs n) (attached_nodes n) (is_log n)
         (seen_inputs n).

Definition set_mode (v : list mode) (n : Node) : Node :=
  mkNode (ops n) (labels n) (acc n) (bak n) (iptr n) (next_iptr n) v
         (_last_port_dir n) (inputs n) (attached_nodes n) (is_log n)
         (seen_inputs n).

Definition set_last_port_dir (v : option direction) (n : Node) : Node :=
  mkNode (ops n) (labels n) (acc n) (bak n) (iptr n) (next_iptr n) (_mode n)
         v (inputs n) (attached_nodes n) (is_log n) (seen_inputs n).

Definition set_inputs (v : gmap direction (list Z)) (n : Node) : Node :=
  mkNode (ops n) (labels n) (acc n) (bak n) (iptr n) (next_iptr n) (_mode n)
         (_last_port_dir n) v (attached_nodes n) (is_log n) (seen_inputs n).

Definition set_attached_nodes (v : gmap direction ref) (n : Node) : Node :=
  mkNode (ops n) (labels n) (acc n) (bak n) (iptr n) (next_iptr n) (_mode n)
         (_last_port_dir n) (inputs n) v (is_log n) (seen_inputs n).

Definition set_seen_inputs (v : list Z) (n : Node) : Node :=
  mkNode (ops n) (labels n) (acc n) (bak n) (iptr n) (next_iptr n) (_mode n)
         (_last_port_dir n) (inputs n) (attached_nodes n) (is_log n) v.

(** [Node(node_id)] and [LogNode(logger, node_id)] just after construction. *)
Definition new_Node : Node :=
  mkNode None None 0 0 0 0 [IDLE] None ∅ ∅ false [].

Definition new_LogNode : Node :=
  mkNode None None 0 0 0 0 [IDLE] None ∅ ∅ true [].

(** [Node.load_bytecode] *)
Definition load_bytecode (compiled : list instr * gmap string Z) (n : Node)
  : Node :=
  mkNode (Some compiled.1) (Some compiled.2) (acc n) (bak n) (iptr n)
         (next_iptr n) (_mode n) (_last_port_dir n) (inputs n)
         (attached_nodes n) (is_log n) (seen_inputs n).

(** [Node.loaded]: [bool(self.ops)], false for [None] and for [[]]. *)
Definition loaded (n : Node) : bool :=
  match ops n with
  | Some (_ :: _) => true
  | _ => false
  end.

(** [Node.has_inputs] *)
Definition has_inputs (n : Node) (d : direction) : bool :=
  (0 <? length (default [] (inputs n !! d)))%nat.

(** [Node.mode]: the last element of the stack. *)
Definition mode_of (n : Node) : option mode := last (_mode n).

(** The heap of node objects. *)
Abbreviation Store := (list Node).

(** ** Generators

    The interpreter is a stack of nested generators ([Node.run], the
    handler of the opcode, [_read_src] or [_write_dest], [_read_input] or
    [_write_output]).  All of them re-yield what the innermost one yields,
    so the whole stack is suspended at one [yield] statement at a time.  A
    [frame] names that statement together with the local variables that are
    still needed when the stack is resumed. *)

(** The handler that consumes the value produced by [_read_src], that is
    what remains to be done once the [for value in self._read_src(src)]
    loop is over. *)
Inductive reader :=
| InMov (dest : token)            (* [_mov]: then [_write_dest(dest, value)] *)
| InAdd                           (* [_add]: then [self.acc += value] *)
| InSub                           (* [_sub]: then [self.acc -= value] *)
| InJro.                          (* [_jro]: then the relative jump *)

Inductive frame :=
| Tail
    (* the [yield] that ends [_nop], [_swp], [_sav], [_neg] and [_jmp] *)
| SrcYielded (k : reader) (value : Z)
    (* [yield self.acc], [yield int(src)] in [_read_src], or [yield result]
       of a blocking [_read_input]: nothing is left to do in [_read_src] *)
| ReadBlocked (d : direction) (k : reader)
    (* [yield] in the [while not self.has_inputs(direction)] loop *)
| AnyYielded (k : reader) (value : Z)
    (* [yield src] in the ANY branch of [_read_src], with a value *)
| AnyRetry (k : reader)
    (* the [yield] that ends one round of the ANY branch of [_read_src] *)
| WriteBlocked (node : ref) (opposite_dir : direction)
    (* [yield] in the [while node.has_inputs(opposite_dir)] loop *)
| WriteYieldedTrue
    (* [yield True] that ends a blocking [_write_output] *)
| AnyWriteRetry (value : Z).
    (* the [yield] that ends one round of the ANY branch of [_write_dest] *)

(** Running a piece of generator code on the heap: it finishes with a
    result, reaches a [yield], or raises. *)
Inductive step (A : Type) : Type :=
| Done (a : A) (σ : Store)
| Yielded (fr : frame) (σ : Store)
| Raised (e : exn).

Arguments Done {A} a σ.
Arguments Yielded {A} fr σ.
Arguments Raised {A} e.

Definition gen (A : Type) : Type := Store -> step A.

Definition ret {A} (a : A) : gen A := fun σ => Done a σ.

Definition bind {A B} (m : gen A) (k : A -> gen B) : gen B :=
  fun σ =>
    match m σ with
    | Done a σ' => k a σ'
    | Yielded fr σ' => Yielded fr σ'
    | Raised e => Raised e
    end.

Definition raise {A} (e : exn) : gen A := fun _ => Raised e.

Definition yield {A} (fr : frame) : gen A := fun σ => Yielded fr σ.

Notation "'let!' x ':=' m 'in' k" := (bind m (fun x => k))
  (at level 10, x name, m at level 100, k at level 200).
Notation "'do!' m 'in' k" := (bind m (fun _ => k))
  (at level 10, m at level 100, k at level 200).

(** Reading and updating the object behind a reference. *)
Definition get (r : ref) : gen Node :=
  fun σ => match σ !! r with Some n => Done n σ | None => Raised DanglingRef end.

Definition modify (r : ref) (f : Node -> Node) : gen unit :=
  fun σ => Done tt (alter f r σ).

Definition assert (b : bool) : gen unit :=
  if b then ret tt else raise AssertionError.

(** ** Methods of [Node] that do not suspend *)

(** [Node.push_mode] *)
Definition push_mode (self : ref) (m : mode) : gen unit :=
  modify self (fun n => set_mode (_mode n ++ [m]) n).

(** [Node.pop_mode]: [list.pop()] raises on an empty list. *)
Definition pop_mode (self : ref) : gen unit :=
  let! n := get self in
  match _mode n with
  | [] => raise IndexError
  | _ => modify self (fun n => set_mode (removelast (_mode n)) n)
  end.

(** [Node.get_next_op] *)
Definition get_next_op (self : ref) : gen instr :=
  let! n := get self in
  match ops n with
  | None => raise TypeError
  | Some l =>
      let i := if Z.of_nat (length l) <=? next_iptr n then 0 else next_iptr n in
      do! modify self (set_next_iptr i) in
      match py_index l i with
      | None => raise IndexError
      | Some op => do! modify self (set_iptr i) in ret op
      end
  end.

(** [Node.get_attached_node].  The direction is [None] when it comes from
    an unset [_last_port_dir]; the assertion then fails. *)
Definition get_attached_node (self : ref) (direction : option direction)
  : gen (option ref) :=
  match direction with
  | None => raise AssertionError
  | Some d =>
      do! assert (bool_decide (d ∈ DIRECTIONS)) in
      let! n := get self in
      ret (attached_nodes n !! d)
  end.

(** [Node.write_input], and its override [LogNode.write_input], which
    records the value and leaves [inputs] alone. *)
Definition write_input (node : ref) (d : direction) (value : Z) : gen unit :=
  let! n := get node in
  if is_log n then
    modify node (fun n => set_seen_inputs (seen_inputs n ++ [value]) n)
  else
    modify node (fun n =>
      set_inputs (<[d := default [] (inputs n !! d) ++ [value]]> (inputs n)) n).

(** [Node.read_input]: [pop(0)] raises on an empty list. *)
Definition read_input (self : ref) (d : direction) : gen Z :=
  let! n := get self in
  match default [] (inputs n !! d) with
  | [] => raise IndexError
  | v :: rest =>
      do! modify self (fun n => set_inputs (<[d := rest]> (inputs n)) n) in
      ret v
  end.

(** ** Port input and output *)

(** The end of [_read_input] once the queue has a value: take it, record
    the direction, pop the READ frame.  The result is what the generator
    yields. *)
Definition _read_input_take (self : ref) (d : direction) : gen Z :=
  let! result := read_input self d in
  do! modify self (set_last_port_dir (Some d)) in
  do! pop_mode self in
  ret result.

(** The [while not self.has_inputs(direction)] loop of [_read_input] and
    what follows it, with [blocking=True].  The generator is suspended in
    the loop while the queue is empty and at [yield result] otherwise. *)
Definition _read_input_wait (self : ref) (d : direction) (k : reader)
  : gen unit :=
  let! n := get self in
  if has_inputs n d then
    let! result := _read_input_take self d in
    yield (SrcYielded k result)
  else yield (ReadBlocked d k).

(** [_read_input(direction)], blocking. *)
Definition _read_input (self : ref) (direction : option direction)
    (k : reader) : gen unit :=
  do! push_mode self READ in
  do! get_attached_node self direction in
  match direction with
  | Some d => _read_input_wait self d k
  | None => raise AssertionError
  end.

(** [_read_input(direction, blocking=False)]: the value it yields, or
    [None] when it returns without yielding. *)
Definition _read_input_nonblocking (self : ref) (d : direction)
  : gen (option Z) :=
  do! push_mode self READ in
  do! get_attached_node self (Some d) in
  let! n := get self in
  if has_inputs n d then
    let! result := _read_input_take self d in
    ret (Some result)
  else
    do! pop_mode self in
    ret None.

(** The [while node.has_inputs(opposite_dir)] loop of [_write_output] and
    what follows it, with [blocking=True]. *)
Definition _write_output_wait (self : ref) (node : ref)
    (opposite_dir : direction) : gen unit :=
  let! p := get node in
  if has_inputs p opposite_dir then yield (WriteBlocked node opposite_dir)
  else
    do! pop_mode self in
    yield WriteYieldedTrue.

(** [_write_output(direction, value)], blocking.  Without a neighbour the
    generator returns at once and the WRITE frame stays on the stack. *)
Definition _write_output (self : ref) (direction : option direction)
    (value : Z) : gen unit :=
  do! push_mode self WRITE in
  let! node := get_attached_node self direction in
  match direction, node with
  | None, _ => raise AssertionError
  | Some d, None => ret tt
  | Some d, Some node =>
      let opposite_dir := _opposite_directions d in
      do! write_input node (_opposite_directions d) value in
      do! modify self (set_last_port_dir (Some d)) in
      _write_output_wait self node opposite_dir
  end.

(** [_write_output(direction, value, blocking=False)]: [true] when it
    yields [True], [false] when it returns without yielding. *)
Definition _write_output_nonblocking (self : ref) (d : direction)
    (value : Z) : gen bool :=
  do! push_mode self WRITE in
  let! node := get_attached_node self (Some d) in
  match node with
  | None =>
      do! pop_mode self in
      ret false
  | Some node =>
      let opposite_dir := _opposite_directions d in
      do! write_input node (_opposite_directions d) value in
      do! modify self (set_last_port_dir (Some d)) in
      let! p := get node in
      if has_inputs p opposite_dir then
        do! pop_mode self in
        ret false
      else
        do! pop_mode self in
        ret true
  end.

(** ** Sources and destinations *)

(** One round of the ANY branch of [_read_src]: the [for direction in
    self.DIRECTIONS] loop over the directions still to try, then the
    [yield] before the next round. *)
Fixpoint _read_src_any (self : ref) (ds : list direction) (k : reader)
  : gen unit :=
  match ds with
  | [] => yield (AnyRetry k)
  | d :: ds' =>
      let! src := _read_input_nonblocking self d in
      match src with
      | Some v => yield (AnyYielded k v)
      | None => _read_src_any self ds' k
      end
  end.

(** [_read_src(src)].  Every branch yields before it returns, so the
    result of the loop that consumes it is the last value yielded. *)
Definition _read_src (self : ref) (src : token) (k : reader) : gen unit :=
  do! assert (negb (tok_is src "BAK")) in
  if tok_is src "ACC" then
    let! n := get self in
    yield (SrcYielded k (acc n))
  else if tok_is src "NIL" then
    raise NameError                      (* [NIL] is not defined anywhere *)
  else if tok_is src "UP" || tok_is src "DOWN" || tok_is src "LEFT"
          || tok_is src "RIGHT" then
    _read_input self (src ≫= _label_to_direction) k
  else if tok_is src "ANY" then
    do! push_mode self READ in
    _read_src_any self DIRECTIONS k
  else if tok_is src "LAST" then
    let! n := get self in
    _read_input self (_last_port_dir n) k
  else
    match src with
    | None => raise TypeError
    | Some s =>
        match py_int s with
        | None => raise ValueError
        | Some v => yield (SrcYielded k v)
        end
    end.

(** One round of the ANY branch of [_write_dest]. *)
Fixpoint _write_dest_any (self : ref) (ds : list direction) (value : Z)
  : gen unit :=
  match ds with
  | [] => yield (AnyWriteRetry value)
  | d :: ds' =>
      let! result := _write_output_nonblocking self d value in
      if result then pop_mode self
      else _write_dest_any self ds' value
  end.

(** [_write_dest(dest, value)] *)
Definition _write_dest (self : ref) (dest : token) (value : Z) : gen unit :=
  do! assert (tok_is dest "ACC" || tok_is dest "NIL" || tok_is dest "UP"
              || tok_is dest "DOWN" || tok_is dest "LEFT"
              || tok_is dest "RIGHT" || tok_is dest "ANY"
              || tok_is dest "LAST") in
  if tok_is dest "ACC" then modify self (set_acc value)
  else if tok_is dest "NIL" then ret tt
  else if tok_is dest "UP" || tok_is dest "DOWN" || tok_is dest "LEFT"
          || tok_is dest "RIGHT" then
    _write_output self (dest ≫= _label_to_direction) value
  else if tok_is dest "ANY" then
    do! push_mode self WRITE in
    _write_dest_any self DIRECTIONS value
  else if tok_is dest "LAST" then
    let! n := get self in
    _write_output self (_last_port_dir n) value
  else ret tt.

(** ** Opcode handlers *)

(** [_jmp(label)]: a token that is not a key of [labels] (or no token at
    all) fails the assertion. *)
Definition _jmp (self : ref) (label : token) : gen unit :=
  let! n := get self in
  match labels n with
  | None => raise TypeError
  | Some lbls =>
      match label ≫= (fun l => lbls !! l) with
      | None => raise AssertionError
      | Some target =>
          do! modify self (set_next_iptr target) in
          yield Tail
      end
  end.

(** [_jez], [_jnz], [_jgz], [_jlz]: jump when the condition on ACC holds,
    return without yielding otherwise. *)
Definition _jez (self : ref) (label : token) : gen unit :=
  let! n := get self in
  if acc n =? 0 then _jmp self label else ret tt.

Definition _jnz (self : ref) (label : token) : gen unit :=
  let! n := get self in
  if negb (acc n =? 0) then _jmp self label else ret tt.

Definition _jgz (self : ref) (label : token) : gen unit :=
  let! n := get self in
  if 0 <? acc n then _jmp self label else ret tt.

Definition _jlz (self : ref) (label : token) : gen unit :=
  let! n := get self in
  if acc n <? 0 then _jmp self label else ret tt.

(** [_nop], [_swp], [_sav], [_neg] *)
Definition _nop (self : ref) : gen unit := yield Tail.

Definition _swp (self : ref) : gen unit :=
  do! modify self (fun n => set_acc (bak n) (set_bak (acc n) n)) in
  yield Tail.

Definition _sav (self : ref) : gen unit :=
  do! modify self (fun n => set_bak (acc n) n) in
  yield Tail.

Definition _neg (self : ref) : gen unit :=
  do! modify self (fun n => set_acc (- acc n) n) in
  yield Tail.

(** What [_mov], [_add], [_sub] and [_jro] do after their loop over
    [_read_src], with the last value it yielded. *)
Definition after_read_src (self : ref) (k : reader) (value : Z) : gen unit :=
  match k with
  | InMov dest => _write_dest self dest value
  | InAdd => modify self (fun n => set_acc (acc n + value) n)
  | InSub => modify self (fun n => set_acc (acc n - value) n)
  | InJro =>
      let! n := get self in
      match ops n with
      | None => raise TypeError
      | Some l =>
          let new_iptr := next_iptr n + value in
          modify self
            (set_next_iptr (Z.max 0 (Z.min new_iptr (Z.of_nat (length l)))))
      end
  end.

(** [_mov], [_add], [_sub], [_jro] up to their first [yield]. *)
Definition _mov (self : ref) (src dest : token) : gen unit :=
  _read_src self src (InMov dest).

Definition _add (self : ref) (src : token) : gen unit :=
  _read_src self src InAdd.

Definition _sub (self : ref) (src : token) : gen unit :=
  _read_src self src InSub.

Definition _jro (self : ref) (src : token) : gen unit :=
  _read_src self src InJro.

(** [self.op_table] *)
Inductive handler :=
| H_nop | H_mov | H_swp | H_sav | H_add | H_sub | H_neg
| H_jmp | H_jez | H_jnz | H_jgz | H_jlz | H_jro.

Definition op_table (op : string) : option handler :=
  if String.eqb op "NOP" then Some H_nop
  else if String.eqb op "MOV" then Some H_mov
  else if String.eqb op "SWP" then Some H_swp
  else if String.eqb op "SAV" then Some H_sav
  else if String.eqb op "ADD" then Some H_add
  else if String.eqb op "SUB" then Some H_sub
  else if String.eqb op "NEG" then Some H_neg
  else if String.eqb op "JMP" then Some H_jmp
  else if String.eqb op "JEZ" then Some H_jez
  else if String.eqb op "JNZ" then Some H_jnz
  else if String.eqb op "JGZ" then Some H_jgz
  else if String.eqb op "JLZ" then Some H_jlz
  else if String.eqb op "JRO" then Some H_jro
  else None.

(** [self.op_table[op](arg1, arg2)], run up to its first [yield]. *)
Definition call (h : handler) (self : ref) (arg1 arg2 : token) : gen unit :=
  match h with
  | H_nop => _nop self
  | H_mov => _mov self arg1 arg2
  | H_swp => _swp self
  | H_sav => _sav self
  | H_add => _add self arg1
  | H_sub => _sub self arg1
  | H_neg => _neg self
  | H_jmp => _jmp self arg1
  | H_jez => _jez self arg1
  | H_jnz => _jnz self arg1
  | H_jgz => _jgz self arg1
  | H_jlz => _jlz self arg1
  | H_jro => _jro self arg1
  end.

(** Resuming the handler from the [yield] where it is suspended, up to its
    next [yield] or its end. *)
Definition resume (self : ref) (fr : frame) : gen unit :=
  match fr with
  | Tail => ret tt
  | SrcYielded k value => after_read_src self k value
  | ReadBlocked d k => _read_input_wait self d k
  | AnyYielded k value =>
      do! pop_mode self in
      after_read_src self k value
  | AnyRetry k => _read_src_any self DIRECTIONS k
  | WriteBlocked node opposite_dir => _write_output_wait self node opposite_dir
  | WriteYieldedTrue => ret tt
  | AnyWriteRetry value => _write_dest_any self DIRECTIONS value
  end.

(** ** [Node.run] *)

(** The body of the [while True] loop up to the first [yield] of the
    handler: push RUN, fetch, advance [next_iptr], dispatch. *)
Definition dispatch (self : ref) : gen unit :=
  do! push_mode self RUN in
  let! i := get_next_op self in
  let '(op, arg1, arg2) := i in
  do! modify self (fun n => set_next_iptr (iptr n + 1) n) in
  match op_table op with
  | None => raise AssertionError
  | Some h => call h self arg1 arg2
  end.

(** The state of the generator returned by [node.run()]. *)
Inductive generator := NotStarted | SuspendedAt (fr : frame).

(** What one [next()] on that generator gives.  [OutOfFuel] stands for a
    call that has not reached a [yield] within the given number of
    instructions. *)
Inductive outcome :=
| Suspended (fr : frame) (σ : Store)
| Failed (e : exn)
| OutOfFuel.

(** Carry on from the state the handler is in: stop at a [yield]; when the
    handler is exhausted, pop RUN and go round the loop. *)
Fixpoint run_until_yield (fuel : nat) (self : ref) (s : step unit)
  {struct fuel} : outcome :=
  match s with
  | Yielded fr σ => Suspended fr σ
  | Raised e => Failed e
  | Done _ σ =>
      match fuel with
      | O => OutOfFuel
      | S fuel' =>
          run_until_yield fuel' self ((do! pop_mode self in dispatch self) σ)
      end
  end.

(** [next(node_run)] *)
Definition Node_run_next (fuel : nat) (self : ref) (g : generator)
    (σ : Store) : outcome :=
  run_until_yield fuel self
    (match g with
     | NotStarted => dispatch self σ
     | SuspendedAt fr => resume self fr σ
     end).

(** ** The port fabric and the grid ([tis.py], [logger.py]) *)

(** [Node.attach_node] *)
Definition attach_node (self node : ref) (d : direction) (bidi : bool)
  : gen unit :=
  do! assert (bool_decide (d ∈ DIRECTIONS)) in
  do! modify self (fun n =>
        set_attached_nodes (<[d := node]> (attached_nodes n)) n) in
  if bidi then
    modify node (fun n =>
      set_attached_nodes
        (<[_opposite_directions d := self]> (attached_nodes n)) n)
  else ret tt.

(** The attributes of a [TIS] that the scheduler uses.  [nodes] holds
    references into the heap; the dictionaries are keyed by node
    reference and by direction. *)
Record TIS := mkTIS {
  nodes : list ref;
  buffered_input : gmap ref (gmap direction (list Z));
  num_buffered_inputs : Z;
}.

Definition MAX_NODES_X : nat := 4.
Definition MAX_NODES_Y : nat := 3.

(** The wiring loop of [TIS.__init__] for the cell [(x, y)]. *)
Definition wire_cell (x y : nat) : gen unit :=
  let node := (MAX_NODES_X * y + x)%nat in
  do! (if bool_decide (0 < y < MAX_NODES_Y)%nat
       then attach_node node (MAX_NODES_X * (y - 1) + x)%nat UP true
       else ret tt) in
  if bool_decide (0 < x < MAX_NODES_X)%nat
  then attach_node node (MAX_NODES_X * y + x - 1)%nat LEFT true
  else ret tt.

Fixpoint for_each {A} (l : list A) (body : A -> gen unit) : gen unit :=
  match l with
  | [] => ret tt
  | a :: l' => do! body a in for_each l' body
  end.

(** [TIS()]: twelve fresh nodes at the start of the heap, wired as a grid. *)
Definition TIS_init : gen TIS :=
  fun _ =>
    (do! for_each (seq 0 MAX_NODES_Y) (fun y =>
           for_each (seq 0 MAX_NODES_X) (fun x => wire_cell x y)) in
     ret (mkTIS (seq 0 (MAX_NODES_X * MAX_NODES_Y)) ∅ 0))
      (replicate (MAX_NODES_X * MAX_NODES_Y) new_Node).

(** [Logger.attach_to_output]: a new [LogNode] is allocated and attached,
    one way, below the node. *)
Definition attach_to_output (t : TIS) (node_id : nat) : gen unit :=
  fun σ =>
    match nodes t !! node_id with
    | None => Raised IndexError
    | Some node =>
        attach_node node (length σ) DOWN false (σ ++ [new_LogNode])
    end.

(** [TIS.buffer_input] *)
Definition buffer_input (t : TIS) (node : ref) (d : direction)
    (values : list Z) : TIS :=
  let per_dir := default ∅ (buffered_input t !! node) in
  let queue := default [] (per_dir !! d) in
  mkTIS (nodes t)
        (<[node := <[d := queue ++ values]> per_dir]> (buffered_input t))
        (num_buffered_inputs t + Z.of_nat (length values)).

(** ** The scheduler ([TIS.run]) *)

(** [dict.iteritems()] on a dictionary keyed by directions.  CPython 2
    walks the hash table in slot order; the keys are the small integers
    0..3, which hash to themselves, so the items come in increasing key
    order. *)
Definition iteritems (m : gmap direction (list Z))
  : list (direction * list Z) :=
  omap (fun d => (fun values => (d, values)) <$> m !! d)
       [UP; DOWN; RIGHT; LEFT].

(** The [for d, values in ...iteritems()] loop: the first direction that
    has a buffered value and whose input queue at the node is empty, with
    that value and the rest of the buffer. *)
Fixpoint inject_scan (n : Node) (items : list (direction * list Z))
  : option (direction * Z * list Z) :=
  match items with
  | [] => None
  | (d, values) :: items' =>
      match values with
      | v :: rest =>
          if negb (has_inputs n d) then Some (d, v, rest)
          else inject_scan n items'
      | [] => inject_scan n items'
      end
  end.

(** The [if node in self.buffered_input and node.mode == Node.READ] block
    of the scheduler loop. *)
Definition inject (t : TIS) (node : ref) : gen TIS :=
  match buffered_input t !! node with
  | None => ret t
  | Some per_dir =>
      let! n := get node in
      match mode_of n with
      | None => raise IndexError
      | Some m =>
          if bool_decide (m = READ) then
            match inject_scan n (iteritems per_dir) with
            | None => ret t
            | Some (d, v, rest) =>
                do! write_input node d v in
                ret (mkTIS (nodes t)
                           (<[node := <[d := rest]> per_dir]>
                              (buffered_input t))
                           (num_buffered_inputs t - 1))
            end
          else ret t
      end
  end.

(** The state of the generator returned by [tis.run()]: the list
    [node_runs] with the state of each node's generator, and the position
    of the [for] loop in it. *)
Record TIS_run := mkRun {
  node_runs : list (ref * generator);
  pos : nat;
}.

(** The list comprehension that starts [TIS.run]. *)
Definition node_is_loaded (σ : Store) (node : ref) : bool :=
  match σ !! node with Some n => loaded n | None => false end.

Definition TIS_run_start (t : TIS) (σ : Store) : TIS_run :=
  mkRun ((fun node => (node, NotStarted)) <$>
           filter (fun node => node_is_loaded σ node = true) (nodes t))
        0.

(** What one [next()] on [tis.run()] gives. *)
Inductive TIS_outcome :=
| TIS_yield (t : TIS) (r : TIS_run) (σ : Store)
| TIS_failed (e : exn)
| TIS_out_of_fuel.

(** One turn of the [for node, node_run in node_runs] loop: inject a
    buffered value, then advance the node to its next [yield].  With an
    empty [node_runs] the [while True] loop spins without ever yielding. *)
Definition TIS_run_next (fuel : nat) (t : TIS) (r : TIS_run) (σ : Store)
  : TIS_outcome :=
  match node_runs r !! pos r with
  | None => TIS_out_of_fuel
  | Some (node, node_run) =>
      match inject t node σ with
      | Raised e => TIS_failed e
      | Yielded _ _ => TIS_failed DanglingRef
      | Done t' σ1 =>
          match Node_run_next fuel node node_run σ1 with
          | OutOfFuel => TIS_out_of_fuel
          | Failed e => TIS_failed e
          | Suspended fr σ2 =>
              let runs := <[pos r := (node, SuspendedAt fr)]> (node_runs r) in
              let pos' := if bool_decide (S (pos r) < length runs)%nat
                          then S (pos r) else 0%nat in
              TIS_yield t' (mkRun runs pos') σ2
          end
      end
  end.

(** ** Running a handler on its own *)

(** The handler resumed as soon as it is suspended, at most [fuel] times:
    the instruction as it executes when no other node acts in between.
    [Done] means that the handler has returned. *)
Fixpoint run_alone (fuel : nat) (self : ref) (s : step unit) : step unit :=
  match s, fuel with
  | Yielded fr σ, S fuel' => run_alone fuel' self (resume self fr σ)
  | _, _ => s
  end.

(** One instruction executed to its end with no interference. *)
Definition exec (fuel : nat) (op : string) (arg1 arg2 : token) (self : ref)
  : gen unit :=
  fun σ =>
    match op_table op with
    | None => Raised AssertionError
    | Some h => run_alone fuel self (call h self arg1 arg2 σ)
    end.

(** The number of [yield]s met while doing so. *)
Fixpoint yields_alone (fuel : nat) (self : ref) (s : step unit) : nat :=
  match s, fuel with
  | Yielded fr σ, S fuel' => S (yields_alone fuel' self (resume self fr σ))
  | _, _ => 0
  end.

(** The node behind a reference after a computation, if it finished or
    was suspended. *)
Definition heap_of {A} (s : step A) : option Store :=
  match s with
  | Done _ σ | Yielded _ σ => Some σ
  | Raised _ => None
  end.

Definition node_after {A} (s : step A) (r : ref) : option Node :=
  heap_of s ≫= (fun σ => σ !! r).

(** ** Notions used in the statements *)

(** The program SAV; SWP; SWP, each instruction run to its end. *)
Definition sav_swp_swp (self : ref) : gen unit :=
  do! exec 1 "SAV" None None self in
  do! exec 1 "SWP" None None self in
  exec 1 "SWP" None None self.

(** The index [get_next_op] fetches from: [next_iptr], or 0 past the end. *)
Definition fetch_index (n : Node) (l : list instr) : Z :=
  if Z.of_nat (length l) <=? next_iptr n then 0 else next_iptr n.

(** The opcode is a conditional jump and its condition fails on [a]. *)
Definition untaken (op : string) (a : Z) : bool :=
  (String.eqb op "JEZ" && negb (a =? 0))
  || (String.eqb op "JNZ" && (a =? 0))
  || (String.eqb op "JGZ" && negb (0 <? a))
  || (String.eqb op "JLZ" && negb (a <? 0)).

(** Node 0 of the grid, which has no neighbour above, loaded with
    [MOV 1, UP]. *)
Definition mov_1_up : Node :=
  set_attached_nodes (<[DOWN := 4%nat]> (<[RIGHT := 1%nat]> ∅))
    (load_bytecode ([("MOV", Some "1", Some "UP")]%string, ∅) new_Node).

(** [k] successive [next()] on the generator of a node, with no other
    node running in between. *)
Fixpoint Node_run_nexts (k fuel : nat) (self : ref) (g : generator)
    (σ : Store) : option (generator * Store) :=
  match k with
  | O => Some (g, σ)
  | S k' =>
      match Node_run_next fuel self g σ with
      | Suspended fr σ' => Node_run_nexts k' fuel self (SuspendedAt fr) σ'
      | _ => None
      end
  end.

(** The generator state and the mode stack of a node after that. *)
Definition observe_modes (self : ref) (r : option (generator * Store))
  : option (generator * list mode) :=
  r ≫= (fun '(g, σ) => (fun n => (g, _mode n)) <$> σ !! self).

(** [k] successive [next()] on [tis.run()]. *)
Fixpoint TIS_run_nexts (k fuel : nat) (t : TIS) (r : TIS_run) (σ : Store)
  : TIS_outcome :=
  match k with
  | O => TIS_yield t r σ
  | S k' =>
      match TIS_run_next fuel t r σ with
      | TIS_yield t' r' σ' => TIS_run_nexts k' fuel t' r' σ'
      | o => o
      end
  end.

(** One scheduling cycle: a full pass of the [for] loop over [node_runs]. *)
Definition TIS_cycle (fuel : nat) (t : TIS) (r : TIS_run) (σ : Store)
  : TIS_outcome :=
  TIS_run_nexts (length (node_runs r)) fuel t r σ.

(** The values buffered by the host for a port, and the input queue of a
    port. *)
Definition buffered (t : TIS) (node : ref) (d : direction) : list Z :=
  default [] (buffered_input t !! node ≫= (fun per_dir => per_dir !! d)).

Definition queue (σ : Store) (node : ref) (d : direction) : list Z :=
  match σ !! node with
  | Some n => default [] (inputs n !! d)
  | None => []
  end.

(** Between two states of the scheduler, the buffers of [node] are the
    same, or exactly one value has left the front of exactly one of them. *)
Definition drained_at_most_one (t t' : TIS) (node : ref) : Prop :=
  (forall d, buffered t' node d = buffered t node d)
  \/ exists d v,
       buffered t node d = v :: buffered t' node d
       /\ forall d', d' ≠ d -> buffered t' node d' = buffered t node d'.

(** A one-node machine blocked in [MOV UP, ACC], with two values buffered
    by the host for its UP port. *)
Definition reader_node : Node :=
  set_mode [IDLE; RUN; READ]
    (set_next_iptr 1
       (load_bytecode ([("MOV", Some "UP", Some "ACC")]%string, ∅) new_Node)).

Definition reader_tis : TIS := buffer_input (mkTIS [0%nat] ∅ 0) 0%nat UP [7; 8].

Definition reader_run : TIS_run :=
  mkRun [(0%nat, SuspendedAt (ReadBlocked UP (InMov (Some "ACC"%string))))]
        0.

(** What the fetch needs from a node: non-negative instruction pointers,
    and labels that point at non-negative indices, as [compile_asm] builds
    them (a label is bound to the number of instructions emitted so far). *)
Definition fetch_ready (n : Node) : Prop :=
  0 <= iptr n /\ 0 <= next_iptr n
  /\ forall lbls name target,
       labels n = Some lbls -> lbls !! name = Some target -> 0 <= target.

(** The states of the scheduler that a run goes through, from the heap
    and the buffers it is started with. *)
Inductive reachable (t0 : TIS) (σ0 : Store) : TIS -> TIS_run -> Store -> Prop :=
| reachable_start :
    reachable t0 σ0 t0 (TIS_run_start t0 σ0) σ0
| reachable_next fuel t r σ t' r' σ' :
    reachable t0 σ0 t r σ ->
    TIS_run_next fuel t r σ = TIS_yield t' r' σ' ->
    reachable t0 σ0 t' r' σ'.

(** Every node of the heap satisfies the property attached to its
    reference, and the heap has the given size. *)
Definition heap_ok (node_ok : ref -> Node -> Prop) (len : nat) (σ : Store)
  : Prop :=
  length σ = len /\ forall r n, σ !! r = Some n -> node_ok r n.

(** A piece of generator code keeps such a property of the heap, whether
    it finishes or is suspended. *)
Definition preserves (node_ok : ref -> Node -> Prop) (len : nat) {A}
    (m : gen A) : Prop :=
  forall σ, heap_ok node_ok len σ ->
    match m σ with
    | Done _ σ' | Yielded _ σ' => heap_ok node_ok len σ'
    | Raised _ => True
    end.

(** A node is ready for the fetch, and has a program if it is one of the
    nodes that the scheduler advances. *)
Definition runnable (scheduled : ref -> Prop) (r : ref) (n : Node) : Prop :=
  fetch_ready n /\ (scheduled r -> loaded n = true).

(** A machine with a single node, loaded with [NOP]. *)
Definition nop_node : Node :=
  load_bytecode ([("NOP"%string, None, None)], ∅) new_Node.

Definition nop_tis : TIS := mkTIS [0%nat] ∅ 0.

(** The grid built by [TIS()]. *)
Definition standard_grid : TIS * Store :=
  match TIS_init [] with
  | Done t σ => (t, σ)
  | _ => (mkTIS [] ∅ 0, [])
  end.

(** The grid with [NOP; MOV 1, DOWN] on node 0 and [MOV LEFT, ACC] on the
    node below it, node 4, for which the host has buffered the value 7 on
    UP (the command line [--input 4:7]). *)
Definition collision_heap : Store :=
  alter (load_bytecode
           ([("NOP", None, None); ("MOV", Some "1", Some "DOWN")]%string, ∅))
        0%nat
        (alter (load_bytecode
                  ([("MOV", Some "LEFT", Some "ACC")]%string, ∅))
               4%nat standard_grid.2).

Definition collision_tis : TIS := buffer_input standard_grid.1 4%nat UP [7].

(** The heap after [k] turns of the scheduler. *)
Definition heap_after (k fuel : nat) (t : TIS) (σ : Store) : option Store :=
  match TIS_run_nexts k fuel t (TIS_run_start t σ) σ with
  | TIS_yield _ _ σ' => Some σ'
  | _ => None
  end.

(** *** Notions for the one-value-per-port invariant *)

(** [node.get_attached_node(D)] for the node behind [w]. *)
Definition peer (σ : Store) (w : ref) (D : direction) : option ref :=
  σ !! w ≫= (fun n => attached_nodes n !! D).

(** A suspended instruction that will not write to ANY when resumed. *)
Definition reader_ok (k : reader) : Prop :=
  match k with
  | InMov dest => tok_is dest "ANY" = false
  | _ => True
  end.

Definition frame_ok (fr : frame) : Prop :=
  match fr with
  | SrcYielded k _ | ReadBlocked _ k | AnyYielded k _ | AnyRetry k =>
      reader_ok k
  | AnyWriteRetry _ => False
  | _ => True
  end.

(** No instruction of the program has ANY as its second argument. *)
Definition no_any_dest (n : Node) : Prop :=
  forall l op a1 a2,
    ops n = Some l -> (op, a1, a2) ∈ l -> tok_is a2 "ANY" = false.

(** At most one node is attached towards any input port. *)
Definition single_writer (σ : Store) : Prop :=
  forall w1 w2 D1 D2 p,
    peer σ w1 D1 = Some p -> peer σ w2 D2 = Some p ->
    _opposite_directions D1 = _opposite_directions D2 -> w1 = w2.

(** The host buffers values only for ports that no node is attached
    towards. *)
Definition host_ports_free (t : TIS) (σ : Store) : Prop :=
  forall w D p,
    peer σ w D = Some p -> buffered t p (_opposite_directions D) = [].

(** What a step never changes in a node, and a queue that has only lost
    values from its front. *)
Definition node_shrinks (n n' : Node) : Prop :=
  attached_nodes n' = attached_nodes n /\ ops n' = ops n
  /\ is_log n' = is_log n
  /\ forall d,
       default [] (inputs n' !! d) `suffix_of` default [] (inputs n !! d).

Definition shrinks (σ σ' : Store) : Prop :=
  length σ' = length σ
  /\ forall r n n', σ !! r = Some n -> σ' !! r = Some n' -> node_shrinks n n'.

(** Code that only consumes inputs, and is suspended in a frame that
    satisfies [F] if at all. *)
Definition consumes (F : frame -> Prop) {A} (m : gen A) : Prop :=
  forall σ,
    match m σ with
    | Done _ σ' => shrinks σ σ'
    | Yielded fr σ' => shrinks σ σ' /\ F fr
    | Raised _ => True
    end.

(** The invariant, seen from the node [self] that the scheduler is about
    to advance or has just advanced: every queue holds at most one value,
    every non-empty queue that another node is attached towards belongs to
    a write in which that node is suspended, the program and wiring
    restrictions hold, and the wiring is that of the heap [σ0] the run
    started from. *)
Definition port_base (σ0 : Store) (self : ref)
    (runs : list (ref * generator)) (σ : Store) : Prop :=
  single_writer σ /\ Forall no_any_dest σ
  /\ (forall p d, (length (queue σ p d) <= 1)%nat)
  /\ (forall w D p,
        w ≠ self -> peer σ w D = Some p ->
        queue σ p (_opposite_directions D) ≠ [] ->
        (w, SuspendedAt (WriteBlocked p (_opposite_directions D))) ∈ runs)
  /\ (forall w D, peer σ w D = peer σ0 w D).

(** [self] has no value in flight. *)
Definition port_clear (σ0 : Store) (self : ref)
    (runs : list (ref * generator)) (σ : Store) : Prop :=
  port_base σ0 self runs σ
  /\ forall D p,
       peer σ self D = Some p -> queue σ p (_opposite_directions D) = [].

(** [self] is suspended in [fr], and a value of its own in flight is the
    one of the write it is suspended in. *)
Definition port_suspended (σ0 : Store) (self : ref)
    (runs : list (ref * generator)) (fr : frame) (σ : Store) : Prop :=
  port_base σ0 self runs σ /\ frame_ok fr
  /\ forall D p,
       peer σ self D = Some p -> queue σ p (_opposite_directions D) ≠ [] ->
       fr = WriteBlocked p (_opposite_directions D).

(** The invariant of the whole machine. *)
Definition one_in_flight (σ0 : Store) (runs : list (ref * generator))
    (σ : Store) : Prop :=
  single_writer σ /\ Forall no_any_dest σ
  /\ (forall p d, (length (queue σ p d) <= 1)%nat)
  /\ (forall w D p,
        peer σ w D = Some p ->
        queue σ p (_opposite_directions D) ≠ [] ->
        (w, SuspendedAt (WriteBlocked p (_opposite_directions D))) ∈ runs)
  /\ (forall w fr, (w, SuspendedAt fr) ∈ runs -> frame_ok fr)
  /\ (forall w D, peer σ w D = peer σ0 w D).

(** Two nodes side by side: the left one runs [MOV 1, RIGHT], the right
    one [NOP]. *)
Definition pair_heap : Store :=
  [ set_attached_nodes {[ RIGHT := 1%nat ]}
      (load_bytecode ([("MOV", Some "1", Some "RIGHT")]%string, ∅) new_Node);
    set_attached_nodes {[ LEFT := 0%nat ]}
      (load_bytecode ([("NOP", None, None)]%string, ∅) new_Node) ].

Definition pair_tis : TIS := mkTIS [0%nat; 1%nat] ∅ 0.

(** *** Notions for the wiring *)

(** Every link has its return link: the neighbour of a node in a direction
    has that node as its neighbour in the opposite direction. *)
Definition symmetric_wiring (σ : Store) : Prop :=
  forall w D p,
    peer σ w D = Some p -> peer σ p (_opposite_directions D) = Some w.

(** The neighbour of the cell [(x, y)] of the grid in a direction, by its
    coordinates: rows are numbered from the top, and nodes row by row. *)
Definition grid_neighbour (x y : nat) (D : direction) : option ref :=
  match D with
  | UP =>
      if bool_decide (0 < y)%nat
      then Some (MAX_NODES_X * (y - 1) + x)%nat else None
  | DOWN =>
      if bool_decide (y + 1 < MAX_NODES_Y)%nat
      then Some (MAX_NODES_X * (y + 1) + x)%nat else None
  | LEFT =>
      if bool_decide (0 < x)%nat
      then Some (MAX_NODES_X * y + x - 1)%nat else None
  | RIGHT =>
      if bool_decide (x + 1 < MAX_NODES_X)%nat
      then Some (MAX_NODES_X * y + x + 1)%nat else None
  end.

(** *** An echo machine

    What [run-tis.py] sets up for a program that has [MOV UP, DOWN] on
    node 0, run with [--input 0:...] and [--output 0:...]: the grid, the
    program loaded into node 0, the values buffered for the UP port of
    node 0, and a [LogNode], object 12 of the heap, attached below
    node 0. *)
Definition echo_heap : Store :=
  match
    attach_to_output standard_grid.1 0
      (alter (load_bytecode ([("MOV", Some "UP", Some "DOWN")]%string, ∅))
         0%nat standard_grid.2)
  with
  | Done _ σ => σ
  | _ => []
  end.

Definition echo_tis (values : list Z) : TIS :=
  buffer_input standard_grid.1 0%nat UP values.

(** The state of that machine each time node 0 is suspended in its read
    of UP: the values the log node has seen, the values still buffered,
    the counter of buffered values, and whether node 0 has moved a value
    yet. *)
Definition echo_node (moved : bool) : Node :=
  let n := default new_Node (echo_heap !! 0%nat) in
  set_mode [IDLE; RUN; READ]
    (set_next_iptr 1
       (if moved
        then set_last_port_dir (Some DOWN) (set_inputs {[ UP := [] ]} n)
        else n)).

Definition echo_state (seen rest : list Z) (num : Z) (moved : bool)
  : TIS_outcome :=
  TIS_yield
    (mkTIS (nodes standard_grid.1) {[ 0%nat := {[ UP := rest ]} ]} num)
    (mkRun [(0%nat, SuspendedAt (ReadBlocked UP (InMov (Some "DOWN"%string))))]
       0)
    (<[0%nat := echo_node moved]>
       (<[12%nat := set_seen_inputs seen new_LogNode]> echo_heap)).

(** [k] more turns of the scheduler from an outcome. *)
Definition TIS_run_more (k fuel : nat) (o : TIS_outcome) : TIS_outcome :=
  match o with
  | TIS_yield t r σ => TIS_run_nexts k fuel t r σ
  | _ => o
  end.

(** *** Notions for the fetches inside a step *)

(** The heaps from which [Node.run] enters the body of its [while True]
    loop during one [next()]: the heap the generator is started on, and
    then, each time the handler of an instruction has returned, the heap
    left by the [pop_mode] that ends the body.  The recursion is that of
    [run_until_yield]. *)
Fixpoint loop_heads_from (fuel : nat) (self : ref) (s : step unit)
  {struct fuel} : list Store :=
  match s with
  | Done _ σ =>
      match fuel with
      | O => []
      | S fuel' =>
          match pop_mode self σ with
          | Done _ σ1 => σ1 :: loop_heads_from fuel' self (dispatch self σ1)
          | _ => []
          end
      end
  | _ => []
  end.

Definition loop_heads (fuel : nat) (self : ref) (g : generator) (σ : Store)
  : list Store :=
  match g with
  | NotStarted => σ :: loop_heads_from fuel self (dispatch self σ)
  | SuspendedAt fr => loop_heads_from fuel self (resume self fr σ)
  end.

(** The loop body entered from [σ] gets through its fetch: [get_next_op]
    returns the instruction at [next_iptr], or at 0 when [next_iptr] is
    past the end, an index within the program, and the body goes on with
    that instruction from the heap where [iptr] and [next_iptr] are that
    index. *)
Definition fetches_in_bounds (self : ref) (σ : Store) : Prop :=
  exists n l op arg1 arg2,
    σ !! self = Some n
    /\ ops n = Some l
    /\ 0 <= fetch_index n l < Z.of_nat (length l)
    /\ l !! Z.to_nat (fetch_index n l) = Some (op, arg1, arg2)
    /\ dispatch self σ
       = (do! modify self (fun n => set_next_iptr (iptr n + 1) n) in
          match op_table op with
          | None => raise AssertionError
          | Some h => call h self arg1 arg2
          end)
           (<[self := set_iptr (fetch_index n l)
                        (set_next_iptr (fetch_index n l)
                           (set_mode (_mode n ++ [RUN]) n))]> σ).

(** A node that runs [NOP; JRO 5]: the jump leaves [next_iptr] at the
    length of the program, and the next fetch starts again at 0. *)
Definition wrap_node : Node :=
  load_bytecode
    ([("NOP", None, None); ("JRO", Some "5", None)]%string, ∅) new_Node.

(** The grid with [MOV UP, DOWN] on node 0 and [MOV UP, ACC] on node 4,
    the node below it, and two values buffered by the host for the UP
    port of node 0 (the command line [--input 0:7,8]). *)
Definition relay_heap : Store :=
  alter (load_bytecode ([("MOV", Some "UP", Some "DOWN")]%string, ∅)) 0%nat
    (alter (load_bytecode ([("MOV", Some "UP", Some "ACC")]%string, ∅))
       4%nat standard_grid.2).

Definition relay_tis : TIS := buffer_input standard_grid.1 0%nat UP [7; 8].

(** *** Notions for the mode stack *)

(** The frames that a suspended handler holds on the mode stack above the
    RUN frame of its instruction. *)
Definition frame_modes (fr : frame) : list mode :=
  match fr with
  | Tail | SrcYielded _ _ | WriteYieldedTrue => []
  | ReadBlocked _ _ | AnyYielded _ _ | AnyRetry _ => [READ]
  | WriteBlocked _ _ | AnyWriteRetry _ => [WRITE]
  end.

(** The mode stack of a node whose generator is in a given state: not
    empty before the first [next()], and afterwards some non-empty stack
    below the RUN frame of the current instruction and the frames of the
    handler. *)
Definition stack_ok (g : generator) (st : list mode) : Prop :=
  match g with
  | NotStarted => st ≠ []
  | SuspendedAt fr =>
      exists base, base ≠ [] /\ st = base ++ [RUN] ++ frame_modes fr
  end.

(** The mode stacks of all the nodes of the heap. *)
Definition modes (σ : Store) : list (list mode) := _mode <$> σ.

(** What a piece of generator code does to the mode stacks when it is run
    from a heap where the stack of [self] is [s]: it changes no other
    stack, it leaves that of [self] in a state that satisfies [Q] when it
    returns and [Y] when it is suspended, and it raises only exceptions
    that satisfy [ok]. *)
Definition stack_result (ok : exn -> Prop) (self : ref) {A} (σ : Store)
    (Q : A -> list mode -> Prop) (Y : frame -> list mode -> Prop)
    (res : step A) : Prop :=
  match res with
  | Done a σ' => exists s', modes σ' = <[self := s']> (modes σ) /\ Q a s'
  | Yielded fr σ' => exists s', modes σ' = <[self := s']> (modes σ) /\ Y fr s'
  | Raised e => ok e
  end.

Definition stack_spec (ok : exn -> Prop) (self : ref) {A} (m : gen A)
    (s : list mode) (Q : A -> list mode -> Prop)
    (Y : frame -> list mode -> Prop) : Prop :=
  forall σ, modes σ !! self = Some s -> stack_result ok self σ Q Y (m σ).

(** The mode that a node reports while its generator is suspended in a
    given frame. *)
Definition frame_mode (fr : frame) : mode :=
  default RUN (last (frame_modes fr)).

(** The mode stack of every node of the scheduler's list has the shape
    that goes with the state of its generator. *)
Definition stacks_ok (runs : list (ref * generator)) (σ : Store) : Prop :=
  forall i node g,
    runs !! i = Some (node, g) ->
    exists st, modes σ !! node = Some st /\ stack_ok g st.

(** An exception other than the [IndexError] of a [pop()] on an empty
    list or of an index out of range. *)
Definition not_IndexError (e : exn) : Prop := e ≠ IndexError.

(** * Properties *)

#[local] Arguments get : simpl never.
#[local] Arguments modify : simpl never.
#[local] Arguments push_mode : simpl never.
#[local] Arguments pop_mode : simpl never.
#[local] Arguments read_input : simpl never.
#[local] Arguments write_input : simpl never.
#[local] Arguments get_attached_node : simpl never.
#[local] Arguments has_inputs : simpl never.
#[local] Arguments _read_input_take : simpl never.
#[local] Arguments _read_input_wait : simpl never.
#[local] Arguments _read_input : simpl never.
#[local] Arguments _read_input_nonblocking : simpl never.
#[local] Arguments _write_output_wait : simpl never.
#[local] Arguments _write_output : simpl never.
#[local] Arguments _write_output_nonblocking : simpl never.
#[local] Arguments _read_src : simpl never.
#[local] Arguments _write_dest : simpl never.
#[local] Arguments _jmp : simpl never.
#[local] Arguments after_read_src : simpl never.
#[local] Arguments get_next_op : simpl never.
#[local] Arguments dispatch : simpl never.
#[local] Arguments py_int : simpl never.
#[local] Arguments DIRECTIONS : simpl never.

(** ** The heap under the primitive operations *)

Section heap_lemmas.
Context (σ : Store) (r : ref) (n : Node).
Hypothesis Hr : σ !! r = Some n.

Lemma get_at : get r σ = Done n σ.
Proof using Hr. unfold get. by rewrite Hr. Qed.

Lemma modify_at f : modify r f σ = Done tt (<[r := f n]> σ).
Proof using Hr.
  unfold modify. f_equal. apply list_eq. intros i.
  destruct (decide (r = i)) as [<-|Hne].
  - rewrite list_lookup_alter_eq, Hr. cbn.
    rewrite list_lookup_insert_eq; [done|]. by eapply lookup_lt_Some.
  - by rewrite list_lookup_alter_ne, list_lookup_insert_ne.
Qed.

Lemma lookup_upd n' : <[r := n']> σ !! r = Some n'.
Proof using Hr. apply list_lookup_insert_eq. by eapply lookup_lt_Some. Qed.

Lemma upd_id : <[r := n]> σ = σ.
Proof using Hr. by apply list_insert_id. Qed.
End heap_lemmas.

Lemma upd_upd (σ : Store) r a b : <[r := b]> (<[r := a]> σ) = <[r := b]> σ.
Proof. apply list_insert_insert_eq. Qed.

Lemma has_inputs_eq n n' d : inputs n = inputs n' -> has_inputs n d = has_inputs n' d.
Proof. unfold has_inputs. by intros ->. Qed.

Lemma has_inputs_set_mode m n d : has_inputs (set_mode m n) d = has_inputs n d.
Proof. reflexivity. Qed.

Lemma has_inputs_set_last_port_dir p n d :
  has_inputs (set_last_port_dir p n) d = has_inputs n d.
Proof. reflexivity. Qed.

Lemma has_inputs_set_acc v n d : has_inputs (set_acc v n) d = has_inputs n d.
Proof. reflexivity. Qed.

Lemma has_inputs_set_bak v n d : has_inputs (set_bak v n) d = has_inputs n d.
Proof. reflexivity. Qed.

Lemma has_inputs_set_iptr v n d : has_inputs (set_iptr v n) d = has_inputs n d.
Proof. reflexivity. Qed.

Lemma has_inputs_set_next_iptr v n d :
  has_inputs (set_next_iptr v n) d = has_inputs n d.
Proof. reflexivity. Qed.

Lemma has_inputs_set_seen_inputs v n d :
  has_inputs (set_seen_inputs v n) d = has_inputs n d.
Proof. reflexivity. Qed.

Create Rewrite HintDb node.
#[local] Hint Rewrite has_inputs_set_mode has_inputs_set_last_port_dir
  has_inputs_set_acc has_inputs_set_bak has_inputs_set_iptr
  has_inputs_set_next_iptr has_inputs_set_seen_inputs : node.

Lemma has_inputs_cons n d v rest :
  inputs n !! d = Some (v :: rest) -> has_inputs n d = true.
Proof. unfold has_inputs. by intros ->. Qed.

Lemma set_mode_id n : set_mode (_mode n) n = n.
Proof. by destruct n. Qed.

Lemma in_DIRECTIONS d : d ∈ DIRECTIONS.
Proof. unfold DIRECTIONS. destruct d; set_solver. Qed.

(** Symbolic execution of straight-line code on a heap whose node at the
    reference of interest is known. *)
Ltac at_self :=
  rewrite ?upd_upd; solve [ eassumption | eapply lookup_upd; eassumption ].

Ltac run :=
  unfold bind, ret, yield, raise, assert; cbn;
  rewrite ?upd_upd;
  repeat (first
    [ erewrite get_at by at_self
    | erewrite modify_at by at_self ];
    rewrite ?upd_upd; cbn).

Section node_lemmas.
Context (σ : Store) (r : ref) (n : Node).
Hypothesis Hr : σ !! r = Some n.

Lemma push_mode_at m :
  push_mode r m σ = Done tt (<[r := set_mode (_mode n ++ [m]) n]> σ).
Proof using Hr. unfold push_mode. by run. Qed.

Lemma pop_mode_at st m :
  _mode n = st ++ [m] -> pop_mode r σ = Done tt (<[r := set_mode st n]> σ).
Proof using Hr.
  intros Hm. unfold pop_mode. run.
  assert (removelast (_mode n) = st) as Hst
    by (by rewrite Hm, removelast_last).
  destruct (_mode n) eqn:E; [by destruct st|].
  run. by rewrite E, Hst.
Qed.

Lemma get_attached_node_at d :
  get_attached_node r (Some d) σ = Done (attached_nodes n !! d) σ.
Proof using Hr.
  unfold get_attached_node.
  rewrite bool_decide_true by apply in_DIRECTIONS. by run.
Qed.

Lemma read_input_at d v rest :
  inputs n !! d = Some (v :: rest) ->
  read_input r d σ
  = Done v (<[r := set_inputs (<[d := rest]> (inputs n)) n]> σ).
Proof using Hr. intros Hi. unfold read_input. run. rewrite Hi. cbn. by run. Qed.

End node_lemmas.

Lemma _read_input_take_at (σ : Store) r n d v rest st m :
  σ !! r = Some n ->
  inputs n !! d = Some (v :: rest) -> _mode n = st ++ [m] ->
  _read_input_take r d σ
  = Done v (<[r := set_mode st
                     (set_last_port_dir (Some d)
                        (set_inputs (<[d := rest]> (inputs n)) n))]> σ).
Proof.
  intros Hr Hi Hm. unfold _read_input_take. run.
  erewrite read_input_at by done. run.
  erewrite pop_mode_at; [|at_self|cbn; apply Hm]. by run.
Qed.

Lemma _read_input_nonblocking_empty (σ : Store) r n d :
  σ !! r = Some n -> has_inputs n d = false ->
  _read_input_nonblocking r d σ = Done None σ.
Proof.
  intros Hr Hi. unfold _read_input_nonblocking. run.
  erewrite push_mode_at by done. run.
  erewrite get_attached_node_at by at_self. run.
  autorewrite with node. rewrite Hi.
  erewrite pop_mode_at; [|at_self|reflexivity]. run.
  change (set_mode (_mode n) _) with (set_mode (_mode n) n).
  by rewrite set_mode_id, upd_id.
Qed.

Lemma _read_input_nonblocking_value (σ : Store) r n d v rest :
  σ !! r = Some n -> inputs n !! d = Some (v :: rest) ->
  _read_input_nonblocking r d σ
  = Done (Some v)
         (<[r := set_last_port_dir (Some d)
                   (set_inputs (<[d := rest]> (inputs n)) n)]> σ).
Proof.
  intros Hr Hi. unfold _read_input_nonblocking. run.
  erewrite push_mode_at by done. run.
  erewrite get_attached_node_at by at_self. run.
  autorewrite with node. erewrite has_inputs_cons by done.
  erewrite _read_input_take_at; [|at_self|cbn; apply Hi|reflexivity]. run.
  by destruct n.
Qed.

(** ** Reading from ANY *)

Lemma _read_src_any_first (σ : Store) self n k before d after v rest :
  σ !! self = Some n ->
  (forall d', d' ∈ before -> has_inputs n d' = false) ->
  inputs n !! d = Some (v :: rest) ->
  _read_src_any self (before ++ d :: after) k σ
  = Yielded (AnyYielded k v)
      (<[self := set_last_port_dir (Some d)
                   (set_inputs (<[d := rest]> (inputs n)) n)]> σ).
Proof.
  intros Hself Hbefore Hd. induction before as [|d0 before IH]; cbn.
  - unfold bind. by erewrite _read_input_nonblocking_value.
  - unfold bind. erewrite _read_input_nonblocking_empty; [|done|].
    + apply IH. intros d' Hd'. apply Hbefore. by right.
    + apply Hbefore. by left.
Qed.

Lemma _read_src_ANY (σ : Store) self n k before d after v rest :
  σ !! self = Some n ->
  DIRECTIONS = before ++ d :: after ->
  (forall d', d' ∈ before -> has_inputs n d' = false) ->
  inputs n !! d = Some (v :: rest) ->
  _read_src self (Some "ANY"%string) k σ
  = Yielded (AnyYielded k v)
      (<[self := set_mode (_mode n ++ [READ])
                   (set_last_port_dir (Some d)
                      (set_inputs (<[d := rest]> (inputs n)) n))]> σ).
Proof.
  intros Hself Hdirs Hbefore Hd. unfold _read_src. run.
  erewrite push_mode_at by done. run. rewrite Hdirs.
  erewrite _read_src_any_first; [|at_self|..].
  - rewrite upd_upd. by destruct n.
  - intros d' Hd'. autorewrite with node. by apply Hbefore.
  - exact Hd.
Qed.

Lemma _read_src_any_none (σ : Store) self n k ds :
  σ !! self = Some n ->
  (forall d, has_inputs n d = false) ->
  _read_src_any self ds k σ = Yielded (AnyRetry k) σ.
Proof.
  intros Hself Hnone. induction ds as [|d ds IH]; cbn; [done|].
  unfold bind. by erewrite _read_input_nonblocking_empty.
Qed.

(** C6: a read from ANY tries the directions in the order of
    [DIRECTIONS], that is UP, DOWN, LEFT, RIGHT, and takes the value of the
    first one whose queue is not empty: the generator is suspended with that
    value, the value has left the queue and [_last_port_dir] is that
    direction; on resumption the READ frame pushed for ANY is popped and
    the value goes to the instruction.  In particular, with values on both
    UP and LEFT the UP value is read and [_last_port_dir] becomes UP.  This
    holds for the first round of the [while True] loop and for every later
    one: a round that finds all four queues empty suspends the generator
    in the loop, in READ mode and with the heap otherwise as it was, and
    the round run on resumption polls the directions in the same order
    and takes the first value available then. *)
Theorem any_read_takes_first_available :
  DIRECTIONS = [UP; DOWN; LEFT; RIGHT] /\
  (forall (σ : Store) self n k before d after v rest,
      σ !! self = Some n ->
      DIRECTIONS = before ++ d :: after ->
      (forall d', d' ∈ before -> has_inputs n d' = false) ->
      inputs n !! d = Some (v :: rest) ->
      let n' := set_last_port_dir (Some d)
                  (set_inputs (<[d := rest]> (inputs n)) n) in
      _read_src self (Some "ANY"%string) k σ
      = Yielded (AnyYielded k v)
          (<[self := set_mode (_mode n ++ [READ]) n']> σ)
      /\ resume self (AnyYielded k v)
            (<[self := set_mode (_mode n ++ [READ]) n']> σ)
         = after_read_src self k v (<[self := n']> σ)) /\
  (forall (σ : Store) self n k vu ru vl rl,
      σ !! self = Some n ->
      inputs n !! UP = Some (vu :: ru) ->
      inputs n !! LEFT = Some (vl :: rl) ->
      exists σ' n',
        _read_src self (Some "ANY"%string) k σ = Yielded (AnyYielded k vu) σ'
        /\ σ' !! self = Some n'
        /\ _last_port_dir n' = Some UP
        /\ inputs n' !! UP = Some ru
        /\ inputs n' !! LEFT = Some (vl :: rl)) /\
  (forall (σ : Store) self n k,
      σ !! self = Some n ->
      (forall d, has_inputs n d = false) ->
      _read_src self (Some "ANY"%string) k σ
      = Yielded (AnyRetry k) (<[self := set_mode (_mode n ++ [READ]) n]> σ)
      /\ resume self (AnyRetry k) σ = Yielded (AnyRetry k) σ) /\
  (forall (σ : Store) self n k before d after v rest,
      σ !! self = Some n ->
      DIRECTIONS = before ++ d :: after ->
      (forall d', d' ∈ before -> has_inputs n d' = false) ->
      inputs n !! d = Some (v :: rest) ->
      let n' := set_last_port_dir (Some d)
                  (set_inputs (<[d := rest]> (inputs n)) n) in
      resume self (AnyRetry k) σ = Yielded (AnyYielded k v) (<[self := n']> σ)
      /\ forall st m,
           _mode n = st ++ [m] ->
           resume self (AnyYielded k v) (<[self := n']> σ)
           = after_read_src self k v (<[self := set_mode st n']> σ)) /\
  (forall (σ : Store) self n k vu ru vl rl,
      σ !! self = Some n ->
      inputs n !! UP = Some (vu :: ru) ->
      inputs n !! LEFT = Some (vl :: rl) ->
      exists σ' n',
        resume self (AnyRetry k) σ = Yielded (AnyYielded k vu) σ'
        /\ σ' !! self = Some n'
        /\ _last_port_dir n' = Some UP
        /\ inputs n' !! UP = Some ru
        /\ inputs n' !! LEFT = Some (vl :: rl)).
Proof.
  split; [reflexivity|]. split; [|split; [|split; [|split]]].
  - intros σ self n k before d after v rest Hself Hdirs Hbefore Hd n'.
    split; [by eapply _read_src_ANY|].
    cbn. unfold bind.
    erewrite pop_mode_at; [|at_self|reflexivity].
    by rewrite upd_upd.
  - intros σ self n k vu ru vl rl Hself Hup Hleft.
    eexists _, _. split; [|split; [|split; [|split]]].
    + eapply (_read_src_ANY _ _ _ _ [] UP); eauto. intros d' Hd'. inversion Hd'.
    + by eapply lookup_upd.
    + reflexivity.
    + cbn. by rewrite lookup_insert_eq.
    + cbn. by rewrite lookup_insert_ne.
  - intros σ self n k Hself Hnone. split.
    + unfold _read_src. run. erewrite push_mode_at by done. run.
      erewrite _read_src_any_none; [done|at_self|].
      intros d. autorewrite with node. apply Hnone.
    + cbn. by erewrite _read_src_any_none.
  - intros σ self n k before d after v rest Hself Hdirs Hbefore Hd n'.
    split.
    + cbn. rewrite Hdirs. by erewrite _read_src_any_first.
    + intros st m Hm. cbn. unfold bind.
      erewrite pop_mode_at; [|at_self|cbn; apply Hm].
      by rewrite upd_upd.
  - intros σ self n k vu ru vl rl Hself Hup Hleft.
    eexists _, _. split; [|split; [|split; [|split]]].
    + cbn. eapply (_read_src_any_first _ _ _ _ [] UP); eauto.
      intros d' Hd'. inversion Hd'.
    + by eapply lookup_upd.
    + reflexivity.
    + cbn. by rewrite lookup_insert_eq.
    + cbn. by rewrite lookup_insert_ne.
Qed.

Lemma any_read_takes_first_available_witness :
  (exists σ' n',
      _read_src 0%nat (Some "ANY"%string) InAdd
        [set_inputs (<[UP := [1]]> (<[LEFT := [2]]> ∅)) new_Node]
      = Yielded (AnyYielded InAdd 1) σ'
      /\ σ' !! 0%nat = Some n'
      /\ _last_port_dir n' = Some UP
      /\ inputs n' !! UP = Some []
      /\ inputs n' !! LEFT = Some [2])
  /\ (exists σ' n',
        resume 0%nat (AnyRetry InAdd)
          [set_mode [IDLE; RUN; READ]
             (set_inputs (<[UP := [1]]> (<[LEFT := [2]]> ∅)) new_Node)]
        = Yielded (AnyYielded InAdd 1) σ'
        /\ σ' !! 0%nat = Some n'
        /\ _last_port_dir n' = Some UP
        /\ inputs n' !! UP = Some []
        /\ inputs n' !! LEFT = Some [2]).
Proof.
  split.
  - apply (proj1 (proj2 (proj2 any_read_takes_first_available))
             [set_inputs (<[UP := [1]]> (<[LEFT := [2]]> ∅)) new_Node]
             0%nat (set_inputs (<[UP := [1]]> (<[LEFT := [2]]> ∅)) new_Node)
             InAdd 1 [] 2 []); reflexivity.
  - apply (proj2 (proj2 (proj2 (proj2 (proj2 any_read_takes_first_available))))
             [set_mode [IDLE; RUN; READ]
                (set_inputs (<[UP := [1]]> (<[LEFT := [2]]> ∅)) new_Node)]
             0%nat
             (set_mode [IDLE; RUN; READ]
                (set_inputs (<[UP := [1]]> (<[LEFT := [2]]> ∅)) new_Node))
             InAdd 1 [] 2 []); reflexivity.
Defined.

(** ** Reading from NIL *)

(** C5: the NIL branch of [_read_src] evaluates the name [NIL], which is
    bound nowhere in the module: in every state the read raises
    [NameError] instead of yielding 0, and the run of the node ends
    there. *)
Theorem read_src_NIL_raises :
  forall (σ : Store) self k,
    _read_src self (Some "NIL"%string) k σ = Raised NameError
    /\ forall fuel a2,
         call H_add self (Some "NIL"%string) a2 σ = Raised NameError
         /\ exec fuel "MOV" (Some "NIL"%string) a2 self σ = Raised NameError
         /\ exec fuel "ADD" (Some "NIL"%string) a2 self σ = Raised NameError.
Proof.
  intros σ self k.
  assert (forall k', _read_src self (Some "NIL"%string) k' σ = Raised NameError)
    as H by reflexivity.
  split; [apply H|]. intros fuel a2.
  unfold exec, call, _add, _mov. cbn. rewrite !H. by destruct fuel.
Qed.

(** ** Registers *)

Lemma exec_SAV (σ : Store) self n :
  σ !! self = Some n ->
  exec 1 "SAV" None None self σ = Done tt (<[self := set_bak (acc n) n]> σ).
Proof. intros Hself. unfold exec. cbn. unfold _sav. by run. Qed.

Lemma exec_SWP (σ : Store) self n :
  σ !! self = Some n ->
  exec 1 "SWP" None None self σ
  = Done tt (<[self := set_acc (bak n) (set_bak (acc n) n)]> σ).
Proof. intros Hself. unfold exec. cbn. unfold _swp. by run. Qed.

(** C9, as the code has it: SAV, SWP, SWP leaves ACC with the value ACC had
    at the start (not the one BAK had), and BAK with that same value. *)
Theorem sav_swp_swp_keeps_acc :
  forall (σ : Store) self n,
    σ !! self = Some n ->
    exists n',
      node_after (sav_swp_swp self σ) self = Some n'
      /\ acc n' = acc n /\ bak n' = acc n.
Proof.
  intros σ self n Hself. unfold sav_swp_swp, bind.
  erewrite exec_SAV by done.
  erewrite exec_SWP by at_self. rewrite upd_upd.
  erewrite exec_SWP by at_self. rewrite upd_upd.
  eexists. split; [|split]; [cbn; by eapply lookup_upd|done..].
Qed.

Lemma sav_swp_swp_keeps_acc_witness :
  exists n',
    node_after (sav_swp_swp 0%nat [set_bak 2 (set_acc 1 new_Node)]) 0%nat
    = Some n'
    /\ acc n' = 1 /\ bak n' = 1.
Proof.
  apply (sav_swp_swp_keeps_acc [set_bak 2 (set_acc 1 new_Node)] 0%nat
           (set_bak 2 (set_acc 1 new_Node))).
  reflexivity.
Defined.

(** C9 as the specification states it fails: from ACC = 1 and BAK = 2 the
    three instructions end with ACC = 1, which is not the original BAK. *)
Lemma sav_swp_swp_not_original_bak :
  bak (set_bak 2 (set_acc 1 new_Node)) = 2
  /\ acc <$> node_after (sav_swp_swp 0%nat [set_bak 2 (set_acc 1 new_Node)])
               0%nat
     = Some 1
  /\ 1 ≠ 2.
Proof.
  split; [reflexivity|]. split; [vm_compute; reflexivity|lia].
Qed.

(** A token that [int] accepts is none of the register and port names. *)
Lemma py_int_not_name s v name :
  py_int s = Some v ->
  name ∈ ["BAK"; "ACC"; "NIL"; "UP"; "DOWN"; "LEFT"; "RIGHT"; "ANY"; "LAST"]%string ->
  tok_is (Some s) name = false.
Proof.
  intros Hs Hname. cbn. destruct (String.eqb_spec s name) as [->|]; [|done].
  exfalso. repeat (apply elem_of_cons in Hname as [->|Hname]; [by vm_compute in Hs|]).
  inversion Hname.
Qed.

Lemma _read_src_literal (σ : Store) self s v k :
  py_int s = Some v ->
  _read_src self (Some s) k σ = Yielded (SrcYielded k v) σ.
Proof.
  intros Hs. unfold _read_src.
  rewrite !(py_int_not_name s v) by (done || set_solver).
  cbn. by rewrite Hs.
Qed.

(** C2, as the code has it: ADD and SUB store the exact sum and difference
    and MOV to ACC stores the value read, whatever their size; nothing is
    clamped to [-999, 999].  The first three statements hold for any value
    the source produced; the last two follow an instruction with a literal
    source from dispatch to its end. *)
Theorem arithmetic_is_unclamped :
  forall (σ : Store) self n v,
    σ !! self = Some n ->
    resume self (SrcYielded InAdd v) σ
    = Done tt (<[self := set_acc (acc n + v) n]> σ)
    /\ resume self (SrcYielded InSub v) σ
       = Done tt (<[self := set_acc (acc n - v) n]> σ)
    /\ resume self (SrcYielded (InMov (Some "ACC"%string)) v) σ
       = Done tt (<[self := set_acc v n]> σ)
    /\ (forall s a2, py_int s = Some v ->
          exec 1 "ADD" (Some s) a2 self σ
          = Done tt (<[self := set_acc (acc n + v) n]> σ)
          /\ exec 1 "SUB" (Some s) a2 self σ
             = Done tt (<[self := set_acc (acc n - v) n]> σ)).
Proof.
  intros σ self n v Hself.
  assert (resume self (SrcYielded InAdd v) σ
          = Done tt (<[self := set_acc (acc n + v) n]> σ)) as Hadd.
  { cbn. unfold after_read_src. by run. }
  assert (resume self (SrcYielded InSub v) σ
          = Done tt (<[self := set_acc (acc n - v) n]> σ)) as Hsub.
  { cbn. unfold after_read_src. by run. }
  repeat split; try done.
  - cbn. unfold after_read_src, _write_dest. by run.
  - unfold exec. cbn. unfold _add. erewrite _read_src_literal by done.
    by rewrite Hadd.
  - unfold exec. cbn. unfold _sub. erewrite _read_src_literal by done.
    by rewrite Hsub.
Qed.

Lemma arithmetic_is_unclamped_witness :
  resume 0%nat (SrcYielded InAdd 1) [set_acc 999 new_Node]
  = Done tt (<[0%nat := set_acc (999 + 1) (set_acc 999 new_Node)]>
               [set_acc 999 new_Node]).
Proof.
  apply (arithmetic_is_unclamped [set_acc 999 new_Node] 0%nat
           (set_acc 999 new_Node) 1).
  reflexivity.
Defined.

(** C2 as the specification states it fails: a fresh node that executes
    ADD 999 twice ends with ACC = 1998, outside [-999, 999]. *)
Lemma add_leaves_the_range :
  acc <$> node_after
            ((do! exec 1 "ADD" (Some "999"%string) None 0%nat in
              exec 1 "ADD" (Some "999"%string) None 0%nat) [new_Node])
            0%nat
  = Some 1998
  /\ ~ (-999 <= 1998 <= 999).
Proof. split; [vm_compute; reflexivity|lia]. Qed.

(** ** Fetch and relative jumps *)

Lemma get_next_op_at (σ : Store) self n l op :
  σ !! self = Some n ->
  ops n = Some l ->
  py_index l (fetch_index n l) = Some op ->
  get_next_op self σ
  = Done op (<[self := set_iptr (fetch_index n l)
                         (set_next_iptr (fetch_index n l) n)]> σ).
Proof.
  intros Hself Hops Hop. unfold get_next_op. run. rewrite Hops. run.
  fold (fetch_index n l). rewrite Hop. by run.
Qed.

Lemma dispatch_JRO_literal (σ : Store) self n l s a2 v :
  σ !! self = Some n ->
  ops n = Some l ->
  py_index l (fetch_index n l) = Some ("JRO"%string, Some s, a2) ->
  py_int s = Some v ->
  dispatch self σ
  = Yielded (SrcYielded InJro v)
      (<[self := set_next_iptr (fetch_index n l + 1)
                   (set_iptr (fetch_index n l)
                      (set_mode (_mode n ++ [RUN]) n))]> σ).
Proof.
  intros Hself Hops Hop Hs. unfold dispatch. run.
  erewrite push_mode_at by done. run.
  erewrite get_next_op_at; [|at_self|cbn; apply Hops|apply Hop]. run.
  unfold _jro. erewrite _read_src_literal by done. by destruct n.
Qed.

(** C3: JRO adds the offset to [next_iptr], which [Node.run] has already
    set to [iptr + 1] when the handler runs, and clamps the sum into
    [0, len(ops)]: the jump is relative to the instruction after JRO, one
    more than an offset counted from [iptr] as the specification has it.
    The theorem follows a JRO with a literal offset from its dispatch at
    index [i] to its end. *)
Theorem jro_counts_from_the_next_instruction :
  forall (σ : Store) self n l s a2 v,
    σ !! self = Some n ->
    ops n = Some l ->
    py_index l (fetch_index n l) = Some ("JRO"%string, Some s, a2) ->
    py_int s = Some v ->
    exists σ1 σ2 n2,
      dispatch self σ = Yielded (SrcYielded InJro v) σ1
      /\ resume self (SrcYielded InJro v) σ1 = Done tt σ2
      /\ σ2 !! self = Some n2
      /\ iptr n2 = fetch_index n l
      /\ next_iptr n2
         = Z.max 0 (Z.min (iptr n2 + 1 + v) (Z.of_nat (length l))).
Proof.
  intros σ self n l s a2 v Hself Hops Hop Hs.
  eexists _, _, _. split; [by eapply dispatch_JRO_literal|].
  split; [|split; [|split]].
  - cbn. unfold after_read_src. run. rewrite Hops. run. reflexivity.
  - by eapply lookup_upd.
  - reflexivity.
  - reflexivity.
Qed.

(** The failing input of C3: [JRO 0] at index 0 of a two-instruction
    program continues at index 1, where [iptr + 0] clamped would be 0. *)
Lemma jro_counts_from_the_next_instruction_witness :
  exists σ1 σ2 n2,
    dispatch 0%nat
      [load_bytecode ([("JRO", Some "0", None); ("NOP", None, None)]%string, ∅)
         new_Node]
    = Yielded (SrcYielded InJro 0) σ1
    /\ resume 0%nat (SrcYielded InJro 0) σ1 = Done tt σ2
    /\ σ2 !! 0%nat = Some n2
    /\ iptr n2 = 0
    /\ next_iptr n2 = Z.max 0 (Z.min (iptr n2 + 1 + 0) (Z.of_nat 2)).
Proof.
  apply (jro_counts_from_the_next_instruction
           [load_bytecode
              ([("JRO", Some "0", None); ("NOP", None, None)]%string, ∅)
              new_Node]
           0%nat
           (load_bytecode
              ([("JRO", Some "0", None); ("NOP", None, None)]%string, ∅)
              new_Node)
           [("JRO", Some "0", None); ("NOP", None, None)]%string
           "0"%string None 0);
    reflexivity.
Defined.

(** ** Conditional jumps that are not taken *)

Lemma untaken_call (σ : Store) self n op label a2 :
  σ !! self = Some n ->
  untaken op (acc n) = true ->
  exists h, op_table op = Some h /\ call h self label a2 σ = Done tt σ.
Proof.
  intros Hself Hu. unfold untaken in Hu.
  repeat (apply orb_prop in Hu as [Hu|Hu]);
    apply andb_prop in Hu as [Hop Hacc];
    apply String.eqb_eq in Hop as ->;
    (eexists; split; [reflexivity|]); cbn.
  - unfold _jez. run. by destruct (acc n =? 0).
  - unfold _jnz. run. by rewrite Hacc.
  - unfold _jgz. run. by destruct (0 <? acc n).
  - unfold _jlz. run. by destruct (acc n <? 0).
Qed.

(** C8: a conditional jump whose condition is false returns without a
    single [yield]: its dispatch only pushes RUN and advances [iptr] and
    [next_iptr], and [Node.run] pops RUN and dispatches the following
    instruction inside the same [next()]. *)
Theorem untaken_jump_does_not_yield :
  forall (σ : Store) self n l op label a2,
    σ !! self = Some n ->
    ops n = Some l ->
    py_index l (fetch_index n l) = Some (op, label, a2) ->
    untaken op (acc n) = true ->
    let n1 := set_next_iptr (fetch_index n l + 1)
                (set_iptr (fetch_index n l) n) in
    dispatch self σ = Done tt (<[self := set_mode (_mode n ++ [RUN]) n1]> σ)
    /\ yields_alone 1 self (dispatch self σ) = 0%nat
    /\ forall fuel,
         Node_run_next (S fuel) self NotStarted σ
         = run_until_yield fuel self (dispatch self (<[self := n1]> σ)).
Proof.
  intros σ self n l op label a2 Hself Hops Hop Hu n1.
  assert (dispatch self σ
          = Done tt (<[self := set_mode (_mode n ++ [RUN]) n1]> σ)) as Hd.
  { unfold dispatch. run.
    erewrite push_mode_at by done. run.
    erewrite get_next_op_at; [|at_self|cbn; apply Hops|apply Hop]. run.
    match goal with
    | |- _ (<[self := ?x]> σ) = _ =>
        change x with (set_mode (_mode n ++ [RUN]) n1)
    end.
    destruct (untaken_call
                (<[self := set_mode (_mode n ++ [RUN]) n1]> σ) self
                (set_mode (_mode n ++ [RUN]) n1) op label a2)
      as (h & -> & ->); [by eapply lookup_upd|done|].
    done. }
  split; [done|]. split; [by rewrite Hd|].
  intros fuel. unfold Node_run_next. rewrite Hd. cbn. unfold bind.
  erewrite pop_mode_at; [|at_self|reflexivity].
  by rewrite upd_upd.
Qed.

Lemma untaken_jump_does_not_yield_witness :
  dispatch 0%nat
    [set_acc 1
       (load_bytecode ([("JEZ", Some "L", None); ("NOP", None, None)]%string,
                       {[ "L"%string := 0 ]}) new_Node)]
  = Done tt
      [set_mode [IDLE; RUN]
         (set_next_iptr 1
            (set_acc 1
               (load_bytecode
                  ([("JEZ", Some "L", None); ("NOP", None, None)]%string,
                   {[ "L"%string := 0 ]}) new_Node)))].
Proof.
  apply (untaken_jump_does_not_yield
           [set_acc 1
              (load_bytecode
                 ([("JEZ", Some "L", None); ("NOP", None, None)]%string,
                  {[ "L"%string := 0 ]}) new_Node)]
           0%nat
           (set_acc 1
              (load_bytecode
                 ([("JEZ", Some "L", None); ("NOP", None, None)]%string,
                  {[ "L"%string := 0 ]}) new_Node))
           [("JEZ", Some "L", None); ("NOP", None, None)]%string
           "JEZ"%string (Some "L"%string) None);
    reflexivity.
Defined.

(** With that program the first [next()] goes through the JEZ and is
    suspended in the NOP, at index 1. *)
Lemma untaken_jump_runs_into_next_instruction :
  exists σ' n',
    Node_run_next 1 0%nat NotStarted
      [set_acc 1
         (load_bytecode ([("JEZ", Some "L", None); ("NOP", None, None)]%string,
                         {[ "L"%string := 0 ]}) new_Node)]
    = Suspended Tail σ'
    /\ σ' !! 0%nat = Some n' /\ iptr n' = 1.
Proof.
  eexists _, _. split; [vm_compute; reflexivity|].
  split; vm_compute; reflexivity.
Qed.

(** A program made of one jump that is never taken: [next()] never
    reaches a [yield], whatever the fuel. *)
Lemma lone_untaken_jump_never_yields :
  forall fuel,
    Node_run_next fuel 0%nat NotStarted
      [load_bytecode ([("JNZ"%string, Some "L"%string, None)],
                      {[ "L"%string := 0 ]}) new_Node]
    = OutOfFuel.
Proof.
  assert (forall fuel (n0 : Node),
             ops n0 = Some [("JNZ"%string, Some "L"%string, None)] ->
             acc n0 = 0 -> 0 <= next_iptr n0 ->
             Node_run_next fuel 0%nat NotStarted [n0] = OutOfFuel) as H.
  { intros fuel. induction fuel as [|fuel IH]; intros n0 Hops Hacc Hnext.
    all: assert (fetch_index n0 [("JNZ"%string, Some "L"%string, None)] = 0)
      as Hfetch
      by (unfold fetch_index; cbn [length];
          destruct (Z.leb_spec (Z.of_nat 1) (next_iptr n0)); lia).
    all: destruct (untaken_jump_does_not_yield [n0] 0%nat n0
                     [("JNZ"%string, Some "L"%string, None)]
                     "JNZ" (Some "L"%string) None)
           as (Hd & _ & Hn);
      [reflexivity|done|by rewrite Hfetch|by rewrite Hacc|].
    - unfold Node_run_next. by rewrite Hd.
    - rewrite Hn. apply IH; cbn; [done|done|lia]. }
  intros fuel. by apply H.
Qed.

(** ** Writing towards a missing neighbour *)

Lemma _write_output_no_neighbour (σ : Store) self n d v :
  σ !! self = Some n ->
  attached_nodes n !! d = None ->
  _write_output self (Some d) v σ
  = Done tt (<[self := set_mode (_mode n ++ [WRITE]) n]> σ).
Proof.
  intros Hself Hd. unfold _write_output. run.
  erewrite push_mode_at by done. run.
  erewrite get_attached_node_at by at_self. cbn. by rewrite Hd.
Qed.

(** C4: a blocking write through a direction without neighbour does not
    suspend.  [_write_output] pushes WRITE and returns at once, so the MOV
    is over: [Node.run] pops that WRITE frame in place of the RUN frame of
    the instruction and dispatches the next instruction in the same
    [next()], from the heap as it was before the write.  The node is never
    observed in WRITE mode, and each such write leaves one more RUN frame
    on the stack. *)
Theorem write_without_neighbour_returns :
  forall (σ : Store) self n d v,
    σ !! self = Some n ->
    attached_nodes n !! d = None ->
    resume self (SrcYielded (InMov (Some (_direction_labels d))) v) σ
    = Done tt (<[self := set_mode (_mode n ++ [WRITE]) n]> σ)
    /\ forall fuel,
         Node_run_next (S fuel) self
           (SuspendedAt (SrcYielded (InMov (Some (_direction_labels d))) v)) σ
         = Node_run_next fuel self NotStarted σ.
Proof.
  intros σ self n d v Hself Hd.
  assert (resume self (SrcYielded (InMov (Some (_direction_labels d))) v) σ
          = Done tt (<[self := set_mode (_mode n ++ [WRITE]) n]> σ)) as Hr.
  { cbn. unfold after_read_src, _write_dest.
    destruct d; cbn; unfold bind; cbn;
      by erewrite _write_output_no_neighbour. }
  split; [done|]. intros fuel. unfold Node_run_next. rewrite Hr. cbn.
  unfold bind. erewrite pop_mode_at; [|at_self|reflexivity].
  rewrite upd_upd. change (set_mode (_mode n) _) with (set_mode (_mode n) n).
  by rewrite set_mode_id, upd_id.
Qed.

Lemma write_without_neighbour_returns_witness :
  resume 0%nat (SrcYielded (InMov (Some (_direction_labels UP))) 1)
    [set_mode [IDLE; RUN] mov_1_up]
  = Done tt (<[0%nat := set_mode ([IDLE; RUN] ++ [WRITE])
                          (set_mode [IDLE; RUN] mov_1_up)]>
               [set_mode [IDLE; RUN] mov_1_up]).
Proof.
  apply (write_without_neighbour_returns
           [set_mode [IDLE; RUN] mov_1_up] 0%nat
           (set_mode [IDLE; RUN] mov_1_up) UP 1); reflexivity.
Defined.

(** From the start, the second [next()] finishes the MOV and is suspended
    in the next MOV, in RUN mode with a stack one frame taller, and so on
    for every further call: the node never stays in WRITE. *)
Lemma write_without_neighbour_goes_on :
  observe_modes 0%nat (Node_run_nexts 1 1 0%nat NotStarted [mov_1_up])
  = Some (SuspendedAt (SrcYielded (InMov (Some "UP"%string)) 1), [IDLE; RUN])
  /\ observe_modes 0%nat (Node_run_nexts 2 1 0%nat NotStarted [mov_1_up])
     = Some (SuspendedAt (SrcYielded (InMov (Some "UP"%string)) 1),
             [IDLE; RUN; RUN])
  /\ observe_modes 0%nat (Node_run_nexts 3 1 0%nat NotStarted [mov_1_up])
     = Some (SuspendedAt (SrcYielded (InMov (Some "UP"%string)) 1),
             [IDLE; RUN; RUN; RUN]).
Proof. repeat split; vm_compute; reflexivity. Qed.

(** ** Host injection *)

Lemma elem_of_iteritems (m : gmap direction (list Z)) d values :
  (d, values) ∈ iteritems m -> m !! d = Some values.
Proof.
  unfold iteritems. intros H. apply list_elem_of_omap in H as (d' & _ & H).
  destruct (m !! d') as [vs|] eqn:E; cbn in H; [|done].
  by injection H as -> ->.
Qed.

Lemma inject_scan_Some n items d v rest :
  inject_scan n items = Some (d, v, rest) ->
  (d, v :: rest) ∈ items /\ has_inputs n d = false.
Proof.
  induction items as [|[d0 values] items IH]; cbn; [done|].
  destruct values as [|v0 rest0].
  - intros H. destruct (IH H). split; [by right|done].
  - destruct (has_inputs n d0) eqn:E; cbn.
    + intros H. destruct (IH H). split; [by right|done].
    + intros [= -> -> ->]. split; [by left|done].
Qed.

Lemma has_inputs_false_queue n d :
  has_inputs n d = false -> default [] (inputs n !! d) = [].
Proof.
  unfold has_inputs. destruct (default [] (inputs n !! d)); [done|].
  cbn. by intros [=].
Qed.

Lemma write_input_queue (σ σ' : Store) node n d v :
  σ !! node = Some n -> is_log n = false ->
  write_input node d v σ = Done tt σ' ->
  queue σ' node d = default [] (inputs n !! d) ++ [v]
  /\ (forall d', d' ≠ d -> queue σ' node d' = queue σ node d')
  /\ (forall node' d', node' ≠ node -> queue σ' node' d' = queue σ node' d').
Proof.
  intros Hn Hlog. unfold write_input. run. rewrite Hlog. run.
  intros [= <-]. unfold queue. repeat split.
  - erewrite lookup_upd by done. cbn. by rewrite lookup_insert_eq.
  - intros d' Hd. erewrite lookup_upd by done. rewrite Hn. cbn.
    by rewrite lookup_insert_ne.
  - intros node' d' Hne. by rewrite list_lookup_insert_ne.
Qed.

Lemma inject_spec t node (σ : Store) t' σ' :
  inject t node σ = Done t' σ' ->
  (t' = t /\ σ' = σ)
  \/ exists n d v,
       σ !! node = Some n /\ mode_of n = Some READ
       /\ has_inputs n d = false
       /\ buffered t node d = v :: buffered t' node d
       /\ (forall d', d' ≠ d -> buffered t' node d' = buffered t node d')
       /\ (forall node' d',
             node' ≠ node -> buffered t' node' d' = buffered t node' d')
       /\ num_buffered_inputs t' = num_buffered_inputs t - 1
       /\ nodes t' = nodes t
       /\ write_input node d v σ = Done tt σ'
       /\ (is_log n = false -> queue σ' node d = [v]).
Proof.
  unfold inject. destruct (buffered_input t !! node) as [per_dir|] eqn:Hb.
  2: { intros [= <- <-]. by left. }
  unfold bind, get. destruct (σ !! node) as [n|] eqn:Hn; [|done].
  destruct (mode_of n) as [m|] eqn:Hm; [|done].
  case_bool_decide as HR; [subst m|intros [= <- <-]; by left].
  destruct (inject_scan n (iteritems per_dir)) as [[[d v] rest]|] eqn:Hs.
  2: { intros [= <- <-]. by left. }
  apply inject_scan_Some in Hs as [Hin Hempty].
  apply elem_of_iteritems in Hin.
  destruct (write_input node d v σ) as [[] σ1| |] eqn:Hw; [|done..].
  intros [= <- <-]. right. exists n, d, v.
  split; [done|]. split; [done|]. split; [done|].
  unfold buffered; cbn. rewrite Hb. cbn. rewrite Hin. cbn.
  rewrite !lookup_insert_eq. cbn. rewrite lookup_insert_eq. cbn.
  split; [done|]. split.
  { intros d' Hd. by rewrite lookup_insert_ne. }
  split. { intros node' d' Hne. by rewrite lookup_insert_ne. }
  split; [done|]. split; [done|]. split; [done|].
  intros Hlog. edestruct write_input_queue as (-> & _); [done..|].
  by rewrite has_inputs_false_queue.
Qed.

Lemma TIS_run_next_inv fuel t r (σ : Store) t' r' σ' :
  TIS_run_next fuel t r σ = TIS_yield t' r' σ' ->
  exists node g σ1 fr,
    node_runs r !! pos r = Some (node, g)
    /\ inject t node σ = Done t' σ1
    /\ Node_run_next fuel node g σ1 = Suspended fr σ'
    /\ node_runs r' = <[pos r := (node, SuspendedAt fr)]> (node_runs r)
    /\ pos r' = (if bool_decide (S (pos r) < length (node_runs r))%nat
                 then S (pos r) else 0%nat).
Proof.
  unfold TIS_run_next.
  destruct (node_runs r !! pos r) as [[node g]|] eqn:Hl; [|done].
  destruct (inject t node σ) as [t1 σ1| |] eqn:Hi; [|done..].
  destruct (Node_run_next fuel node g σ1) as [fr σ2| |] eqn:Hn; [|done..].
  intros [= <- <- <-]. exists node, g, σ1, fr. cbn.
  by rewrite length_insert.
Qed.

Lemma drained_refl t node : drained_at_most_one t t node.
Proof. by left. Qed.

Lemma drained_then_same t t1 t2 node :
  drained_at_most_one t t1 node ->
  (forall d, buffered t2 node d = buffered t1 node d) ->
  drained_at_most_one t t2 node.
Proof.
  intros [H|(d & v & H1 & H2)] Hs.
  - left. intros d. by rewrite Hs.
  - right. exists d, v. split; [by rewrite Hs|]. intros d' Hd.
    rewrite Hs. by apply H2.
Qed.

Lemma same_then_drained t t1 t2 node :
  (forall d, buffered t1 node d = buffered t node d) ->
  drained_at_most_one t1 t2 node ->
  drained_at_most_one t t2 node.
Proof.
  intros Hs [H|(d & v & H1 & H2)].
  - left. intros d. by rewrite H.
  - right. exists d, v. split; [by rewrite <- Hs|]. intros d' Hd.
    rewrite <- Hs. by apply H2.
Qed.

Lemma TIS_run_next_buffers fuel t r (σ : Store) t' r' σ' node g :
  node_runs r !! pos r = Some (node, g) ->
  TIS_run_next fuel t r σ = TIS_yield t' r' σ' ->
  drained_at_most_one t t' node
  /\ forall node' d, node' ≠ node -> buffered t' node' d = buffered t node' d.
Proof.
  intros Hl H. apply TIS_run_next_inv in H
    as (node0 & g0 & σ1 & fr & Hl' & Hi & _).
  rewrite Hl in Hl'. injection Hl' as <- <-.
  apply inject_spec in Hi
    as [[-> ->]|(n & d & v & _ & _ & _ & H1 & H2 & H3 & _)].
  - split; [by left|done].
  - split; [right; by exists d, v|]. intros node' d' Hne. by apply H3.
Qed.

(** The buffers after [k] turns of the loop that start at position [p]
    and stay within one pass. *)
Lemma TIS_run_nexts_buffers k : forall fuel t r (σ : Store) t' r' σ',
  (pos r + k <= length (node_runs r))%nat ->
  NoDup (node_runs r).*1 ->
  TIS_run_nexts k fuel t r σ = TIS_yield t' r' σ' ->
  forall node,
    (node ∈ (take k (drop (pos r) (node_runs r))).*1 ->
     drained_at_most_one t t' node)
    /\ (node ∉ (take k (drop (pos r) (node_runs r))).*1 ->
        forall d, buffered t' node d = buffered t node d).
Proof.
  induction k as [|k IH]; intros fuel t r σ t' r' σ' Hlen Hnd; cbn.
  - intros [= <- <- <-] node. rewrite take_0. split; [|done].
    intros H. inversion H.
  - destruct (TIS_run_next fuel t r σ) as [t1 r1 σ1| |] eqn:Hstep; [|done..].
    intros Hrest node.
    pose proof Hstep as Hinv. apply TIS_run_next_inv in Hinv
      as (node0 & g0 & σ0 & fr & Hl & _ & _ & Hruns & Hpos).
    destruct (TIS_run_next_buffers _ _ _ _ _ _ _ _ _ Hl Hstep) as [Hd Hother].
    assert ((node_runs r1).*1 = (node_runs r).*1) as Hfst.
    { rewrite Hruns. rewrite list_fmap_insert. cbn.
      apply list_insert_id. by rewrite list_lookup_fmap, Hl. }
    assert (drop (pos r) (node_runs r)
            = (node0, g0) :: drop (S (pos r)) (node_runs r)) as Hdrop
      by (by apply drop_S).
    rewrite Hdrop. cbn.
    destruct k as [|k].
    { cbn in Hrest. injection Hrest as <- <- <-. rewrite take_0. cbn.
      split.
      - intros H. apply list_elem_of_singleton in H as ->. done.
      - intros H d. apply Hother. intros ->. apply H. by left. }
    assert (pos r1 = S (pos r)) as Hpos1.
    { rewrite Hpos. rewrite bool_decide_true; [done|lia]. }
    assert ((take (S k) (drop (S (pos r)) (node_runs r))).*1
            = (take (S k) (drop (pos r1) (node_runs r1))).*1) as Htail.
    { rewrite Hpos1. rewrite !fmap_take, !fmap_drop. by rewrite Hfst. }
    rewrite Htail.
    specialize (IH fuel t1 r1 σ1 t' r' σ').
    destruct (IH ltac:(rewrite Hpos1, Hruns, length_insert; lia)
                 ltac:(by rewrite Hfst) Hrest node) as [IH1 IH2].
    assert (node0 ∉ (take (S k) (drop (pos r1) (node_runs r1))).*1)
      as Hfresh.
    { rewrite <- Htail. rewrite fmap_take, fmap_drop.
      intros Hin. apply elem_of_take in Hin as (i & Hi & _).
      rewrite lookup_drop in Hi.
      assert ((node_runs r).*1 !! pos r = Some node0) as Hp
        by (by rewrite list_lookup_fmap, Hl).
      pose proof (NoDup_lookup _ _ _ _ Hnd Hi Hp). lia. }
    split.
    + intros Hin. apply elem_of_cons in Hin as [->|Hin].
      * eapply drained_then_same; [done|].
        destruct (IH (ltac:(rewrite Hpos1, Hruns, length_insert; lia))
                    (ltac:(by rewrite Hfst)) Hrest node0) as [_ Hsame].
        by apply Hsame.
      * destruct (decide (node = node0)) as [->|Hne]; [done|].
        eapply same_then_drained; [|by apply IH1].
        intros d. by apply Hother.
    + intros Hnot d. rewrite IH2.
      * apply Hother. intros ->. apply Hnot. by left.
      * intros Hin. apply Hnot. by right.
Qed.

Lemma TIS_run_start_NoDup t (σ : Store) :
  NoDup (nodes t) -> NoDup (node_runs (TIS_run_start t σ)).*1.
Proof.
  intros H. unfold TIS_run_start. cbn. rewrite <- list_fmap_compose.
  erewrite list_fmap_ext; [rewrite list_fmap_id; by apply NoDup_filter|].
  done.
Qed.

(** C7: one turn of the scheduler loop first runs the injection block on
    the node it visits and then advances that node from the heap the
    injection left.  The injection moves nothing, or exactly one value from
    the front of one buffer of that node to the node's input queue for the
    same direction, and only with the node in READ mode and that queue
    empty.  Over one pass of the loop, which visits every node of
    [node_runs] once, at most one value therefore leaves the buffers of any
    node, hence at most one per node and direction. *)
Theorem host_injection_rule :
  (forall fuel t r (σ : Store) t' r' σ',
      TIS_run_next fuel t r σ = TIS_yield t' r' σ' ->
      exists node g σ1 fr,
        node_runs r !! pos r = Some (node, g)
        /\ inject t node σ = Done t' σ1
        /\ Node_run_next fuel node g σ1 = Suspended fr σ'
        /\ ((t' = t /\ σ1 = σ)
            \/ exists n d v,
                 σ !! node = Some n /\ mode_of n = Some READ
                 /\ has_inputs n d = false
                 /\ buffered t node d = v :: buffered t' node d
                 /\ (forall d', d' ≠ d ->
                       buffered t' node d' = buffered t node d')
                 /\ (forall node' d', node' ≠ node ->
                       buffered t' node' d' = buffered t node' d')
                 /\ num_buffered_inputs t' = num_buffered_inputs t - 1
                 /\ write_input node d v σ = Done tt σ1
                 /\ (is_log n = false -> queue σ1 node d = [v])))
  /\ (forall fuel t r (σ : Store) t' r' σ',
        pos r = 0%nat ->
        NoDup (node_runs r).*1 ->
        TIS_cycle fuel t r σ = TIS_yield t' r' σ' ->
        forall node, drained_at_most_one t t' node).
Proof.
  split.
  - intros fuel t r σ t' r' σ' H.
    apply TIS_run_next_inv in H as (node & g & σ1 & fr & Hl & Hi & Hn & _).
    exists node, g, σ1, fr. repeat (split; [done|]).
    apply inject_spec in Hi
      as [?|(n & d & v & ? & ? & ? & ? & ? & ? & ? & ? & ? & ?)];
      [by left|right].
    exists n, d, v. by repeat (split; [done|]).
  - intros fuel t r σ t' r' σ' Hpos Hnd H node. unfold TIS_cycle in H.
    destruct (TIS_run_nexts_buffers (length (node_runs r)) fuel t r σ t' r' σ'
                ltac:(rewrite Hpos; lia) Hnd H node) as [H1 H2].
    destruct (decide
                (node ∈ (take (length (node_runs r))
                           (drop (pos r) (node_runs r))).*1)) as [Hin|Hout].
    + by apply H1.
    + left. by apply H2.
Qed.

Lemma host_injection_rule_witness :
  exists t' r' σ',
    TIS_cycle 1 reader_tis reader_run [reader_node] = TIS_yield t' r' σ'
    /\ drained_at_most_one reader_tis t' 0%nat
    /\ buffered reader_tis 0%nat UP = [7; 8]
    /\ buffered t' 0%nat UP = [8].
Proof.
  eexists _, _, _. split; [vm_compute; reflexivity|]. split.
  - eapply (proj2 host_injection_rule 1%nat reader_tis reader_run
              [reader_node]).
    + reflexivity.
    + cbn. apply NoDup_singleton.
    + vm_compute. reflexivity.
  - split; vm_compute; reflexivity.
Defined.

(** ** Properties of the heap that every step keeps *)

Section preserved.
Variable node_ok : ref -> Node -> Prop.
Variable len : nat.

#[local] Abbreviation preserves := (preserves node_ok len).

Lemma preserves_ret {A} (a : A) : preserves (ret a).
Proof. by intros σ H. Qed.

Lemma preserves_raise {A} e : preserves (@raise A e).
Proof. by intros σ H. Qed.

Lemma preserves_yield {A} fr : preserves (@yield A fr).
Proof. by intros σ H. Qed.

Lemma preserves_assert b : preserves (assert b).
Proof. destruct b; [apply preserves_ret|apply preserves_raise]. Qed.

Lemma preserves_bind {A B} (m : gen A) (k : A -> gen B) :
  preserves m -> (forall a, preserves (k a)) -> preserves (bind m k).
Proof.
  intros Hm Hk σ H. unfold bind. specialize (Hm σ H).
  destruct (m σ) as [a σ'| |]; [by apply Hk|done..].
Qed.

Lemma preserves_get {B} r (k : Node -> gen B) :
  (forall n, node_ok r n -> preserves (k n)) -> preserves (bind (get r) k).
Proof.
  intros Hk σ H. unfold bind, get.
  destruct (σ !! r) as [n|] eqn:E; [|done].
  apply Hk; [|done]. by apply H.
Qed.

Lemma preserves_modify r f :
  (forall n, node_ok r n -> node_ok r (f n)) -> preserves (modify r f).
Proof.
  intros Hf σ [Hlen H]. unfold modify. split.
  - by rewrite length_alter.
  - intros r' n'. rewrite list_lookup_alter. case_decide as E.
    + subst r'. destruct (σ !! r) as [n|] eqn:En; [|done].
      intros [= <-]. apply Hf. by apply H.
    + apply H.
Qed.
End preserved.

(** ** The fetch never fails *)

Create HintDb keeps.

Section fetch.
Variable scheduled : ref -> Prop.
Variable len : nat.

#[local] Abbreviation keeps := (preserves (runnable scheduled) len).

Ltac solve_ok :=
  repeat match goal with
         | H : runnable _ _ _ |- _ => destruct H as ((? & ? & ?) & ?)
         end;
  split; [split; [|split]|]; cbn; try done; try lia;
  try (case_match; lia).

Ltac keeps_step :=
  first
    [ apply preserves_ret | apply preserves_raise | apply preserves_yield
    | apply preserves_assert
    | apply preserves_get; intros ? ?
    | apply preserves_modify; intros ? ?; solve_ok
    | apply preserves_bind; [|intros ?]
    | match goal with
      | |- preserves _ _ (if ?b then _ else _) => destruct b eqn:?
      | |- preserves _ _ (match ?x with _ => _ end) => destruct x eqn:?
      end ].

Ltac keeps_auto := repeat (first [ assumption | keeps_step ]).

Lemma keeps_push_mode self m : keeps (push_mode self m).
Proof. unfold push_mode. keeps_auto. Qed.

Lemma keeps_pop_mode self : keeps (pop_mode self).
Proof. unfold pop_mode. keeps_auto. Qed.

Lemma keeps_get_attached_node self d : keeps (get_attached_node self d).
Proof. unfold get_attached_node. keeps_auto. Qed.

Lemma keeps_write_input node d v : keeps (write_input node d v).
Proof. unfold write_input. keeps_auto. Qed.

Lemma keeps_read_input self d : keeps (read_input self d).
Proof. unfold read_input. keeps_auto. Qed.

#[local] Hint Resolve keeps_push_mode keeps_pop_mode keeps_get_attached_node
  keeps_write_input keeps_read_input : keeps.

Ltac keeps_all := repeat (first [ solve [eauto with keeps] | keeps_step ]).

Lemma keeps_get_next_op self : keeps (get_next_op self).
Proof. unfold get_next_op. keeps_all. Qed.

Lemma keeps__read_input_take self d : keeps (_read_input_take self d).
Proof. unfold _read_input_take. keeps_all. Qed.
#[local] Hint Resolve keeps_get_next_op keeps__read_input_take : keeps.

Lemma keeps__read_input_wait self d k : keeps (_read_input_wait self d k).
Proof. unfold _read_input_wait. keeps_all. Qed.
#[local] Hint Resolve keeps__read_input_wait : keeps.

Lemma keeps__read_input self d k : keeps (_read_input self d k).
Proof. unfold _read_input. keeps_all. Qed.

Lemma keeps__read_input_nonblocking self d :
  keeps (_read_input_nonblocking self d).
Proof. unfold _read_input_nonblocking. keeps_all. Qed.

Lemma keeps__write_output_wait self node d :
  keeps (_write_output_wait self node d).
Proof. unfold _write_output_wait. keeps_all. Qed.
#[local] Hint Resolve keeps__read_input keeps__read_input_nonblocking
  keeps__write_output_wait : keeps.

Lemma keeps__write_output self d v : keeps (_write_output self d v).
Proof. unfold _write_output. keeps_all. Qed.

Lemma keeps__write_output_nonblocking self d v :
  keeps (_write_output_nonblocking self d v).
Proof. unfold _write_output_nonblocking. keeps_all. Qed.
#[local] Hint Resolve keeps__write_output keeps__write_output_nonblocking : keeps.

Lemma keeps__read_src_any self ds k : keeps (_read_src_any self ds k).
Proof. induction ds; cbn; keeps_all. Qed.

Lemma keeps__write_dest_any self ds v : keeps (_write_dest_any self ds v).
Proof. induction ds; cbn; keeps_all. Qed.
#[local] Hint Resolve keeps__read_src_any keeps__write_dest_any : keeps.

Lemma keeps__read_src self src k : keeps (_read_src self src k).
Proof. unfold _read_src. keeps_all. Qed.

Lemma keeps__write_dest self dest v : keeps (_write_dest self dest v).
Proof. unfold _write_dest. keeps_all. Qed.
#[local] Hint Resolve keeps__read_src keeps__write_dest : keeps.

Lemma keeps__jmp self label : keeps (_jmp self label).
Proof.
  unfold _jmp. apply preserves_get. intros n Hn.
  destruct (labels n) as [lbls|] eqn:Hl; [|keeps_all].
  destruct label as [name|]; cbn; [|keeps_all].
  destruct (lbls !! name) as [target|] eqn:Ht; [|keeps_all].
  apply preserves_bind; [|intros ?; keeps_all].
  apply preserves_modify. intros n' Hn'.
  destruct Hn as ((? & ? & Hlab) & ?). specialize (Hlab _ _ _ Hl Ht).
  solve_ok.
Qed.
#[local] Hint Resolve keeps__jmp : keeps.

Lemma keeps_after_read_src self k v : keeps (after_read_src self k v).
Proof. unfold after_read_src. destruct k; keeps_all. Qed.
#[local] Hint Resolve keeps_after_read_src : keeps.

Lemma keeps_call h self a1 a2 : keeps (call h self a1 a2).
Proof.
  destruct h; cbn;
    unfold _nop, _mov, _swp, _sav, _add, _sub, _neg, _jez, _jnz, _jgz, _jlz,
      _jro; keeps_all.
Qed.

Lemma keeps_resume self fr : keeps (resume self fr).
Proof. destruct fr; cbn; keeps_all. Qed.
#[local] Hint Resolve keeps_call keeps_resume : keeps.

Lemma keeps_dispatch self : keeps (dispatch self).
Proof. unfold dispatch. keeps_all. Qed.
#[local] Hint Resolve keeps_dispatch : keeps.

Lemma keeps_run_until_yield fuel self : forall s,
  match s with
  | Done _ σ | Yielded _ σ => heap_ok (runnable scheduled) len σ
  | Raised _ => True
  end ->
  match run_until_yield fuel self s with
  | Suspended _ σ' => heap_ok (runnable scheduled) len σ'
  | _ => True
  end.
Proof.
  induction fuel as [|fuel IH]; intros [[] σ|fr σ|e] H; cbn; try done.
  apply IH.
  assert (keeps (do! pop_mode self in dispatch self)) as Hk by keeps_all.
  by apply Hk.
Qed.

Lemma keeps_Node_run_next fuel self g (σ : Store) fr σ' :
  heap_ok (runnable scheduled) len σ ->
  Node_run_next fuel self g σ = Suspended fr σ' ->
  heap_ok (runnable scheduled) len σ'.
Proof.
  intros H Hn. unfold Node_run_next in Hn.
  pose proof (keeps_run_until_yield fuel self
                (match g with
                 | NotStarted => dispatch self σ
                 | SuspendedAt fr0 => resume self fr0 σ
                 end)) as Hk.
  rewrite Hn in Hk. apply Hk.
  destruct g as [|fr0].
  - by apply keeps_dispatch.
  - by apply keeps_resume.
Qed.

Lemma keeps_inject t node : keeps (inject t node).
Proof. unfold inject. keeps_all. Qed.

Lemma keeps_TIS_run_next fuel t r (σ : Store) t' r' σ' :
  heap_ok (runnable scheduled) len σ ->
  TIS_run_next fuel t r σ = TIS_yield t' r' σ' ->
  heap_ok (runnable scheduled) len σ'.
Proof.
  intros H Hstep.
  apply TIS_run_next_inv in Hstep as (node & g & σ1 & fr & _ & Hi & Hn & _).
  eapply keeps_Node_run_next; [|done].
  pose proof (keeps_inject t node σ H) as Hk. by rewrite Hi in Hk.
Qed.
End fetch.

Lemma TIS_run_next_same_nodes fuel t r (σ : Store) t' r' σ' :
  TIS_run_next fuel t r σ = TIS_yield t' r' σ' ->
  (node_runs r').*1 = (node_runs r).*1.
Proof.
  intros H. apply TIS_run_next_inv in H
    as (node & g & σ1 & fr & Hl & _ & _ & -> & _).
  rewrite list_fmap_insert. cbn.
  apply list_insert_id. by rewrite list_lookup_fmap, Hl.
Qed.

Lemma elem_of_TIS_run_start t (σ : Store) node :
  node ∈ (node_runs (TIS_run_start t σ)).*1
  <-> node ∈ nodes t /\ node_is_loaded σ node = true.
Proof.
  unfold TIS_run_start. cbn. rewrite <- list_fmap_compose.
  erewrite list_fmap_ext; [rewrite list_fmap_id|done].
  rewrite list_elem_of_filter. tauto.
Qed.

Lemma get_next_op_in_bounds (σ : Store) node n :
  σ !! node = Some n -> loaded n = true -> 0 <= next_iptr n ->
  exists l op σ',
    ops n = Some l
    /\ 0 <= fetch_index n l < Z.of_nat (length l)
    /\ l !! Z.to_nat (fetch_index n l) = Some op
    /\ get_next_op node σ = Done op σ'.
Proof.
  intros Hn Hl Hnext. unfold loaded in Hl.
  destruct (ops n) as [l|] eqn:Hops; [|done].
  assert (0 < length l)%nat as Hlen by (destruct l; [done|cbn; lia]).
  assert (0 <= fetch_index n l < Z.of_nat (length l)) as Hi.
  { unfold fetch_index.
    destruct (Z.leb_spec (Z.of_nat (length l)) (next_iptr n)); lia. }
  destruct (lookup_lt_is_Some_2 l (Z.to_nat (fetch_index n l)))
    as [op Hop]; [lia|].
  exists l, op. eexists. repeat (split; [done|]).
  eapply get_next_op_at; [done..|].
  unfold py_index. destruct (Z.leb_spec 0 (fetch_index n l)); [done|lia].
Qed.

Lemma TIS_run_nexts_reachable t0 (σ0 : Store) k : forall fuel t r σ t' r' σ',
  reachable t0 σ0 t r σ ->
  TIS_run_nexts k fuel t r σ = TIS_yield t' r' σ' ->
  reachable t0 σ0 t' r' σ'.
Proof.
  induction k as [|k IH]; intros fuel t r σ t' r' σ' Hr; cbn.
  - by intros [= <- <- <-].
  - destruct (TIS_run_next fuel t r σ) as [t1 r1 σ1| |] eqn:E; [|done..].
    apply IH. by eapply reachable_next.
Qed.

Lemma dispatch_fetches (σ : Store) self n :
  σ !! self = Some n -> loaded n = true -> 0 <= next_iptr n ->
  fetches_in_bounds self σ.
Proof.
  intros Hn Hl Hnext. unfold loaded in Hl.
  destruct (ops n) as [l|] eqn:Hops; [|done].
  assert (0 < length l)%nat as Hlen by (destruct l; [done|cbn; lia]).
  assert (0 <= fetch_index n l < Z.of_nat (length l)) as Hi.
  { unfold fetch_index.
    destruct (Z.leb_spec (Z.of_nat (length l)) (next_iptr n)); lia. }
  destruct (lookup_lt_is_Some_2 l (Z.to_nat (fetch_index n l)))
    as [[[op a1] a2] Hop]; [lia|].
  exists n, l, op, a1, a2. repeat (split; [done|]).
  unfold dispatch. unfold bind at 1. erewrite push_mode_at by done.
  unfold bind at 1.
  erewrite (get_next_op_at _ self (set_mode (_mode n ++ [RUN]) n) l
              (op, a1, a2)); [| at_self | done |].
  - by rewrite upd_upd.
  - change (fetch_index (set_mode (_mode n ++ [RUN]) n) l)
      with (fetch_index n l).
    unfold py_index. destruct (Z.leb_spec 0 (fetch_index n l)); [done|lia].
Qed.

Lemma run_until_yield_loop fuel self (σ σ1 : Store) :
  pop_mode self σ = Done tt σ1 ->
  run_until_yield (S fuel) self (Done tt σ)
  = run_until_yield fuel self (dispatch self σ1).
Proof. intros H. cbn. unfold bind. by rewrite H. Qed.

Section heads.
Variable scheduled : ref -> Prop.
Variable len : nat.
Variable self : ref.
Hypothesis Hself : scheduled self.
Hypothesis Hlt : (self < len)%nat.

Lemma fetches_in_bounds_ok (σ : Store) :
  heap_ok (runnable scheduled) len σ -> fetches_in_bounds self σ.
Proof using Hself Hlt.
  intros [Hlen Hok].
  destruct (lookup_lt_is_Some_2 σ self) as [n Hn]; [by rewrite Hlen|].
  destruct (Hok self n Hn) as ((_ & Hnext & _) & Hloaded).
  by eapply dispatch_fetches; [| apply Hloaded |].
Qed.

Lemma loop_heads_from_ok fuel : forall s,
  match s with
  | Done _ σ | Yielded _ σ => heap_ok (runnable scheduled) len σ
  | Raised _ => True
  end ->
  Forall (fetches_in_bounds self) (loop_heads_from fuel self s).
Proof using Hself Hlt.
  induction fuel as [|fuel IH]; intros [[] σ|fr σ|e] H; cbn;
    try apply Forall_nil_2.
  pose proof (keeps_pop_mode scheduled len self σ H) as Hpop.
  destruct (pop_mode self σ) as [[] σ1| |]; try apply Forall_nil_2.
  apply Forall_cons_2; [by apply fetches_in_bounds_ok|].
  apply IH. by apply keeps_dispatch.
Qed.

Lemma loop_heads_ok fuel g (σ : Store) :
  heap_ok (runnable scheduled) len σ ->
  Forall (fetches_in_bounds self) (loop_heads fuel self g σ).
Proof using Hself Hlt.
  intros H. destruct g as [|fr]; cbn.
  - apply Forall_cons_2; [by apply fetches_in_bounds_ok|].
    apply loop_heads_from_ok. by apply keeps_dispatch.
  - apply loop_heads_from_ok. by apply keeps_resume.
Qed.

End heads.

Lemma reachable_runnable t0 (σ0 : Store) t r σ :
  Forall fetch_ready σ0 ->
  reachable t0 σ0 t r σ ->
  (node_runs r).*1 = (node_runs (TIS_run_start t0 σ0)).*1
  /\ heap_ok
       (runnable (fun node => node ∈ (node_runs (TIS_run_start t0 σ0)).*1))
       (length σ0) σ.
Proof.
  intros Hready Hreach.
  induction Hreach as [|fuel t r σ t' r' σ' _ [IH1 IH2] Hstep].
  - split; [done|]. split; [done|]. intros node n Hn. split.
    + by eapply Forall_lookup_1.
    + intros Hs. apply elem_of_TIS_run_start in Hs as [_ Hs].
      unfold node_is_loaded in Hs. by rewrite Hn in Hs.
  - split.
    + erewrite TIS_run_next_same_nodes by done. done.
    + by eapply keeps_TIS_run_next.
Qed.

Lemma reachable_loop_heads t0 (σ0 : Store) t r σ fuel node g t' σ1 :
  Forall fetch_ready σ0 ->
  reachable t0 σ0 t r σ ->
  node_runs r !! pos r = Some (node, g) ->
  inject t node σ = Done t' σ1 ->
  Forall (fetches_in_bounds node) (loop_heads fuel node g σ1).
Proof.
  intros Hready Hreach Hl Hinj.
  destruct (reachable_runnable _ _ _ _ _ Hready Hreach) as [Hruns Hok].
  assert (node ∈ (node_runs (TIS_run_start t0 σ0)).*1) as Hnode.
  { rewrite <- Hruns. apply list_elem_of_fmap. exists (node, g).
    split; [done|]. by eapply list_elem_of_lookup_2. }
  eapply (loop_heads_ok
            (fun node => node ∈ (node_runs (TIS_run_start t0 σ0)).*1)
            (length σ0)); [exact Hnode| |].
  - apply elem_of_TIS_run_start in Hnode as [_ Hs].
    unfold node_is_loaded in Hs.
    destruct (σ0 !! node) as [n0|] eqn:Hn0; [|done].
    by eapply lookup_lt_Some.
  - pose proof (keeps_inject _ _ t node σ Hok) as Hk.
    by rewrite Hinj in Hk.
Qed.

(** C10: the scheduler advances exactly the nodes of [self.nodes] that are
    loaded when the run starts, and no others later.  In every state the
    run reaches from a heap whose nodes are ready for the fetch (fresh
    nodes are, whatever [compile_asm] loaded into them), each of these
    nodes has a non-empty program, and [get_next_op] on it returns the
    instruction at [next_iptr], or at 0 when [next_iptr] is past the end,
    an index within the program: it does not raise.  The same holds
    inside every step: each time the [while True] loop of [Node.run]
    enters its body during the [next()] that the scheduler makes from
    such a state, on the heap left by the injection or, after a handler
    has returned, by the [pop_mode] that ends the previous turn of the
    loop, the fetch succeeds at an index within the program and the body
    goes on with the instruction found there. *)
Theorem scheduler_fetch_never_fails :
  (forall t (σ : Store) node,
      node ∈ (node_runs (TIS_run_start t σ)).*1
      <-> node ∈ nodes t /\ node_is_loaded σ node = true)
  /\ (forall t0 (σ0 : Store) t r σ,
        Forall fetch_ready σ0 ->
        reachable t0 σ0 t r σ ->
        (node_runs r).*1 = (node_runs (TIS_run_start t0 σ0)).*1
        /\ forall node,
             node ∈ (node_runs r).*1 ->
             exists n l op σ',
               σ !! node = Some n
               /\ loaded n = true
               /\ ops n = Some l
               /\ 0 <= fetch_index n l < Z.of_nat (length l)
               /\ l !! Z.to_nat (fetch_index n l) = Some op
               /\ get_next_op node σ = Done op σ')
  /\ (forall t0 (σ0 : Store) t r σ fuel node g t' σ1,
        Forall fetch_ready σ0 ->
        reachable t0 σ0 t r σ ->
        node_runs r !! pos r = Some (node, g) ->
        inject t node σ = Done t' σ1 ->
        Forall (fetches_in_bounds node) (loop_heads fuel node g σ1))
  /\ (forall fuel self (σ σ1 : Store),
        pop_mode self σ = Done tt σ1 ->
        run_until_yield (S fuel) self (Done tt σ)
        = run_until_yield fuel self (dispatch self σ1)).
Proof.
  split; [apply elem_of_TIS_run_start|]. split; [|split].
  - intros t0 σ0 t r σ Hready Hreach.
    destruct (reachable_runnable _ _ _ _ _ Hready Hreach) as [Hruns Hok].
    split; [done|]. intros node Hnode. rewrite Hruns in Hnode.
    pose proof Hnode as Hs. apply elem_of_TIS_run_start in Hs as [_ Hs].
    unfold node_is_loaded in Hs.
    destruct (σ0 !! node) as [n0|] eqn:Hn0; [|done].
    destruct Hok as [Hlen Hok].
    destruct (lookup_lt_is_Some_2 σ node) as [n Hn].
    { rewrite Hlen. by eapply lookup_lt_Some. }
    destruct (Hok node n Hn) as ((_ & Hnext & _) & Hloaded).
    specialize (Hloaded Hnode).
    destruct (get_next_op_in_bounds σ node n Hn Hloaded Hnext)
      as (l & op & σ' & ? & ? & ? & ?).
    by exists n, l, op, σ'.
  - intros t0 σ0 t r σ fuel node g t' σ1 Hready Hreach Hl Hinj.
    by eapply reachable_loop_heads.
  - apply run_until_yield_loop.
Qed.

Lemma scheduler_fetch_never_fails_witness :
  exists t r σ,
    TIS_run_nexts 2 1 nop_tis (TIS_run_start nop_tis [wrap_node]) [wrap_node]
    = TIS_yield t r σ
    /\ node_runs r !! pos r = Some (0%nat, SuspendedAt (SrcYielded InJro 5))
    /\ (next_iptr <$> σ !! 0%nat) = Some 2
    /\ length (loop_heads 1 0%nat (SuspendedAt (SrcYielded InJro 5)) σ)
       = 1%nat
    /\ Forall (fetches_in_bounds 0%nat)
         (loop_heads 1 0%nat (SuspendedAt (SrcYielded InJro 5)) σ).
Proof.
  eexists _, _, _. split; [vm_compute; reflexivity|].
  split; [reflexivity|]. split; [reflexivity|].
  split; [vm_compute; reflexivity|].
  eapply (proj1 (proj2 (proj2 scheduler_fetch_never_fails))
            nop_tis [wrap_node] nop_tis _ _ 1%nat 0%nat _ nop_tis).
  - apply Forall_singleton. unfold fetch_ready. cbn.
    split; [lia|]. split; [lia|]. intros lbls name target [= <-]. done.
  - apply (TIS_run_nexts_reachable nop_tis [wrap_node] 2 1 nop_tis
             (TIS_run_start nop_tis [wrap_node]) [wrap_node]);
      [apply reachable_start|].
    vm_compute. reflexivity.
  - reflexivity.
  - vm_compute. reflexivity.
Defined.

(** ** Port capacity *)

(** C1 as the specification states it fails: node 4 blocks reading LEFT,
    the scheduler injects the host value 7 into its empty UP queue, and
    node 0 then writes 1 through DOWN.  [_write_output] appends without
    looking at the queue, so after five turns the UP queue of node 4 holds
    two values. *)
Lemma queue_holds_two_values :
  (fun σ => queue σ 4%nat UP) <$> heap_after 4 1 collision_tis collision_heap
  = Some [7]
  /\ (fun σ => queue σ 4%nat UP) <$> heap_after 5 1 collision_tis collision_heap
     = Some [7; 1]
  /\ ~ (length [7; 1] <= 1)%nat.
Proof. split; [|split]; [vm_compute; reflexivity..|cbn; lia]. Qed.

Lemma node_shrinks_refl n : node_shrinks n n.
Proof. by repeat split. Qed.

Lemma node_shrinks_trans n1 n2 n3 :
  node_shrinks n1 n2 -> node_shrinks n2 n3 -> node_shrinks n1 n3.
Proof.
  intros (? & ? & ? & Ha) (? & ? & ? & Hb). repeat split; try congruence.
  intros d. etrans; [apply Hb|apply Ha].
Qed.

Lemma shrinks_refl (σ : Store) : shrinks σ σ.
Proof.
  split; [done|]. intros r n n' H1 H2. rewrite H1 in H2.
  injection H2 as <-. apply node_shrinks_refl.
Qed.

Lemma shrinks_trans (σ1 σ2 σ3 : Store) :
  shrinks σ1 σ2 -> shrinks σ2 σ3 -> shrinks σ1 σ3.
Proof.
  intros [L1 H1] [L2 H2]. split; [congruence|]. intros r n n'' Hn Hn''.
  destruct (lookup_lt_is_Some_2 σ2 r) as [n' Hn'].
  { rewrite L1. by eapply lookup_lt_Some. }
  eapply node_shrinks_trans; eauto.
Qed.

Lemma shrinks_alter (σ : Store) r f :
  (forall n, σ !! r = Some n -> node_shrinks n (f n)) ->
  shrinks σ (alter f r σ).
Proof.
  intros Hf. split; [by rewrite length_alter|]. intros r' n n' Hn.
  rewrite list_lookup_alter. case_decide as E.
  - subst r'. rewrite Hn. intros [= <-]. by apply Hf.
  - rewrite Hn. intros [= <-]. apply node_shrinks_refl.
Qed.

Lemma shrinks_peer (σ σ' : Store) w D :
  shrinks σ σ' -> peer σ' w D = peer σ w D.
Proof.
  intros [L H]. unfold peer.
  destruct (σ !! w) as [n|] eqn:Hn.
  - destruct (lookup_lt_is_Some_2 σ' w) as [n' Hn'].
    { rewrite L. by eapply lookup_lt_Some. }
    rewrite Hn'. cbn. destruct (H w n n' Hn Hn') as (-> & _). done.
  - rewrite (lookup_ge_None_2 σ' w); [done|].
    rewrite L. by apply lookup_ge_None.
Qed.

Lemma shrinks_queue (σ σ' : Store) p d :
  shrinks σ σ' -> queue σ' p d `suffix_of` queue σ p d.
Proof.
  intros [L H]. unfold queue.
  destruct (σ !! p) as [n|] eqn:Hn.
  - destruct (lookup_lt_is_Some_2 σ' p) as [n' Hn'].
    { rewrite L. by eapply lookup_lt_Some. }
    rewrite Hn'. by apply (H p n n' Hn Hn').
  - rewrite (lookup_ge_None_2 σ' p); [done|].
    rewrite L. by apply lookup_ge_None.
Qed.

Lemma shrinks_queue_nil (σ σ' : Store) p d :
  shrinks σ σ' -> queue σ p d = [] -> queue σ' p d = [].
Proof.
  intros H E. pose proof (shrinks_queue σ σ' p d H) as Hs.
  rewrite E in Hs. by apply suffix_nil_inv.
Qed.

Lemma shrinks_single_writer (σ σ' : Store) :
  shrinks σ σ' -> single_writer σ -> single_writer σ'.
Proof.
  intros H Hs w1 w2 D1 D2 p. rewrite !(shrinks_peer σ σ') by done. apply Hs.
Qed.

Lemma shrinks_no_any_dest (σ σ' : Store) :
  shrinks σ σ' -> Forall no_any_dest σ -> Forall no_any_dest σ'.
Proof.
  intros [L H] Hf. apply Forall_lookup. intros r n' Hn'.
  destruct (lookup_lt_is_Some_2 σ r) as [n Hn].
  { rewrite <- L. by eapply lookup_lt_Some. }
  destruct (H r n n' Hn Hn') as (_ & Hops & _).
  pose proof (Forall_lookup_1 _ _ _ _ Hf Hn) as Hno.
  intros l op a1 a2 Hl. apply Hno. congruence.
Qed.

Section ports.
Variable σ0 : Store.

Lemma port_base_shrinks self runs (σ σ' : Store) :
  shrinks σ σ' -> port_base σ0 self runs σ -> port_base σ0 self runs σ'.
Proof.
  intros H (Hs & Hn & Hq & Ho & Hw0).
  split; [by eapply shrinks_single_writer|].
  split; [by eapply shrinks_no_any_dest|]. split; [|split].
  - intros p d. pose proof (suffix_length _ _ (shrinks_queue σ σ' p d H)).
    specialize (Hq p d). lia.
  - intros w D p Hw. rewrite (shrinks_peer σ σ') by done. intros Hp Hne.
    apply Ho; [done..|]. intros E. apply Hne. by eapply shrinks_queue_nil.
  - intros w D. by rewrite (shrinks_peer σ σ').
Qed.

Lemma port_clear_shrinks self runs (σ σ' : Store) :
  shrinks σ σ' -> port_clear σ0 self runs σ -> port_clear σ0 self runs σ'.
Proof.
  intros H [Hb Hc]. split; [by eapply port_base_shrinks|].
  intros D p. rewrite (shrinks_peer σ σ') by done. intros Hp.
  eapply shrinks_queue_nil; [done|]. by apply Hc.
Qed.

Lemma port_clear_suspended self runs fr (σ : Store) :
  port_clear σ0 self runs σ -> frame_ok fr -> port_suspended σ0 self runs fr σ.
Proof.
  intros [Hb Hc] Hf. split; [done|]. split; [done|].
  intros D p Hp Hne. by rewrite (Hc D p Hp) in Hne.
Qed.

(** *** Code that only consumes inputs *)

Section consumes.
Variable F : frame -> Prop.

Lemma consumes_ret {A} (a : A) : consumes F (ret a).
Proof. intros σ. apply shrinks_refl. Qed.

Lemma consumes_raise {A} e : consumes F (@raise A e).
Proof. by intros σ. Qed.

Lemma consumes_yield {A} fr : F fr -> consumes F (@yield A fr).
Proof. intros H σ. split; [apply shrinks_refl|done]. Qed.

Lemma consumes_assert b : consumes F (assert b).
Proof. destruct b; [apply consumes_ret|apply consumes_raise]. Qed.

Lemma consumes_bind {A B} (m : gen A) (k : A -> gen B) :
  consumes F m -> (forall a, consumes F (k a)) -> consumes F (bind m k).
Proof.
  intros Hm Hk σ. unfold bind. specialize (Hm σ).
  destruct (m σ) as [a σ'| |]; [|done..].
  specialize (Hk a σ'). destruct (k a σ') as [b σ''|fr σ''|]; [| |done].
  - by eapply shrinks_trans.
  - destruct Hk. split; [by eapply shrinks_trans|done].
Qed.

Lemma consumes_get {B} r (k : Node -> gen B) :
  (forall n, consumes F (k n)) -> consumes F (bind (get r) k).
Proof.
  intros Hk σ. unfold bind, get. destruct (σ !! r) as [n|]; [|done].
  apply Hk.
Qed.

Lemma consumes_modify r f :
  (forall n, node_shrinks n (f n)) -> consumes F (modify r f).
Proof. intros Hf σ. apply shrinks_alter. intros n _. apply Hf. Qed.
End consumes.

Create HintDb consumes.

Ltac shrink_ok := intros; repeat split; cbn; try reflexivity.

Ltac consumes_step :=
  first
    [ apply consumes_ret | apply consumes_raise | apply consumes_assert
    | apply consumes_yield; cbn; solve [trivial]
    | apply consumes_get; intros ?
    | apply consumes_modify; solve [shrink_ok]
    | apply consumes_bind; [|intros ?]
    | match goal with
      | |- consumes _ (if ?b then _ else _) => destruct b eqn:?
      | |- consumes _ (match ?x with _ => _ end) => destruct x eqn:?
      end ].

Ltac consumes_all :=
  repeat (first [ solve [eauto with consumes] | consumes_step ]).

Lemma consumes_push_mode F self m : consumes F (push_mode self m).
Proof. unfold push_mode. consumes_all. Qed.

Lemma consumes_pop_mode F self : consumes F (pop_mode self).
Proof. unfold pop_mode. consumes_all. Qed.

Lemma consumes_get_attached_node F self d :
  consumes F (get_attached_node self d).
Proof. unfold get_attached_node. consumes_all. Qed.

Lemma consumes_get_next_op F self : consumes F (get_next_op self).
Proof. unfold get_next_op. consumes_all. Qed.

Lemma consumes_read_input F self d : consumes F (read_input self d).
Proof.
  intros σ. unfold read_input, bind, get.
  destruct (σ !! self) as [n|] eqn:Hn; [|done].
  destruct (default [] (inputs n !! d)) as [|v rest] eqn:E; [done|].
  cbn. apply shrinks_alter. intros n0 Hn0. rewrite Hn in Hn0.
  injection Hn0 as <-. repeat split; cbn. intros d'.
  destruct (decide (d = d')) as [<-|Hne].
  - rewrite lookup_insert_eq, E. cbn. by apply suffix_cons_r.
  - by rewrite lookup_insert_ne.
Qed.

#[local] Hint Resolve consumes_push_mode consumes_pop_mode
  consumes_get_attached_node consumes_get_next_op consumes_read_input
  : consumes.

Lemma consumes__read_input_take F self d :
  consumes F (_read_input_take self d).
Proof. unfold _read_input_take. consumes_all. Qed.
#[local] Hint Resolve consumes__read_input_take : consumes.

Lemma consumes__read_input_wait self d k :
  reader_ok k -> consumes frame_ok (_read_input_wait self d k).
Proof. intros Hk. unfold _read_input_wait. consumes_all. Qed.
#[local] Hint Resolve consumes__read_input_wait : consumes.

Lemma consumes__read_input self d k :
  reader_ok k -> consumes frame_ok (_read_input self d k).
Proof. intros Hk. unfold _read_input. consumes_all. Qed.

Lemma consumes__read_input_nonblocking F self d :
  consumes F (_read_input_nonblocking self d).
Proof. unfold _read_input_nonblocking. consumes_all. Qed.

Lemma consumes__write_output_wait self node d :
  consumes frame_ok (_write_output_wait self node d).
Proof. unfold _write_output_wait. consumes_all. Qed.
#[local] Hint Resolve consumes__read_input consumes__read_input_nonblocking
  consumes__write_output_wait : consumes.

Lemma consumes__read_src_any self ds k :
  reader_ok k -> consumes frame_ok (_read_src_any self ds k).
Proof. intros Hk. induction ds; cbn; consumes_all. Qed.
#[local] Hint Resolve consumes__read_src_any : consumes.

Lemma consumes__read_src self src k :
  reader_ok k -> consumes frame_ok (_read_src self src k).
Proof. intros Hk. unfold _read_src. consumes_all. Qed.
#[local] Hint Resolve consumes__read_src : consumes.

Lemma consumes__jmp self label : consumes frame_ok (_jmp self label).
Proof. unfold _jmp. consumes_all. Qed.
#[local] Hint Resolve consumes__jmp : consumes.

Lemma consumes_call h self a1 a2 :
  tok_is a2 "ANY" = false -> consumes frame_ok (call h self a1 a2).
Proof.
  intros Ha. destruct h; cbn;
    unfold _nop, _mov, _swp, _sav, _add, _sub, _neg, _jez, _jnz, _jgz, _jlz,
      _jro; consumes_all.
Qed.

(** *** The effect of a write on the queues *)

Lemma consumes_clear self runs {A} (m : gen A) (σ : Store) :
  consumes frame_ok m -> port_clear σ0 self runs σ ->
  match m σ with
  | Done _ σ' => port_clear σ0 self runs σ'
  | Yielded fr σ' => port_suspended σ0 self runs fr σ'
  | Raised _ => True
  end.
Proof.
  intros Hm Hc. specialize (Hm σ). destruct (m σ) as [a σ'|fr σ'|]; [| |done].
  - by eapply port_clear_shrinks.
  - destruct Hm as [Hs Hf]. apply port_clear_suspended; [|done].
    by eapply port_clear_shrinks.
Qed.

Lemma port_suspended_clear self runs fr (σ : Store) :
  port_suspended σ0 self runs fr σ ->
  (forall p d, fr = WriteBlocked p d -> queue σ p d = []) ->
  port_clear σ0 self runs σ.
Proof.
  intros (Hb & Hf & Hs) Hfr. split; [done|]. intros D p Hp.
  destruct (queue σ p (_opposite_directions D)) as [|v q] eqn:E; [done|].
  assert (fr = WriteBlocked p (_opposite_directions D)) as Heq
    by (apply Hs; [done|by rewrite E]).
  specialize (Hfr _ _ Heq). by rewrite E in Hfr.
Qed.

Lemma has_inputs_queue (σ : Store) p np d :
  σ !! p = Some np -> has_inputs np d = false -> queue σ p d = [].
Proof. intros Hp H. unfold queue. rewrite Hp. by apply has_inputs_false_queue. Qed.

Lemma _write_output_wait_spec self runs p d (σ : Store) :
  port_suspended σ0 self runs (WriteBlocked p d) σ ->
  match _write_output_wait self p d σ with
  | Done _ σ' => port_clear σ0 self runs σ'
  | Yielded fr σ' => port_suspended σ0 self runs fr σ'
  | Raised _ => True
  end.
Proof.
  intros Hs. unfold _write_output_wait, bind at 1, get.
  destruct (σ !! p) as [np|] eqn:Hp; [|done].
  destruct (has_inputs np d) eqn:Hi; [done|].
  apply (consumes_clear self runs (do! pop_mode self in yield WriteYieldedTrue)).
  - consumes_all.
  - eapply port_suspended_clear; [done|]. intros p' d' [= <- <-].
    by eapply has_inputs_queue.
Qed.

Lemma peer_alter (σ : Store) r f w D :
  (forall n, attached_nodes (f n) = attached_nodes n) ->
  peer (alter f r σ) w D = peer σ w D.
Proof.
  intros Hf. unfold peer. rewrite list_lookup_alter. case_decide as E; [|done].
  subst w. destruct (σ !! r); cbn; [by rewrite Hf|done].
Qed.

Lemma no_any_dest_alter (σ : Store) r f :
  (forall n, ops (f n) = ops n) ->
  Forall no_any_dest σ -> Forall no_any_dest (alter f r σ).
Proof.
  intros Hf H. rewrite Forall_lookup in H. apply Forall_lookup. intros i n.
  rewrite list_lookup_alter. case_decide as E; [|by apply H].
  subst i. destruct (σ !! r) as [n0|] eqn:Hn; [|done]. intros [= <-].
  intros l op a1 a2. rewrite Hf. by apply (H r n0 Hn).
Qed.

Lemma single_writer_peers (σ σ' : Store) :
  (forall w D, peer σ' w D = peer σ w D) ->
  single_writer σ -> single_writer σ'.
Proof. intros Hp Hs w1 w2 D1 D2 p. rewrite !Hp. apply Hs. Qed.

(** A value appended by [self] to the empty queue of its neighbour. *)
Lemma port_clear_append self runs (σ σ' : Store) D p v :
  port_clear σ0 self runs σ ->
  peer σ self D = Some p ->
  (forall w D', peer σ' w D' = peer σ w D') ->
  Forall no_any_dest σ' ->
  (forall p' d',
      queue σ' p' d'
      = if decide (p' = p /\ d' = _opposite_directions D)
        then queue σ p (_opposite_directions D) ++ [v]
        else queue σ p' d') ->
  port_suspended σ0 self runs (WriteBlocked p (_opposite_directions D)) σ'.
Proof.
  intros [(Hsw & Hno & Hq & Ho & Hw0) Hc] Hp Hpeer Hno' Hqueue.
  pose proof (Hc D p Hp) as Hempty.
  split; [split; [|split; [|split; [|split]]]|split].
  - by eapply single_writer_peers.
  - done.
  - intros p' d'. rewrite Hqueue. case_decide; [|apply Hq].
    rewrite Hempty. cbn. lia.
  - intros w D' p' Hw. rewrite Hpeer, Hqueue. intros Hp'.
    case_decide as E; [|by apply Ho].
    destruct E as [-> E]. exfalso. apply Hw. by eapply (Hsw w self D' D).
  - intros w D'. by rewrite Hpeer.
  - done.
  - intros D' p'. rewrite Hpeer, Hqueue. intros Hp'.
    case_decide as E; [by destruct E as [-> ->]|].
    intros Hne. by rewrite (Hc D' p' Hp') in Hne.
Qed.

Lemma port_suspended_shrinks self runs fr (σ σ' : Store) :
  shrinks σ σ' -> port_suspended σ0 self runs fr σ ->
  port_suspended σ0 self runs fr σ'.
Proof.
  intros H (Hb & Hf & Hs). split; [by eapply port_base_shrinks|].
  split; [done|]. intros D p. rewrite (shrinks_peer σ σ') by done.
  intros Hp Hne. apply Hs; [done|]. intros E. apply Hne.
  by eapply shrinks_queue_nil.
Qed.

Lemma get_attached_node_cases self od (σ : Store) :
  match get_attached_node self od σ with
  | Done node σ' => σ' = σ /\ exists d, od = Some d /\ peer σ self d = node
  | Yielded _ _ => False
  | Raised _ => True
  end.
Proof.
  unfold get_attached_node. destruct od as [d|]; [|done].
  rewrite bool_decide_true by apply in_DIRECTIONS.
  unfold assert, bind, ret, get, peer.
  destruct (σ !! self) as [n|]; [|done]. split; [done|]. by exists d.
Qed.

Lemma queue_alter_same (σ : Store) r f p d :
  (forall n, inputs (f n) = inputs n) ->
  queue (alter f r σ) p d = queue σ p d.
Proof.
  intros Hf. unfold queue. rewrite list_lookup_alter. case_decide as E; [|done].
  subst p. destruct (σ !! r); cbn; [by rewrite Hf|done].
Qed.

Lemma write_input_cases node d v (σ : Store) :
  match write_input node d v σ with
  | Done _ σ' =>
      (forall w D, peer σ' w D = peer σ w D)
      /\ (Forall no_any_dest σ -> Forall no_any_dest σ')
      /\ ((forall p' d', queue σ' p' d' = queue σ p' d')
          \/ (forall p' d',
                queue σ' p' d'
                = if decide (p' = node /\ d' = d)
                  then queue σ node d ++ [v]
                  else queue σ p' d'))
  | Yielded _ _ => False
  | Raised _ => True
  end.
Proof.
  unfold write_input, bind, get.
  destruct (σ !! node) as [np|] eqn:Hp; [|done].
  destruct (is_log np); unfold modify.
  - split; [intros w D; by apply peer_alter|].
    split; [by apply no_any_dest_alter|].
    left. intros p' d'. by apply queue_alter_same.
  - split; [intros w D; by apply peer_alter|].
    split; [by apply no_any_dest_alter|].
    right. intros p' d'. unfold queue. rewrite list_lookup_alter.
    case_decide as E.
    + subst p'. rewrite Hp. cbn. case_decide as E'.
      * destruct E' as [_ ->]. by rewrite lookup_insert_eq.
      * rewrite lookup_insert_ne; [done|]. intros ->. by apply E'.
    + case_decide as E'; [|done]. by destruct E'.
Qed.

Lemma port_clear_same_view self runs (σ σ' : Store) :
  (forall w D, peer σ' w D = peer σ w D) ->
  Forall no_any_dest σ' ->
  (forall p d, queue σ' p d = queue σ p d) ->
  port_clear σ0 self runs σ -> port_clear σ0 self runs σ'.
Proof.
  intros Hp Hno Hq [(Hsw & _ & Hl & Ho & Hw0) Hc].
  split; [split; [|split; [|split; [|split]]]|].
  - by eapply single_writer_peers.
  - done.
  - intros p d. rewrite Hq. apply Hl.
  - intros w D p. rewrite Hp, Hq. apply Ho.
  - intros w D. by rewrite Hp.
  - intros D p. rewrite Hp, Hq. apply Hc.
Qed.

(** A blocking write started by a node with no value in flight. *)
Lemma _write_output_spec self runs od v (σ : Store) :
  port_clear σ0 self runs σ ->
  match _write_output self od v σ with
  | Done _ σ' => port_clear σ0 self runs σ'
  | Yielded fr σ' => port_suspended σ0 self runs fr σ'
  | Raised _ => True
  end.
Proof.
  intros Hc. unfold _write_output, bind at 1.
  pose proof (consumes_clear self runs (push_mode self WRITE) σ
                (consumes_push_mode _ _ _) Hc) as H1.
  destruct (push_mode self WRITE σ) as [[] σ1| |]; [|done..].
  unfold bind at 1. pose proof (get_attached_node_cases self od σ1) as H2.
  destruct (get_attached_node self od σ1) as [node σ1'| |]; [|done..].
  destruct H2 as (-> & d & -> & Hpeer).
  destruct node as [p|]; [|done].
  unfold bind at 1.
  pose proof (write_input_cases p (_opposite_directions d) v σ1) as H3.
  destruct (write_input p (_opposite_directions d) v σ1) as [[] σ2| |];
    [|done..].
  destruct H3 as (Hp & Hno & Hq).
  unfold bind at 1, modify.
  set (σ3 := alter (set_last_port_dir (Some d)) self σ2).
  assert (shrinks σ2 σ3) as Hs by (apply shrinks_alter; shrink_ok).
  apply _write_output_wait_spec. eapply port_suspended_shrinks; [done|].
  destruct Hq as [Hq|Hq].
  - apply port_clear_suspended; [|done].
    eapply port_clear_same_view; [done| |done|done].
    apply Hno, H1.
  - eapply port_clear_append; [done..| |done]. apply Hno, H1.
Qed.

Lemma _write_dest_spec self runs dest v (σ : Store) :
  port_clear σ0 self runs σ ->
  tok_is dest "ANY" = false ->
  match _write_dest self dest v σ with
  | Done _ σ' => port_clear σ0 self runs σ'
  | Yielded fr σ' => port_suspended σ0 self runs fr σ'
  | Raised _ => True
  end.
Proof.
  intros Hc Hany. unfold _write_dest, bind at 1, assert.
  match goal with
  | |- context [if ?b then ret tt else raise _] => destruct b
  end; [|done].
  unfold ret at 1.
  destruct (tok_is dest "ACC").
  { apply (consumes_clear self runs (modify self (set_acc v))); [|done].
    consumes_all. }
  destruct (tok_is dest "NIL"); [done|].
  destruct (_ || _); [by apply _write_output_spec|].
  rewrite Hany.
  destruct (tok_is dest "LAST"); [|done].
  unfold bind, get. destruct (σ !! self) as [n|]; [|done].
  by apply _write_output_spec.
Qed.

Lemma after_read_src_spec self runs k v (σ : Store) :
  port_clear σ0 self runs σ ->
  reader_ok k ->
  match after_read_src self k v σ with
  | Done _ σ' => port_clear σ0 self runs σ'
  | Yielded fr σ' => port_suspended σ0 self runs fr σ'
  | Raised _ => True
  end.
Proof.
  intros Hc Hk. destruct k as [dest| | |].
  - by apply _write_dest_spec.
  - apply (consumes_clear self runs (after_read_src self InAdd v)); [|done].
    unfold after_read_src. consumes_all.
  - apply (consumes_clear self runs (after_read_src self InSub v)); [|done].
    unfold after_read_src. consumes_all.
  - apply (consumes_clear self runs (after_read_src self InJro v)); [|done].
    unfold after_read_src. consumes_all.
Qed.

Lemma resume_spec self runs fr (σ : Store) :
  port_suspended σ0 self runs fr σ ->
  match resume self fr σ with
  | Done _ σ' => port_clear σ0 self runs σ'
  | Yielded fr' σ' => port_suspended σ0 self runs fr' σ'
  | Raised _ => True
  end.
Proof.
  intros Hs.
  destruct fr as [|k v|d k|k v|k|p d| |v];
    try (assert (port_clear σ0 self runs σ) as Hc
           by (eapply port_suspended_clear; [done|by intros ? ? [=]]));
    try (pose proof (proj1 (proj2 Hs)) as Hk; cbn in Hk); cbn.
  - done.
  - by apply after_read_src_spec.
  - apply (consumes_clear self runs (_read_input_wait self d k)); [|done].
    by apply consumes__read_input_wait.
  - unfold bind.
    pose proof (consumes_clear self runs (pop_mode self) σ
                  (consumes_pop_mode _ _) Hc) as H1.
    destruct (pop_mode self σ) as [[] σ1| |]; [|done..].
    by apply after_read_src_spec.
  - apply (consumes_clear self runs (_read_src_any self DIRECTIONS k));
      [|done].
    by apply consumes__read_src_any.
  - by apply _write_output_wait_spec.
  - done.
  - done.
Qed.

Lemma get_next_op_elem self (σ : Store) :
  match get_next_op self σ with
  | Done i σ' =>
      shrinks σ σ'
      /\ exists n l, σ !! self = Some n /\ ops n = Some l /\ i ∈ l
  | Yielded _ _ => False
  | Raised _ => True
  end.
Proof.
  unfold get_next_op, bind at 1, get.
  destruct (σ !! self) as [n|] eqn:Hn; [|done].
  destruct (ops n) as [l|] eqn:Hl; [|done].
  unfold bind at 1, modify.
  destruct (py_index l _) as [op|] eqn:Hop; [|done].
  unfold bind, modify, ret. split.
  - eapply shrinks_trans; apply shrinks_alter; shrink_ok.
  - exists n, l. repeat split; try done.
    unfold py_index in Hop. repeat case_match; try done;
      by eapply list_elem_of_lookup_2.
Qed.

Lemma dispatch_spec self runs (σ : Store) :
  port_clear σ0 self runs σ ->
  match dispatch self σ with
  | Done _ σ' => port_clear σ0 self runs σ'
  | Yielded fr σ' => port_suspended σ0 self runs fr σ'
  | Raised _ => True
  end.
Proof.
  intros Hc. unfold dispatch, bind at 1.
  pose proof (consumes_clear self runs (push_mode self RUN) σ
                (consumes_push_mode _ _ _) Hc) as H1.
  destruct (push_mode self RUN σ) as [[] σ1| |]; [|done..].
  unfold bind at 1. pose proof (get_next_op_elem self σ1) as H2.
  destruct (get_next_op self σ1) as [[[op a1] a2] σ2| |]; [|done..].
  destruct H2 as (Hs & n & l & Hn & Hl & Hin).
  assert (tok_is a2 "ANY" = false) as Hany.
  { destruct H1 as [(_ & Hno & _) _].
    by eapply (Forall_lookup_1 _ _ _ _ Hno Hn). }
  apply (consumes_clear self runs
           (do! modify self (fun n => set_next_iptr (iptr n + 1) n) in
            match op_table op with
            | Some h => call h self a1 a2
            | None => raise AssertionError
            end)).
  - apply consumes_bind; [consumes_all|]. intros _.
    destruct (op_table op); [by apply consumes_call|consumes_all].
  - by eapply port_clear_shrinks.
Qed.

Lemma run_until_yield_spec self runs fuel : forall s,
  match s with
  | Done _ σ => port_clear σ0 self runs σ
  | Yielded fr σ => port_suspended σ0 self runs fr σ
  | Raised _ => True
  end ->
  match run_until_yield fuel self s with
  | Suspended fr σ' => port_suspended σ0 self runs fr σ'
  | _ => True
  end.
Proof.
  induction fuel as [|fuel IH]; intros [[] σ|fr σ|e] H; cbn; try done.
  apply IH. unfold bind.
  pose proof (consumes_clear self runs (pop_mode self) σ
                (consumes_pop_mode _ _) H) as H1.
  destruct (pop_mode self σ) as [[] σ1| |]; [|done..].
  by apply dispatch_spec.
Qed.

Lemma Node_run_next_spec self runs fuel g (σ : Store) fr σ' :
  match g with
  | NotStarted => port_clear σ0 self runs σ
  | SuspendedAt fr0 => port_suspended σ0 self runs fr0 σ
  end ->
  Node_run_next fuel self g σ = Suspended fr σ' ->
  port_suspended σ0 self runs fr σ'.
Proof.
  intros H Hn. unfold Node_run_next in Hn.
  pose proof (run_until_yield_spec self runs fuel
                (match g with
                 | NotStarted => dispatch self σ
                 | SuspendedAt fr0 => resume self fr0 σ
                 end)) as Hr.
  rewrite Hn in Hr. apply Hr. destruct g as [|fr0].
  - by apply dispatch_spec.
  - by apply resume_spec.
Qed.

(** *** The whole machine *)

Lemma NoDup_fst_eq {A B} (l : list (A * B)) a b1 b2 :
  NoDup l.*1 -> (a, b1) ∈ l -> (a, b2) ∈ l -> b1 = b2.
Proof.
  intros Hnd H1 H2.
  apply list_elem_of_lookup_1 in H1 as [i Hi].
  apply list_elem_of_lookup_1 in H2 as [j Hj].
  assert (l.*1 !! i = Some a) as Hi' by (by rewrite list_lookup_fmap, Hi).
  assert (l.*1 !! j = Some a) as Hj' by (by rewrite list_lookup_fmap, Hj).
  pose proof (NoDup_lookup _ _ _ _ Hnd Hi' Hj') as ->.
  rewrite Hi in Hj. by injection Hj.
Qed.

Lemma elem_of_insert_other {A B} (l : list (A * B)) i a b0 b x y :
  l !! i = Some (a, b0) -> x ≠ a -> (x, y) ∈ l -> (x, y) ∈ <[i := (a, b)]> l.
Proof.
  intros Hi Hne Hin. apply list_elem_of_lookup_1 in Hin as [j Hj].
  apply (list_elem_of_lookup_2 _ j). rewrite list_lookup_insert_ne; [done|].
  intros ->. rewrite Hi in Hj. by injection Hj as -> ->.
Qed.

Lemma elem_of_insert_inv {A} (l : list A) i x y :
  y ∈ <[i := x]> l -> y = x \/ y ∈ l.
Proof.
  intros Hin. apply list_elem_of_lookup_1 in Hin as [j Hj].
  destruct (decide (i = j)) as [->|Hne].
  - left. destruct (decide (j < length l)%nat).
    + rewrite list_lookup_insert_eq in Hj by done. by injection Hj.
    + rewrite list_insert_ge in Hj by lia.
      apply lookup_lt_Some in Hj. lia.
  - right. rewrite list_lookup_insert_ne in Hj by done.
    by eapply list_elem_of_lookup_2.
Qed.

Lemma inject_keeps t node runs (σ : Store) t' σ1 :
  one_in_flight σ0 runs σ ->
  host_ports_free t σ0 ->
  inject t node σ = Done t' σ1 ->
  one_in_flight σ0 runs σ1 /\ host_ports_free t' σ0.
Proof.
  intros (Hsw & Hno & Hl & Hfl & Hfr & Hw0) Hhost Hi.
  apply inject_spec in Hi
    as [[-> ->]|(n & d & v & Hn & _ & Hempty & Hb & Hd & Hn' & _ & _ & Hw & _)].
  { by repeat split. }
  assert (forall w D, peer σ w D = Some node ->
                      _opposite_directions D ≠ d) as Hfree.
  { intros w D Hp <-. rewrite Hw0 in Hp.
    rewrite (Hhost w D node Hp) in Hb. done. }
  pose proof (write_input_cases node d v σ) as Hc. rewrite Hw in Hc.
  destruct Hc as (Hp & Hno' & Hq). split.
  - split; [by eapply single_writer_peers|]. split; [by apply Hno'|].
    destruct Hq as [Hq|Hq]; (split; [|split; [|split]]).
    + intros p d'. rewrite Hq. apply Hl.
    + intros w D p. rewrite Hp, Hq. apply Hfl.
    + done.
    + intros w D. by rewrite Hp.
    + intros p d'. rewrite Hq. case_decide; [|apply Hl].
      rewrite (has_inputs_queue σ node n d) by done. cbn. lia.
    + intros w D p. rewrite Hp, Hq. intros Hpe.
      case_decide as E; [|by apply Hfl].
      destruct E as [-> E]. by destruct (Hfree w D Hpe).
    + done.
    + intros w D. by rewrite Hp.
  - intros w D p Hpe. pose proof (Hhost w D p Hpe) as H0.
    destruct (decide (p = node)) as [->|Hne].
    + destruct (decide (_opposite_directions D = d)) as [E|E].
      * rewrite E in H0. by rewrite H0 in Hb.
      * by rewrite Hd.
    + by rewrite Hn'.
Qed.

Lemma one_in_flight_at runs (σ : Store) i node g :
  one_in_flight σ0 runs σ ->
  NoDup runs.*1 ->
  runs !! i = Some (node, g) ->
  match g with
  | NotStarted => port_clear σ0 node runs σ
  | SuspendedAt fr => port_suspended σ0 node runs fr σ
  end.
Proof.
  intros (Hsw & Hno & Hl & Hfl & Hfr & Hw0) Hnd Hi.
  assert ((node, g) ∈ runs) as Hin by (by eapply list_elem_of_lookup_2).
  assert (port_base σ0 node runs σ) as Hb.
  { repeat split; try done. intros w D p _. apply Hfl. }
  destruct g as [|fr].
  - split; [done|]. intros D p Hp.
    destruct (queue σ p (_opposite_directions D)) as [|v q] eqn:E; [done|].
    assert ((node, SuspendedAt (WriteBlocked p (_opposite_directions D)))
              ∈ runs) as Hin' by (apply Hfl; [done|by rewrite E]).
    by pose proof (NoDup_fst_eq _ _ _ _ Hnd Hin Hin').
  - split; [done|]. split; [by eapply Hfr|]. intros D p Hp Hne.
    pose proof (Hfl node D p Hp Hne) as Hin'.
    pose proof (NoDup_fst_eq _ _ _ _ Hnd Hin Hin') as Heq.
    by injection Heq.
Qed.

Lemma TIS_run_next_keeps fuel t r (σ : Store) t' r' σ' :
  one_in_flight σ0 (node_runs r) σ ->
  NoDup (node_runs r).*1 ->
  host_ports_free t σ0 ->
  TIS_run_next fuel t r σ = TIS_yield t' r' σ' ->
  one_in_flight σ0 (node_runs r') σ' /\ host_ports_free t' σ0.
Proof.
  intros Hinv Hnd Hhost Hstep.
  apply TIS_run_next_inv in Hstep
    as (node & g & σ1 & fr & Hl & Hi & Hn & Hruns & _).
  destruct (inject_keeps _ _ _ _ _ _ Hinv Hhost Hi) as [Hinv1 Hhost'].
  split; [|done].
  pose proof (one_in_flight_at _ _ _ _ _ Hinv1 Hnd Hl) as Hpre.
  pose proof (Node_run_next_spec _ _ _ _ _ _ _ Hpre Hn)
    as ((Hsw & Hno & Hlen & Hfl & Hw0) & Hf & Hs).
  destruct Hinv1 as (_ & _ & _ & _ & Hfr & _).
  assert (node_runs r' !! pos r = Some (node, SuspendedAt fr)) as Hat.
  { rewrite Hruns. apply list_lookup_insert_eq. by eapply lookup_lt_Some. }
  rewrite Hruns. repeat split; try done.
  - intros w D p Hp Hne. destruct (decide (w = node)) as [->|Hw].
    + rewrite <- (Hs D p Hp Hne). eapply list_elem_of_lookup_2.
      by rewrite <- Hruns.
    + eapply elem_of_insert_other; [done|done|by apply Hfl].
  - intros w fr' Hin. apply elem_of_insert_inv in Hin as [[= <- <-]|Hin].
    + done.
    + by eapply Hfr.
Qed.

End ports.

Lemma one_in_flight_reachable t0 (σ0 : Store) t r σ :
  NoDup (nodes t0) ->
  single_writer σ0 ->
  Forall no_any_dest σ0 ->
  host_ports_free t0 σ0 ->
  (forall p d, queue σ0 p d = []) ->
  reachable t0 σ0 t r σ ->
  one_in_flight σ0 (node_runs r) σ
  /\ NoDup (node_runs r).*1 /\ host_ports_free t σ0.
Proof.
  intros Hnd Hsw Hno Hhost Hempty Hreach.
  induction Hreach as [|fuel t r σ t' r' σ' _ (IH1 & IH2 & IH3) Hstep].
  - split; [|split; [by apply TIS_run_start_NoDup|done]].
    repeat split; try done.
    + intros p d. rewrite Hempty. cbn. lia.
    + intros w D p _ Hne. by rewrite Hempty in Hne.
    + intros w fr Hin. unfold TIS_run_start in Hin. cbn in Hin.
      apply list_elem_of_fmap in Hin as (? & [=] & _).
  - destruct (TIS_run_next_keeps _ _ _ _ _ _ _ _ IH1 IH2 IH3 Hstep).
    split; [done|]. split; [|done].
    by erewrite TIS_run_next_same_nodes.
Qed.

Lemma has_inputs_true_queue (σ : Store) p np d :
  σ !! p = Some np -> has_inputs np d = true <-> queue σ p d ≠ [].
Proof.
  intros Hp. unfold queue, has_inputs. rewrite Hp.
  destruct (default [] (inputs np !! d)); cbn; split; done.
Qed.

Lemma queue_alter_append (σ : Store) p np d v :
  σ !! p = Some np ->
  queue (alter (fun n =>
                  set_inputs (<[d := default [] (inputs n !! d) ++ [v]]>
                                (inputs n)) n) p σ) p d
  = queue σ p d ++ [v].
Proof.
  intros Hp. unfold queue. rewrite list_lookup_alter_eq, Hp. cbn.
  by rewrite lookup_insert_eq.
Qed.

(** A blocking write to a neighbour that is an ordinary node appends the
    value whatever the queue holds, and leaves the writer suspended in the
    write, in WRITE mode. *)
Lemma _write_output_appends (σ : Store) self n d p np v :
  σ !! self = Some n ->
  attached_nodes n !! d = Some p ->
  σ !! p = Some np ->
  is_log np = false ->
  exists σ',
    _write_output self (Some d) v σ
    = Yielded (WriteBlocked p (_opposite_directions d)) σ'
    /\ queue σ' p (_opposite_directions d)
       = queue σ p (_opposite_directions d) ++ [v]
    /\ mode_of <$> σ' !! self = Some (Some WRITE).
Proof.
  intros Hself Hd Hp Hlog.
  set (push := fun n0 => set_mode (_mode n0 ++ [WRITE]) n0).
  set (append := fun n0 =>
         set_inputs (<[_opposite_directions d
                       := default [] (inputs n0 !! _opposite_directions d)
                          ++ [v]]> (inputs n0)) n0).
  set (σ1 := alter push self σ).
  set (σ2 := alter append p σ1).
  set (σ3 := alter (set_last_port_dir (Some d)) self σ2).
  assert (σ1 !! self = Some (push n)) as H1
    by (unfold σ1; by rewrite list_lookup_alter_eq, Hself).
  assert (exists np1, σ1 !! p = Some np1 /\ is_log np1 = false)
    as (np1 & Hp1 & Hlog1).
  { unfold σ1. rewrite list_lookup_alter. case_decide as E.
    - subst p. rewrite Hself in Hp. injection Hp as <-.
      rewrite Hself. by eexists.
    - by eexists. }
  assert (queue σ3 p (_opposite_directions d)
          = queue σ p (_opposite_directions d) ++ [v]) as Hq.
  { unfold σ3. rewrite queue_alter_same by done.
    unfold σ2, append. erewrite queue_alter_append by done.
    unfold σ1. by rewrite queue_alter_same. }
  assert (exists np3, σ3 !! p = Some np3) as [np3 Hp3].
  { apply lookup_lt_is_Some_2. unfold σ3, σ2, σ1. rewrite !length_alter.
    by eapply lookup_lt_Some. }
  exists σ3. split; [|split; [done|]].
  - unfold _write_output, bind at 1.
    change (push_mode self WRITE σ) with (Done tt σ1 : step unit).
    unfold bind at 1. erewrite get_attached_node_at by done.
    change (attached_nodes (push n) !! d) with (attached_nodes n !! d).
    rewrite Hd. unfold bind at 1.
    assert (write_input p (_opposite_directions d) v σ1 = Done tt σ2) as ->.
    { unfold write_input, bind, get. by rewrite Hp1, Hlog1. }
    unfold bind at 1.
    change (modify self (set_last_port_dir (Some d)) σ2)
      with (Done tt σ3 : step unit).
    unfold _write_output_wait, bind, get. rewrite Hp3.
    assert (has_inputs np3 (_opposite_directions d) = true) as ->; [|done].
    eapply has_inputs_true_queue; [done|]. rewrite Hq.
    by destruct (queue σ p (_opposite_directions d)).
  - unfold σ3. rewrite list_lookup_alter_eq.
    unfold σ2. rewrite list_lookup_alter. case_decide as E.
    + subst p. rewrite H1. cbn. unfold mode_of. cbn. by rewrite last_snoc.
    + rewrite H1. cbn. unfold mode_of. cbn. by rewrite last_snoc.
Qed.

Lemma resume_WriteBlocked_waits (σ : Store) self p np d :
  σ !! p = Some np ->
  has_inputs np d = true ->
  resume self (WriteBlocked p d) σ = Yielded (WriteBlocked p d) σ.
Proof.
  intros Hp Hi. cbn. unfold _write_output_wait, bind, get.
  by rewrite Hp, Hi.
Qed.

(** C1, as the code has it.  A blocking write appends its value to the
    neighbour's queue when it starts, without looking at what the queue
    holds, and the writer then stays suspended in that write, in WRITE
    mode and without appending again, for as long as the queue is not
    empty.  Consequently, in a run where no program writes to ANY, every
    input port has at most one node attached towards it, and the host
    buffers values only for ports that no node is attached towards, every
    queue holds at most one value in every state the scheduler reaches, and
    a value in a queue that a node is attached towards is the value of a
    write in which that node is still suspended. *)
Theorem one_value_per_port :
  (forall t0 (σ0 : Store) t r σ,
      NoDup (nodes t0) ->
      single_writer σ0 ->
      Forall no_any_dest σ0 ->
      host_ports_free t0 σ0 ->
      (forall p d, queue σ0 p d = []) ->
      reachable t0 σ0 t r σ ->
      (forall p d, (length (queue σ p d) <= 1)%nat)
      /\ (forall w D p,
            peer σ w D = Some p ->
            queue σ p (_opposite_directions D) ≠ [] ->
            (w, SuspendedAt (WriteBlocked p (_opposite_directions D)))
              ∈ node_runs r))
  /\ (forall (σ : Store) self n d p np v,
        σ !! self = Some n ->
        attached_nodes n !! d = Some p ->
        σ !! p = Some np ->
        is_log np = false ->
        exists σ',
          _write_output self (Some d) v σ
          = Yielded (WriteBlocked p (_opposite_directions d)) σ'
          /\ queue σ' p (_opposite_directions d)
             = queue σ p (_opposite_directions d) ++ [v]
          /\ mode_of <$> σ' !! self = Some (Some WRITE))
  /\ (forall (σ : Store) self p np d,
        σ !! p = Some np ->
        has_inputs np d = true ->
        resume self (WriteBlocked p d) σ = Yielded (WriteBlocked p d) σ).
Proof.
  split; [|split].
  - intros t0 σ0 t r σ Hnd Hsw Hno Hhost Hempty Hreach.
    destruct (one_in_flight_reachable t0 σ0 t r σ Hnd Hsw Hno Hhost Hempty
                Hreach) as ((_ & _ & Hl & Hfl & _) & _).
    by split.
  - apply _write_output_appends.
  - apply resume_WriteBlocked_waits.
Qed.

Lemma pair_single_writer : single_writer pair_heap.
Proof.
  intros w1 w2 D1 D2 p H1 H2 HD.
  destruct w1 as [|[|w1]], w2 as [|[|w2]]; try done;
    destruct D1, D2; try done; by vm_compute in H1, H2.
Qed.

Lemma pair_no_any_dest : Forall no_any_dest pair_heap.
Proof.
  repeat apply Forall_cons_2; [| |apply Forall_nil_2];
    intros l op a1 a2 [= <-] Hin;
    apply list_elem_of_singleton in Hin; by injection Hin as -> -> ->.
Qed.

Lemma one_value_per_port_witness :
  exists t r σ,
    TIS_run_nexts 4 1 pair_tis (TIS_run_start pair_tis pair_heap) pair_heap
    = TIS_yield t r σ
    /\ queue σ 1%nat LEFT = [1]
    /\ ((forall p d, (length (queue σ p d) <= 1)%nat)
        /\ (forall w D p,
              peer σ w D = Some p ->
              queue σ p (_opposite_directions D) ≠ [] ->
              (w, SuspendedAt (WriteBlocked p (_opposite_directions D)))
                ∈ node_runs r)).
Proof.
  eexists _, _, _. split; [vm_compute; reflexivity|].
  split; [vm_compute; reflexivity|].
  eapply (proj1 one_value_per_port pair_tis pair_heap).
  - apply NoDup_cons_2; [set_solver|apply NoDup_singleton].
  - apply pair_single_writer.
  - apply pair_no_any_dest.
  - intros w D p _. reflexivity.
  - intros p d. by destruct p as [|[|p]], d.
  - apply (TIS_run_nexts_reachable pair_tis pair_heap 4 1 pair_tis
             (TIS_run_start pair_tis pair_heap) pair_heap);
      [apply reachable_start|].
    vm_compute. reflexivity.
Defined.

(** * Further properties of the interpreter *)

(** ** Registers *)

Lemma exec_NEG (σ : Store) self n :
  σ !! self = Some n ->
  exec 1 "NEG" None None self σ = Done tt (<[self := set_acc (- acc n) n]> σ).
Proof. intros Hself. unfold exec. cbn. unfold _neg. by run. Qed.

(** NEG executed twice, and SWP executed twice, leave the whole heap as it
    was. *)
Theorem neg_and_swp_are_involutions :
  forall (σ : Store) self n,
    σ !! self = Some n ->
    (do! exec 1 "NEG" None None self in exec 1 "NEG" None None self) σ
    = Done tt σ
    /\ (do! exec 1 "SWP" None None self in exec 1 "SWP" None None self) σ
       = Done tt σ.
Proof.
  intros σ self n Hself. unfold bind. split.
  - erewrite exec_NEG by done. erewrite exec_NEG by at_self.
    rewrite upd_upd. cbn. rewrite Z.opp_involutive.
    replace (set_acc (acc n) _) with n by (by destruct n).
    by rewrite upd_id.
  - erewrite exec_SWP by done. erewrite exec_SWP by at_self.
    rewrite upd_upd. cbn.
    replace (set_acc (acc n) _) with n by (by destruct n).
    by rewrite upd_id.
Qed.

Lemma neg_and_swp_are_involutions_witness :
  (do! exec 1 "NEG" None None 0%nat in exec 1 "NEG" None None 0%nat)
    [set_bak 2 (set_acc 1 new_Node)]
  = Done tt [set_bak 2 (set_acc 1 new_Node)].
Proof.
  apply (neg_and_swp_are_involutions [set_bak 2 (set_acc 1 new_Node)] 0%nat
           (set_bak 2 (set_acc 1 new_Node))).
  reflexivity.
Defined.

(** ** Operands that are rejected *)

(** LAST before any port has been used: [_last_port_dir] is [None], and
    the assertion of [get_attached_node] fails, for a read and for a
    write. *)
Theorem unset_LAST_raises :
  forall (σ : Store) self n k v,
    σ !! self = Some n ->
    _last_port_dir n = None ->
    _read_src self (Some "LAST"%string) k σ = Raised AssertionError
    /\ _write_dest self (Some "LAST"%string) v σ = Raised AssertionError.
Proof.
  intros σ self n k v Hself Hlast. split.
  - unfold _read_src. run. rewrite Hlast. unfold _read_input. run.
    erewrite push_mode_at by done. by run.
  - unfold _write_dest. run. rewrite Hlast. unfold _write_output. run.
    erewrite push_mode_at by done. by run.
Qed.

Lemma unset_LAST_raises_witness :
  _read_src 0%nat (Some "LAST"%string) InAdd [new_Node]
  = Raised AssertionError.
Proof.
  apply (unset_LAST_raises [new_Node] 0%nat new_Node InAdd 0); reflexivity.
Defined.

(** BAK is refused as a source, a missing source makes [int] fail with
    [TypeError], and a token that is neither a name nor a number with
    [ValueError]; a destination outside ACC, NIL, the four ports, ANY and
    LAST fails the assertion of [_write_dest], BAK and numbers included. *)
Theorem bad_operands_raise :
  forall (σ : Store) self k v,
    _read_src self (Some "BAK"%string) k σ = Raised AssertionError
    /\ _read_src self None k σ = Raised TypeError
    /\ (forall s,
          py_int s = None ->
          Forall (fun name => tok_is (Some s) name = false)
            ["BAK"; "ACC"; "NIL"; "UP"; "DOWN"; "LEFT"; "RIGHT"; "ANY";
             "LAST"]%string ->
          _read_src self (Some s) k σ = Raised ValueError)
    /\ (forall dest,
          Forall (fun name => tok_is dest name = false)
            ["ACC"; "NIL"; "UP"; "DOWN"; "LEFT"; "RIGHT"; "ANY";
             "LAST"]%string ->
          _write_dest self dest v σ = Raised AssertionError)
    /\ _write_dest self (Some "BAK"%string) v σ = Raised AssertionError
    /\ _write_dest self (Some "5"%string) v σ = Raised AssertionError.
Proof.
  intros σ self k v.
  assert (forall dest,
             Forall (fun name => tok_is dest name = false)
               ["ACC"; "NIL"; "UP"; "DOWN"; "LEFT"; "RIGHT"; "ANY";
                "LAST"]%string ->
             _write_dest self dest v σ = Raised AssertionError) as Hdest.
  { intros dest H. unfold _write_dest.
    repeat (apply Forall_cons_1 in H as [-> H]). reflexivity. }
  split; [reflexivity|]. split; [reflexivity|]. split; [|split; [done|]].
  - intros s Hs H. unfold _read_src.
    repeat (apply Forall_cons_1 in H as [-> H]). cbn. by rewrite Hs.
  - split; apply Hdest; repeat constructor.
Qed.

Lemma bad_operands_raise_witness :
  _read_src 0%nat (Some "TOP"%string) InAdd [new_Node] = Raised ValueError.
Proof.
  apply (bad_operands_raise [new_Node] 0%nat InAdd 0); [reflexivity|].
  repeat constructor.
Defined.

(** ** Fetch and dispatch *)

(** The fetch at the ends of the program: past the last instruction it
    starts again at index 0, a negative [next_iptr] counts from the end as
    Python's indexing does and fails below [-len(ops)], and a node without
    a program, or with an empty one, cannot fetch at all. *)
Theorem fetch_wraps_around :
  forall (σ : Store) self n,
    σ !! self = Some n ->
    (ops n = None -> get_next_op self σ = Raised TypeError)
    /\ (ops n = Some [] -> get_next_op self σ = Raised IndexError)
    /\ (forall i l,
          ops n = Some (i :: l) ->
          Z.of_nat (length (i :: l)) <= next_iptr n ->
          get_next_op self σ
          = Done i (<[self := set_iptr 0 (set_next_iptr 0 n)]> σ))
    /\ (forall i l,
          ops n = Some l ->
          - Z.of_nat (length l) <= next_iptr n < 0 ->
          l !! Z.to_nat (Z.of_nat (length l) + next_iptr n) = Some i ->
          get_next_op self σ = Done i (<[self := set_iptr (next_iptr n) n]> σ))
    /\ (forall l,
          ops n = Some l ->
          next_iptr n < - Z.of_nat (length l) ->
          get_next_op self σ = Raised IndexError).
Proof.
  intros σ self n Hself. repeat split.
  - intros Hops. unfold get_next_op. run. by rewrite Hops.
  - intros Hops. unfold get_next_op. run. rewrite Hops. cbn.
    erewrite modify_at by done.
    assert (forall i, py_index (@nil instr) i = None) as ->; [|done].
    intros i. unfold py_index. cbn. by repeat case_match.
  - intros i l Hops Hlen. erewrite get_next_op_at; [| done | done |].
    + unfold fetch_index. by rewrite (proj2 (Z.leb_le _ _) Hlen).
    + unfold fetch_index. by rewrite (proj2 (Z.leb_le _ _) Hlen).
  - intros i l Hops Hlen Hi.
    assert (fetch_index n l = next_iptr n) as Hf.
    { unfold fetch_index. rewrite (proj2 (Z.leb_gt _ _)); [done|lia]. }
    erewrite get_next_op_at; [| done | done |].
    + rewrite Hf. by destruct n.
    + rewrite Hf. unfold py_index.
      rewrite (proj2 (Z.leb_gt _ _)) by lia.
      by rewrite (proj2 (Z.leb_le _ _)) by lia.
  - intros l Hops Hlen. unfold get_next_op. run. rewrite Hops. cbn.
    rewrite (proj2 (Z.leb_gt _ _)) by lia. run.
    unfold py_index.
    rewrite (proj2 (Z.leb_gt _ _)) by lia.
    by rewrite (proj2 (Z.leb_gt _ _)) by lia.
Qed.

Lemma fetch_wraps_around_witness :
  get_next_op 0%nat [set_next_iptr 1 nop_node]
  = Done ("NOP"%string, None, None)
      (<[0%nat := set_iptr 0 (set_next_iptr 0 (set_next_iptr 1 nop_node))]>
         [set_next_iptr 1 nop_node]).
Proof.
  refine (proj1 (proj2 (proj2
            (fetch_wraps_around [set_next_iptr 1 nop_node] 0%nat
               (set_next_iptr 1 nop_node) eq_refl))) _ [] eq_refl _).
  cbn. lia.
Defined.

(** An instruction whose name is not one of the thirteen opcodes fails the
    assertion of [Node.run] when it is fetched. *)
Theorem unknown_opcode_raises :
  forall (σ : Store) self n l op a1 a2 fuel,
    σ !! self = Some n ->
    ops n = Some l ->
    py_index l (fetch_index n l) = Some (op, a1, a2) ->
    op_table op = None ->
    Node_run_next fuel self NotStarted σ = Failed AssertionError.
Proof.
  intros σ self n l op a1 a2 fuel Hself Hops Hop Htable.
  unfold Node_run_next, dispatch. run.
  erewrite push_mode_at by done. run.
  erewrite get_next_op_at; [| at_self | done | done]. run.
  rewrite Htable. by destruct fuel.
Qed.

Lemma unknown_opcode_raises_witness :
  Node_run_next 1 0%nat NotStarted
    [load_bytecode ([("HCF"%string, None, None)], ∅) new_Node]
  = Failed AssertionError.
Proof.
  eapply (unknown_opcode_raises _ 0%nat _ _ "HCF"%string None None);
    reflexivity.
Defined.

(** ** Jumps *)

(** JMP sets [next_iptr] to the index bound to its label and yields once,
    so that the next fetch is from that index; a label that the program
    does not define fails the assertion.  A conditional jump whose
    condition holds is that same jump. *)
Theorem jumps_go_to_the_label :
  forall (σ : Store) self n lbls L a2,
    σ !! self = Some n ->
    labels n = Some lbls ->
    (forall target,
        lbls !! L = Some target ->
        call H_jmp self (Some L) a2 σ
        = Yielded Tail (<[self := set_next_iptr target n]> σ))
    /\ (lbls !! L = None ->
        call H_jmp self (Some L) a2 σ = Raised AssertionError)
    /\ (acc n = 0 ->
        call H_jez self (Some L) a2 σ = call H_jmp self (Some L) a2 σ)
    /\ (acc n <> 0 ->
        call H_jnz self (Some L) a2 σ = call H_jmp self (Some L) a2 σ)
    /\ (0 < acc n ->
        call H_jgz self (Some L) a2 σ = call H_jmp self (Some L) a2 σ)
    /\ (acc n < 0 ->
        call H_jlz self (Some L) a2 σ = call H_jmp self (Some L) a2 σ).
Proof.
  intros σ self n lbls L a2 Hself Hlbls. repeat split.
  - intros target HL. cbn. unfold _jmp. run. rewrite Hlbls. cbn.
    rewrite HL. by run.
  - intros HL. cbn. unfold _jmp. run. rewrite Hlbls. cbn. by rewrite HL.
  - intros Hacc. cbn. unfold _jez. run. by rewrite Hacc.
  - intros Hacc. cbn. unfold _jnz. run.
    by rewrite (proj2 (Z.eqb_neq _ _) Hacc).
  - intros Hacc. cbn. unfold _jgz. run.
    by rewrite (proj2 (Z.ltb_lt _ _) Hacc).
  - intros Hacc. cbn. unfold _jlz. run.
    by rewrite (proj2 (Z.ltb_lt _ _) Hacc).
Qed.

Lemma jumps_go_to_the_label_witness :
  call H_jmp 0%nat (Some "L"%string) None
    [load_bytecode ([("JMP"%string, Some "L"%string, None)],
                    {[ "L"%string := 0 ]}) new_Node]
  = Yielded Tail
      (<[0%nat := set_next_iptr 0
                    (load_bytecode ([("JMP"%string, Some "L"%string, None)],
                                    {[ "L"%string := 0 ]}) new_Node)]>
         [load_bytecode ([("JMP"%string, Some "L"%string, None)],
                         {[ "L"%string := 0 ]}) new_Node]).
Proof.
  eapply (jumps_go_to_the_label _ 0%nat _ {[ "L"%string := 0 ]});
    reflexivity.
Defined.

(** ** Ports *)

Lemma lookup_upd_ne (σ : Store) r r' (n' : Node) :
  r ≠ r' -> <[r := n']> σ !! r' = σ !! r'.
Proof. intros. by apply list_lookup_insert_ne. Qed.

Lemma upd_comm (σ : Store) r r' (a b : Node) :
  r ≠ r' -> <[r := a]> (<[r' := b]> σ) = <[r' := b]> (<[r := a]> σ).
Proof. intros. by apply list_insert_insert_ne. Qed.
Lemma has_inputs_false_default n d :
  has_inputs n d = false -> default [] (inputs n !! d) = [].
Proof. unfold has_inputs. by destruct (default [] (inputs n !! d)). Qed.


(** A blocking read of an empty queue pushes READ and suspends, and stays
    suspended without touching the heap for as long as the queue is empty.
    Once the queue holds values it takes the oldest one, records the
    direction in [_last_port_dir], pops the READ frame and yields the
    value. *)
Theorem blocking_read_waits_then_takes_oldest :
  forall (σ : Store) self n d k,
    σ !! self = Some n ->
    (has_inputs n d = false ->
     _read_input self (Some d) k σ
     = Yielded (ReadBlocked d k) (<[self := set_mode (_mode n ++ [READ]) n]> σ)
     /\ resume self (ReadBlocked d k) σ = Yielded (ReadBlocked d k) σ)
    /\ (forall v rest,
          inputs n !! d = Some (v :: rest) ->
          _read_input self (Some d) k σ
          = Yielded (SrcYielded k v)
              (<[self := set_last_port_dir (Some d)
                           (set_inputs (<[d := rest]> (inputs n)) n)]> σ)
          /\ forall st m,
               _mode n = st ++ [m] ->
               resume self (ReadBlocked d k) σ
               = Yielded (SrcYielded k v)
                   (<[self := set_mode st
                                (set_last_port_dir (Some d)
                                   (set_inputs (<[d := rest]> (inputs n))
                                      n))]> σ)).
Proof.
  intros σ self n d k Hself. split.
  - intros Hempty. split.
    + unfold _read_input. run. erewrite push_mode_at by done. run.
      erewrite get_attached_node_at by at_self. cbn.
      unfold _read_input_wait. run. autorewrite with node.
      by rewrite Hempty.
    + cbn. unfold _read_input_wait. run. by rewrite Hempty.
  - intros v rest Hq.
    assert (has_inputs n d = true) as Hhas
      by (unfold has_inputs; by rewrite Hq).
    split.
    + unfold _read_input. run. erewrite push_mode_at by done. run.
      erewrite get_attached_node_at by at_self. cbn.
      unfold _read_input_wait. run. autorewrite with node. rewrite Hhas.
      run. erewrite _read_input_take_at; [| at_self | apply Hq | reflexivity].
      rewrite upd_upd. by destruct n.
    + intros st m Hm. cbn. unfold _read_input_wait. run. rewrite Hhas. run.
      by erewrite _read_input_take_at.
Qed.

Lemma blocking_read_waits_then_takes_oldest_witness :
  resume 0%nat (ReadBlocked UP InAdd) [new_Node]
  = Yielded (ReadBlocked UP InAdd) [new_Node].
Proof.
  refine (proj2 (proj1 (blocking_read_waits_then_takes_oldest
                          [new_Node] 0%nat new_Node UP InAdd eq_refl)
                   eq_refl)).
Defined.

(** A blocking write towards a [LogNode] never waits: the value is added
    to [seen_inputs], the input queues of the log node stay as they are,
    and the writer yields [True] with its WRITE frame popped and the
    direction recorded. *)
Theorem write_to_LogNode_completes :
  forall (σ : Store) self n d p np v,
    σ !! self = Some n ->
    attached_nodes n !! d = Some p ->
    p ≠ self ->
    σ !! p = Some np ->
    is_log np = true ->
    has_inputs np (_opposite_directions d) = false ->
    _write_output self (Some d) v σ
    = Yielded WriteYieldedTrue
        (<[self := set_last_port_dir (Some d) n]>
           (<[p := set_seen_inputs (seen_inputs np ++ [v]) np]> σ)).
Proof.
  intros σ self n d p np v Hself Hd Hne Hp Hlog Hempty.
  unfold _write_output. run. erewrite push_mode_at by done. run.
  erewrite get_attached_node_at by at_self. cbn. rewrite Hd.
  unfold write_input, bind.
  erewrite get_at by (rewrite lookup_upd_ne; done).
  rewrite Hlog.
  erewrite modify_at by (rewrite lookup_upd_ne; done).
  erewrite modify_at
    by (rewrite lookup_upd_ne by done; eapply lookup_upd; eassumption).
  unfold _write_output_wait, bind.
  erewrite get_at;
    [|rewrite lookup_upd_ne by done; eapply lookup_upd;
      rewrite lookup_upd_ne; done].
  autorewrite with node. rewrite Hempty.
  erewrite pop_mode_at;
    [| eapply lookup_upd; rewrite lookup_upd_ne by done;
       eapply lookup_upd; eassumption
     | reflexivity].
  unfold yield. f_equal.
  rewrite upd_upd, (upd_comm _ self p) by done. rewrite upd_upd.
  rewrite (upd_comm _ self p) by done. by destruct n.
Qed.

Lemma write_to_LogNode_completes_witness :
  _write_output 0%nat (Some DOWN) 5
    [set_attached_nodes {[ DOWN := 1%nat ]} new_Node; new_LogNode]
  = Yielded WriteYieldedTrue
      (<[0%nat := set_last_port_dir (Some DOWN)
                    (set_attached_nodes {[ DOWN := 1%nat ]} new_Node)]>
         (<[1%nat := set_seen_inputs (seen_inputs new_LogNode ++ [5])
                       new_LogNode]>
            [set_attached_nodes {[ DOWN := 1%nat ]} new_Node; new_LogNode])).
Proof.
  apply (write_to_LogNode_completes
           [set_attached_nodes {[ DOWN := 1%nat ]} new_Node; new_LogNode]
           0%nat (set_attached_nodes {[ DOWN := 1%nat ]} new_Node)
           DOWN 1%nat new_LogNode 5);
    [reflexivity | reflexivity | discriminate | reflexivity..].
Defined.

(** The handshake of a blocking write with a blocking read, on a port
    whose queue is empty: the writer is suspended with its value in the
    neighbour's queue, the neighbour's read of the opposite port yields
    exactly that value, and the writer, resumed after it, completes.  At
    the end the queue is empty again, both mode stacks are as they were,
    and each node has recorded the direction it used. *)
Theorem port_round_trip :
  forall (σ : Store) w nw d r nr v k,
    σ !! w = Some nw ->
    attached_nodes nw !! d = Some r ->
    r ≠ w ->
    σ !! r = Some nr ->
    is_log nr = false ->
    has_inputs nr (_opposite_directions d) = false ->
    exists σ1 σ2,
      _write_output w (Some d) v σ
      = Yielded (WriteBlocked r (_opposite_directions d)) σ1
      /\ _read_input r (Some (_opposite_directions d)) k σ1
         = Yielded (SrcYielded k v) σ2
      /\ resume w (WriteBlocked r (_opposite_directions d)) σ2
         = Yielded WriteYieldedTrue
             (<[w := set_last_port_dir (Some d) nw]>
                (<[r := set_last_port_dir (Some (_opposite_directions d))
                          (set_inputs
                             (<[_opposite_directions d := []]> (inputs nr))
                             nr)]> σ)).
Proof.
  intros σ w nw d r nr v k Hw Hd Hne Hr Hlog Hempty.
  assert (forall q, has_inputs
            (set_inputs (<[_opposite_directions d := q]> (inputs nr)) nr)
            (_opposite_directions d) = bool_decide (q ≠ [])) as Hh.
  { intros q. unfold has_inputs. cbn. rewrite lookup_insert_eq.
    by destruct q. }
  assert (forall a b, <[w := a]> (<[r := b]> σ) !! r = Some b) as Hlr.
  { intros a b. rewrite lookup_upd_ne by done. by eapply lookup_upd. }
  assert (forall a b, <[w := a]> (<[r := b]> σ) !! w = Some a) as Hlw.
  { intros a b. eapply lookup_upd. by rewrite lookup_upd_ne. }
  exists (<[w := set_last_port_dir (Some d)
                    (set_mode (_mode nw ++ [WRITE]) nw)]>
            (<[r := set_inputs (<[_opposite_directions d := [v]]> (inputs nr))
                      nr]> σ)),
         (<[w := set_last_port_dir (Some d)
                    (set_mode (_mode nw ++ [WRITE]) nw)]>
            (<[r := set_last_port_dir (Some (_opposite_directions d))
                      (set_inputs
                         (<[_opposite_directions d := []]> (inputs nr))
                         nr)]> σ)).
  split; [|split].
  - unfold _write_output. run. erewrite push_mode_at by done. run.
    erewrite get_attached_node_at by at_self. cbn. rewrite Hd.
    unfold write_input, bind.
    erewrite get_at by (rewrite lookup_upd_ne; done).
    rewrite Hlog.
    erewrite modify_at by (rewrite lookup_upd_ne; done).
    rewrite has_inputs_false_default by done. cbn.
    rewrite (upd_comm _ r w) by done.
    erewrite modify_at by apply Hlw. rewrite upd_upd.
    unfold _write_output_wait, bind.
    erewrite get_at by apply Hlr. by rewrite Hh.
  - unfold _read_input. run. erewrite push_mode_at by apply Hlr. run.
    rewrite (upd_comm _ r w), upd_upd by done.
    erewrite get_attached_node_at by apply Hlr. cbn.
    unfold _read_input_wait, bind. erewrite get_at by apply Hlr.
    autorewrite with node. rewrite Hh. cbn.
    erewrite _read_input_take_at;
      [| apply Hlr | cbn; apply lookup_insert_eq | reflexivity].
    unfold yield. f_equal.
    rewrite (upd_comm _ r w), upd_upd by done. do 2 f_equal.
    cbn. rewrite insert_insert_eq. by destruct nr.
  - cbn. unfold _write_output_wait, bind. erewrite get_at by apply Hlr.
    autorewrite with node. rewrite Hh. cbn.
    erewrite pop_mode_at; [| apply Hlw | reflexivity].
    by rewrite upd_upd.
Qed.

Lemma port_round_trip_witness :
  exists σ1 σ2,
    _write_output 0%nat (Some RIGHT) 5 pair_heap
    = Yielded (WriteBlocked 1%nat LEFT) σ1
    /\ _read_input 1%nat (Some LEFT) InAdd σ1 = Yielded (SrcYielded InAdd 5) σ2
    /\ resume 0%nat (WriteBlocked 1%nat LEFT) σ2
       = Yielded WriteYieldedTrue
           (<[0%nat := set_last_port_dir (Some RIGHT)
                         (set_attached_nodes {[ RIGHT := 1%nat ]}
                            (load_bytecode
                               ([("MOV", Some "1", Some "RIGHT")]%string, ∅)
                               new_Node))]>
              (<[1%nat := set_last_port_dir (Some LEFT)
                            (set_inputs
                               (<[LEFT := []]>
                                  (inputs
                                     (set_attached_nodes {[ LEFT := 0%nat ]}
                                        (load_bytecode
                                           ([("NOP", None, None)]%string, ∅)
                                           new_Node))))
                               (set_attached_nodes {[ LEFT := 0%nat ]}
                                  (load_bytecode
                                     ([("NOP", None, None)]%string, ∅)
                                     new_Node)))]> pair_heap)).
Proof.
  apply (port_round_trip pair_heap 0%nat _ RIGHT 1%nat _ 5 InAdd);
    [reflexivity | reflexivity | discriminate | reflexivity..].
Defined.

(** ** The scheduler loop *)

Lemma inject_nodes t node (σ : Store) t' σ' :
  inject t node σ = Done t' σ' -> nodes t' = nodes t.
Proof.
  unfold inject. destruct (buffered_input t !! node); [|by intros [= <- _]].
  unfold bind, get. destruct (σ !! node); [|done].
  destruct (mode_of n); [|done].
  case_bool_decide; [|by intros [= <- _]].
  destruct (inject_scan _ _) as [[[d v] rest]|]; [|by intros [= <- _]].
  destruct (write_input node d v σ); [|done..]. by intros [= <- _].
Qed.

Lemma TIS_run_nexts_pos k : forall fuel t r (σ : Store) t' r' σ',
  (pos r < length (node_runs r))%nat ->
  TIS_run_nexts k fuel t r σ = TIS_yield t' r' σ' ->
  nodes t' = nodes t
  /\ (node_runs r').*1 = (node_runs r).*1
  /\ pos r' = ((pos r + k) mod length (node_runs r))%nat.
Proof.
  induction k as [|k IH]; intros fuel t r σ t' r' σ' Hpos; cbn.
  - intros [= <- <- <-]. rewrite Nat.add_0_r, Nat.mod_small by done. done.
  - destruct (TIS_run_next fuel t r σ) as [t1 r1 σ1| |] eqn:E; [|done..].
    intros H.
    pose proof (TIS_run_next_same_nodes _ _ _ _ _ _ _ E) as Hfst.
    apply TIS_run_next_inv in E
      as (node & g & σ2 & fr & Hl & Hinj & _ & Hruns & Hp).
    assert (length (node_runs r1) = length (node_runs r)) as Hlen
      by (by rewrite Hruns, length_insert).
    apply IH in H as (Hn & Hf & Hp').
    + split; [by rewrite Hn; eapply inject_nodes|].
      split; [by rewrite Hf|].
      rewrite Hp', Hlen, Hp. case_bool_decide as Hlt.
      * f_equal. lia.
      * assert (S (pos r) = length (node_runs r)) as Heq by lia.
        replace (pos r + S k)%nat with (length (node_runs r) + k)%nat by lia.
        cbn. rewrite <- Nat.Div0.add_mod_idemp_l, Nat.Div0.mod_same. done.
    + rewrite Hlen, Hp. case_bool_decide; lia.
Qed.

(** The scheduler is a round robin over the nodes that had a program when
    the run started, in the order of [tis.nodes]: that list never changes,
    and after [k] turns the loop stands at position [k] modulo its
    length. *)
Theorem scheduler_is_round_robin :
  forall k fuel t0 (σ0 : Store) t r σ,
    TIS_run_nexts k fuel t0 (TIS_run_start t0 σ0) σ0 = TIS_yield t r σ ->
    nodes t = nodes t0
    /\ (node_runs r).*1
       = filter (fun node => node_is_loaded σ0 node = true) (nodes t0)
    /\ pos r = (k mod length (node_runs r))%nat.
Proof.
  intros k fuel t0 σ0 t r σ H.
  assert ((node_runs (TIS_run_start t0 σ0)).*1
          = filter (fun node => node_is_loaded σ0 node = true) (nodes t0))
    as Hstart.
  { unfold TIS_run_start. cbn. rewrite <- list_fmap_compose.
    erewrite list_fmap_ext; [by rewrite list_fmap_id|done]. }
  destruct k as [|k].
  - cbn in H. injection H as <- <- <-. rewrite Hstart.
    repeat split. cbn [pos TIS_run_start]. by rewrite Nat.Div0.mod_0_l.
  - assert (pos (TIS_run_start t0 σ0)
            < length (node_runs (TIS_run_start t0 σ0)))%nat as Hpos.
    { cbn in H. unfold TIS_run_next in H.
      destruct (node_runs (TIS_run_start t0 σ0) !! pos (TIS_run_start t0 σ0))
        eqn:E; [|done].
      by eapply lookup_lt_Some. }
    apply TIS_run_nexts_pos in H as (Hn & Hf & Hp); [|done].
    split; [done|]. split; [by rewrite Hf|].
    rewrite Hp. cbn [pos TIS_run_start].
    rewrite Nat.add_0_l. f_equal.
    by rewrite <- (length_fmap fst), <- Hf, length_fmap.
Qed.

Lemma scheduler_is_round_robin_witness :
  exists t r σ,
    TIS_run_nexts 3 1 pair_tis (TIS_run_start pair_tis pair_heap) pair_heap
    = TIS_yield t r σ
    /\ nodes t = nodes pair_tis /\ pos r = 1%nat.
Proof.
  destruct (TIS_run_nexts 3 1 pair_tis (TIS_run_start pair_tis pair_heap)
              pair_heap) as [t r σ| |] eqn:E;
    [|vm_compute in E; discriminate..].
  exists t, r, σ.
  destruct (scheduler_is_round_robin 3 1 pair_tis pair_heap t r σ E)
    as (Hn & Hf & Hp).
  repeat split; [done|]. rewrite Hp.
  rewrite <- (length_fmap fst), Hf. reflexivity.
Defined.

(** ** The wiring *)

Lemma peer_alter_attach (σ : Store) r d q w D n :
  σ !! r = Some n ->
  peer (alter (fun n => set_attached_nodes (<[d := q]> (attached_nodes n)) n)
          r σ) w D
  = if bool_decide ((w, D) = (r, d)) then Some q else peer σ w D.
Proof.
  intros Hr. unfold peer. rewrite list_lookup_alter.
  case_decide as E.
  - subst w. rewrite Hr. cbn. case_bool_decide as E2.
    + injection E2 as ->. by rewrite lookup_insert_eq.
    + rewrite lookup_insert_ne; [done|]. intros ->. done.
  - rewrite bool_decide_false; [done|]. intros [= -> _]. done.
Qed.

Lemma _opposite_directions_involutive d :
  _opposite_directions (_opposite_directions d) = d.
Proof. by destruct d. Qed.

(** [attach_node] links the node to the other one in the given direction
    and, unless [bidi] is false, the other one back in the opposite
    direction; no other link of the heap changes. *)
Theorem attach_node_links_both_ways :
  forall (σ : Store) a b d na,
    σ !! a = Some na ->
    (forall nb,
        σ !! b = Some nb ->
        exists σ',
          attach_node a b d true σ = Done tt σ'
          /\ peer σ' a d = Some b
          /\ peer σ' b (_opposite_directions d) = Some a
          /\ forall w D,
               (w, D) ≠ (a, d) -> (w, D) ≠ (b, _opposite_directions d) ->
               peer σ' w D = peer σ w D)
    /\ exists σ',
         attach_node a b d false σ = Done tt σ'
         /\ peer σ' a d = Some b
         /\ forall w D, (w, D) ≠ (a, d) -> peer σ' w D = peer σ w D.
Proof.
  intros σ a b d na Ha. split.
  - intros nb Hb. eexists. split; [|split; [|split]].
    + unfold attach_node. rewrite bool_decide_true by apply in_DIRECTIONS.
      unfold assert, bind, ret, modify. reflexivity.
    + destruct (lookup_lt_is_Some_2
                  (alter (fun n => set_attached_nodes
                                     (<[d := b]> (attached_nodes n)) n) a σ) b)
        as [nb' Hb'].
      { rewrite length_alter. by eapply lookup_lt_Some. }
      erewrite peer_alter_attach by done.
      erewrite peer_alter_attach by done.
      rewrite (bool_decide_true ((a, d) = (a, d))) by done.
      case_bool_decide as E; [|done].
      injection E as -> E. by destruct d.
    + destruct (lookup_lt_is_Some_2
                  (alter (fun n => set_attached_nodes
                                     (<[d := b]> (attached_nodes n)) n) a σ) b)
        as [nb' Hb'].
      { rewrite length_alter. by eapply lookup_lt_Some. }
      erewrite peer_alter_attach by done.
      by rewrite bool_decide_true.
    + intros w D H1 H2.
      destruct (lookup_lt_is_Some_2
                  (alter (fun n => set_attached_nodes
                                     (<[d := b]> (attached_nodes n)) n) a σ) b)
        as [nb' Hb'].
      { rewrite length_alter. by eapply lookup_lt_Some. }
      erewrite peer_alter_attach by done.
      erewrite peer_alter_attach by done.
      by rewrite !bool_decide_false.
  - eexists. split; [|split].
    + unfold attach_node. rewrite bool_decide_true by apply in_DIRECTIONS.
      unfold assert, bind, ret, modify. reflexivity.
    + erewrite peer_alter_attach by done. by rewrite bool_decide_true.
    + intros w D H1. erewrite peer_alter_attach by done.
      by rewrite bool_decide_false.
Qed.

Lemma attach_node_links_both_ways_witness :
  exists σ',
    attach_node 0%nat 1%nat RIGHT true [new_Node; new_Node] = Done tt σ'
    /\ peer σ' 0%nat RIGHT = Some 1%nat
    /\ peer σ' 1%nat (_opposite_directions RIGHT) = Some 0%nat
    /\ forall w D,
         (w, D) ≠ (0%nat, RIGHT) ->
         (w, D) ≠ (1%nat, _opposite_directions RIGHT) ->
         peer σ' w D = peer [new_Node; new_Node] w D.
Proof.
  apply (proj1 (attach_node_links_both_ways [new_Node; new_Node] 0%nat 1%nat
                  RIGHT new_Node eq_refl) new_Node eq_refl).
Defined.

Lemma symmetric_single_writer (σ : Store) :
  symmetric_wiring σ -> single_writer σ.
Proof.
  intros Hs w1 w2 D1 D2 p H1 H2 HD.
  apply Hs in H1. apply Hs in H2. rewrite HD in H1. congruence.
Qed.

Lemma grid_symmetric : symmetric_wiring standard_grid.2.
Proof.
  intros w D p.
  do 12 (destruct w as [|w];
         [destruct D; vm_compute; intros [= <-]; reflexivity|]).
  vm_compute. discriminate.
Qed.

Lemma grid_peer x y D :
  (x < MAX_NODES_X)%nat -> (y < MAX_NODES_Y)%nat ->
  peer standard_grid.2 (MAX_NODES_X * y + x)%nat D = grid_neighbour x y D.
Proof.
  unfold MAX_NODES_X, MAX_NODES_Y. intros Hx Hy.
  destruct x as [|[|[|[|x]]]]; [| | | |lia];
    (destruct y as [|[|[|y]]]; [| | |lia]);
    destruct D; vm_compute; reflexivity.
Qed.

(** The heap that [TIS()] builds: twelve nodes that are fresh apart from
    their links, numbered row by row; each is linked to the cells next to
    it in the grid and to nothing else, every link has its return link,
    and so every input port has at most one node attached towards it. *)
Theorem grid_is_wired_by_coordinates :
  nodes standard_grid.1 = seq 0 (MAX_NODES_X * MAX_NODES_Y)
  /\ Forall (fun n => set_attached_nodes ∅ n = new_Node) standard_grid.2
  /\ (forall x y D,
        (x < MAX_NODES_X)%nat -> (y < MAX_NODES_Y)%nat ->
        peer standard_grid.2 (MAX_NODES_X * y + x)%nat D
        = grid_neighbour x y D)
  /\ symmetric_wiring standard_grid.2
  /\ single_writer standard_grid.2.
Proof.
  split; [vm_compute; reflexivity|].
  split; [repeat constructor|].
  split; [apply grid_peer|].
  split; [apply grid_symmetric|].
  apply symmetric_single_writer, grid_symmetric.
Qed.

Lemma grid_is_wired_by_coordinates_witness :
  peer standard_grid.2 (MAX_NODES_X * 1 + 2)%nat UP = Some 2%nat.
Proof.
  refine (eq_trans
            (proj1 (proj2 (proj2 grid_is_wired_by_coordinates)) 2%nat 1%nat UP
               _ _) _).
  - unfold MAX_NODES_X. lia.
  - unfold MAX_NODES_Y. lia.
  - reflexivity.
Defined.

(** The invariant of one value per port on the machine that [TIS()]
    builds.  Whatever programs are loaded into the grid, as long as none
    writes to ANY and the host buffers values only for the UP ports of
    the top row, no input queue ever holds more than one value. *)
Theorem grid_keeps_one_value_per_port :
  forall t0 (σ0 : Store) t r σ,
    nodes t0 = nodes standard_grid.1 ->
    (forall w D, peer σ0 w D = peer standard_grid.2 w D) ->
    Forall no_any_dest σ0 ->
    (forall p d, queue σ0 p d = []) ->
    (forall p d, buffered t0 p d ≠ [] -> d = UP /\ (p < MAX_NODES_X)%nat) ->
    reachable t0 σ0 t r σ ->
    forall p d, (length (queue σ p d) <= 1)%nat.
Proof.
  intros t0 σ0 t r σ Hnodes Hwire Hno Hempty Hhost Hreach.
  assert (single_writer σ0) as Hsw.
  { eapply single_writer_peers; [apply Hwire|].
    apply symmetric_single_writer, grid_symmetric. }
  assert (host_ports_free t0 σ0) as Hfree.
  { intros w D p Hp.
    destruct (buffered t0 p (_opposite_directions D)) eqn:E; [done|].
    destruct (Hhost p (_opposite_directions D)) as [HD Hlt];
      [by rewrite E|].
    rewrite Hwire in Hp. apply grid_symmetric in Hp. rewrite HD in Hp.
    pose proof (grid_peer p 0 UP Hlt ltac:(unfold MAX_NODES_Y; lia)) as Hg.
    rewrite Nat.mul_0_r in Hg. cbn in Hg.
    rewrite bool_decide_false in Hg by lia. congruence. }
  assert (NoDup (nodes t0)) as Hnd.
  { rewrite Hnodes. vm_compute. exact (NoDup_seq 0 12). }
  destruct (one_in_flight_reachable t0 σ0 t r σ Hnd Hsw Hno Hfree Hempty
              Hreach) as ((_ & _ & Hl & _) & _).
  apply Hl.
Qed.

Lemma relay_no_any_dest : Forall no_any_dest relay_heap.
Proof.
  apply Forall_lookup. intros i n Hi l op a1 a2 Hops Hin.
  do 12 (destruct i as [|i];
         [vm_compute in Hi; injection Hi as <-; vm_compute in Hops;
          first [ discriminate Hops
                | injection Hops as <-;
                  apply list_elem_of_singleton in Hin;
                  by injection Hin as -> -> -> ]|]).
  vm_compute in Hi. discriminate Hi.
Qed.

Lemma relay_buffered p d :
  buffered relay_tis p d ≠ [] -> d = UP /\ (p < MAX_NODES_X)%nat.
Proof.
  unfold buffered, relay_tis, buffer_input. cbn.
  destruct (decide (p = 0%nat)) as [->|Hp].
  - rewrite lookup_insert_eq. cbn.
    destruct d; [unfold MAX_NODES_X; intros _; split; [done|lia]|..];
      intros H; by destruct H.
  - rewrite lookup_insert_ne by done. intros H. by destruct H.
Qed.

Lemma grid_keeps_one_value_per_port_witness :
  exists t r σ,
    TIS_run_nexts 5 1 relay_tis (TIS_run_start relay_tis relay_heap)
      relay_heap
    = TIS_yield t r σ
    /\ queue σ 4%nat UP = [7]
    /\ buffered t 0%nat UP = [8]
    /\ (length (queue σ 4%nat UP) <= 1)%nat.
Proof.
  eexists _, _, _. split; [vm_compute; reflexivity|].
  split; [vm_compute; reflexivity|]. split; [vm_compute; reflexivity|].
  eapply (grid_keeps_one_value_per_port relay_tis relay_heap).
  - reflexivity.
  - intros w D. unfold relay_heap. by rewrite !peer_alter.
  - apply relay_no_any_dest.
  - intros p d.
    do 12 (destruct p as [|p]; [destruct d; vm_compute; reflexivity|]).
    reflexivity.
  - apply relay_buffered.
  - apply (TIS_run_nexts_reachable relay_tis relay_heap 5 1 relay_tis
             (TIS_run_start relay_tis relay_heap) relay_heap);
      [apply reachable_start|].
    vm_compute. reflexivity.
Defined.

(** ** An end-to-end run *)

Lemma TIS_run_more_add a b fuel o :
  TIS_run_more (a + b) fuel o = TIS_run_more b fuel (TIS_run_more a fuel o).
Proof.
  destruct o as [t r σ| |]; [|done..]. cbn.
  revert t r σ. induction a as [|a IH]; intros t r σ; [done|].
  cbn. destruct (TIS_run_next fuel t r σ) as [t1 r1 σ1| |]; [|done..].
  apply IH.
Qed.

Lemma echo_start values :
  TIS_run_nexts 1 1 (echo_tis values)
    (TIS_run_start (echo_tis values) echo_heap) echo_heap
  = echo_state [] values (Z.of_nat (length values)) false.
Proof. vm_compute. reflexivity. Qed.

Lemma echo_step seen v rest num moved :
  TIS_run_more 3 1 (echo_state seen (v :: rest) num moved)
  = echo_state (seen ++ [v]) rest (num - 1) true.
Proof. destruct moved; vm_compute; reflexivity. Qed.

Lemma echo_steps k : forall seen values num moved,
  (k <= length values)%nat ->
  TIS_run_more (3 * k) 1 (echo_state seen values num moved)
  = echo_state (seen ++ take k values) (drop k values) (num - Z.of_nat k)
      (moved || negb (Nat.eqb k 0)).
Proof.
  induction k as [|k IH]; intros seen values num moved Hk.
  - cbn. rewrite app_nil_r, Z.sub_0_r, orb_false_r. by rewrite drop_0.
  - destruct values as [|v rest]; [cbn in Hk; lia|].
    replace (3 * S k)%nat with (3 + 3 * k)%nat by lia.
    rewrite TIS_run_more_add, echo_step, IH by (cbn in Hk; lia).
    cbn [take drop]. rewrite <- app_assoc. cbn [app].
    replace (num - 1 - Z.of_nat k) with (num - Z.of_nat (S k)) by lia.
    by rewrite orb_true_r.
Qed.

Lemma echo_run values k :
  (k <= length values)%nat ->
  TIS_run_nexts (1 + 3 * k) 1 (echo_tis values)
    (TIS_run_start (echo_tis values) echo_heap) echo_heap
  = echo_state (take k values) (drop k values)
      (Z.of_nat (length values) - Z.of_nat k) (negb (Nat.eqb k 0)).
Proof.
  intros Hk.
  change (TIS_run_nexts (1 + 3 * k) 1 (echo_tis values)
            (TIS_run_start (echo_tis values) echo_heap) echo_heap)
    with (TIS_run_more (1 + 3 * k) 1
            (TIS_yield (echo_tis values)
               (TIS_run_start (echo_tis values) echo_heap) echo_heap)).
  rewrite TIS_run_more_add.
  change (TIS_run_more 1 1 _)
    with (TIS_run_nexts 1 1 (echo_tis values)
            (TIS_run_start (echo_tis values) echo_heap) echo_heap).
  rewrite echo_start. by rewrite echo_steps.
Qed.

(** End to end on the echo machine: for any list of values buffered by the
    host, after one turn of the scheduler and three more turns per value,
    the log node has seen the first [k] values, in the order in which they
    were buffered, the other values are still buffered in that order, the
    counter of buffered values has gone down by [k], and node 0 is again
    suspended in its read of UP, in READ mode. *)
Theorem echo_delivers_inputs_in_order :
  forall values k,
    (k <= length values)%nat ->
    exists t r σ,
      TIS_run_nexts (1 + 3 * k) 1 (echo_tis values)
        (TIS_run_start (echo_tis values) echo_heap) echo_heap
      = TIS_yield t r σ
      /\ seen_inputs <$> σ !! 12%nat = Some (take k values)
      /\ buffered t 0%nat UP = drop k values
      /\ num_buffered_inputs t = Z.of_nat (length values) - Z.of_nat k
      /\ node_runs r
         = [(0%nat, SuspendedAt (ReadBlocked UP (InMov (Some "DOWN"%string))))]
      /\ mode_of <$> σ !! 0%nat = Some (Some READ).
Proof.
  intros values k Hk. rewrite echo_run by done.
  eexists _, _, _. split; [reflexivity|].
  repeat split.
Qed.

Lemma echo_delivers_inputs_in_order_witness :
  exists t r σ,
    TIS_run_nexts (1 + 3 * 2) 1 (echo_tis [7; 8; 9])
      (TIS_run_start (echo_tis [7; 8; 9]) echo_heap) echo_heap
    = TIS_yield t r σ
    /\ seen_inputs <$> σ !! 12%nat = Some [7; 8]
    /\ buffered t 0%nat UP = [9]
    /\ num_buffered_inputs t = 3 - 2
    /\ node_runs r
       = [(0%nat, SuspendedAt (ReadBlocked UP (InMov (Some "DOWN"%string))))]
    /\ mode_of <$> σ !! 0%nat = Some (Some READ).
Proof.
  apply (echo_delivers_inputs_in_order [7; 8; 9] 2). cbn. lia.
Defined.

(** ** The mode stack *)

Lemma modes_alter_keep (σ : Store) r f :
  (forall n, _mode (f n) = _mode n) -> modes (alter f r σ) = modes σ.
Proof.
  intros Hf. unfold modes.
  apply list_eq. intros i. rewrite !list_lookup_fmap, list_lookup_alter.
  case_decide; [|done]. subst i.
  destruct (σ !! r) as [n|]; cbn; [by rewrite Hf|done].
Qed.

Lemma modes_lookup (σ : Store) r n :
  σ !! r = Some n -> modes σ !! r = Some (_mode n).
Proof. intros H. unfold modes. by rewrite list_lookup_fmap, H. Qed.

Lemma modes_lookup_inv (σ : Store) r s :
  modes σ !! r = Some s -> exists n, σ !! r = Some n /\ _mode n = s.
Proof.
  unfold modes. rewrite list_lookup_fmap.
  destruct (σ !! r) as [n|]; [|done]. intros [= <-]. by exists n.
Qed.

Lemma modes_insert (σ : Store) r n :
  modes (<[r := n]> σ) = <[r := _mode n]> (modes σ).
Proof. unfold modes. by rewrite list_fmap_insert. Qed.

Section stack.
Variable ok : exn -> Prop.
Hypothesis ok_other : forall e, e ≠ IndexError -> ok e.
Variable self : ref.

Lemma modes_self (σ : Store) s :
  modes σ !! self = Some s -> <[self := s]> (modes σ) = modes σ.
Proof. apply list_insert_id. Qed.

Lemma stack_ret {A} (a : A) s (Q : A -> list mode -> Prop) Y :
  Q a s -> stack_spec ok self (ret a) s Q Y.
Proof. intros H σ Hs. exists s. by rewrite modes_self. Qed.

Lemma stack_yield {A} fr s (Q : A -> list mode -> Prop)
    (Y : frame -> list mode -> Prop) :
  Y fr s -> stack_spec ok self (@yield A fr) s Q Y.
Proof. intros H σ Hs. exists s. by rewrite modes_self. Qed.

Lemma stack_raise {A} e s (Q : A -> list mode -> Prop) Y :
  e ≠ IndexError -> stack_spec ok self (@raise A e) s Q Y.
Proof using ok_other. intros He σ Hs. by apply ok_other. Qed.

Lemma stack_bind {A B} (m : gen A) (k : A -> gen B) s
    (Q : B -> list mode -> Prop) Y :
  stack_spec ok self m s (fun a s1 => stack_spec ok self (k a) s1 Q Y) Y ->
  stack_spec ok self (bind m k) s Q Y.
Proof.
  intros Hm σ Hs. specialize (Hm σ Hs). unfold bind.
  destruct (m σ) as [a σ1|fr σ1|e]; [|done..].
  destruct Hm as (s1 & Hmodes & Hk).
  assert (modes σ1 !! self = Some s1) as Hs1.
  { rewrite Hmodes. apply list_lookup_insert_eq.
    by eapply lookup_lt_Some. }
  specialize (Hk σ1 Hs1).
  destruct (k a σ1) as [b σ2|fr σ2|e]; [| |done];
    destruct Hk as (s2 & Hmodes2 & H2); exists s2;
    (split; [|done]); by rewrite Hmodes2, Hmodes, list_insert_insert_eq.
Qed.

Lemma stack_mono {A} (m : gen A) s (Q Q' : A -> list mode -> Prop)
    (Y Y' : frame -> list mode -> Prop) :
  stack_spec ok self m s Q Y ->
  (forall a s', Q a s' -> Q' a s') ->
  (forall fr s', Y fr s' -> Y' fr s') ->
  stack_spec ok self m s Q' Y'.
Proof.
  intros Hm HQ HY σ Hs. specialize (Hm σ Hs).
  destruct (m σ); [| |done]; destruct Hm as (s' & ? & ?); exists s'; auto.
Qed.

Lemma stack_get {B} r (k : Node -> gen B) s Q Y :
  (forall n, (r = self -> _mode n = s) -> stack_spec ok self (k n) s Q Y) ->
  stack_spec ok self (bind (get r) k) s Q Y.
Proof using ok_other.
  intros Hk σ Hs. unfold bind, get.
  destruct (σ !! r) as [n|] eqn:E; [|by apply ok_other].
  apply Hk; [|done]. intros ->.
  apply modes_lookup in E. congruence.
Qed.

Lemma stack_modify r f s (Q : unit -> list mode -> Prop) Y :
  (forall n, _mode (f n) = _mode n) ->
  Q tt s -> stack_spec ok self (modify r f) s Q Y.
Proof.
  intros Hf HQ σ Hs. unfold modify. exists s.
  by rewrite modes_alter_keep, modes_self.
Qed.

Lemma stack_assert b s (Q : unit -> list mode -> Prop) Y :
  (b = true -> Q tt s) -> stack_spec ok self (assert b) s Q Y.
Proof using ok_other.
  intros HQ. unfold assert. destruct b; [by apply stack_ret, HQ|].
  by apply stack_raise.
Qed.

Lemma stack_push_mode m s (Q : unit -> list mode -> Prop) Y :
  Q tt (s ++ [m]) -> stack_spec ok self (push_mode self m) s Q Y.
Proof.
  intros HQ σ Hs. unfold push_mode, modify. exists (s ++ [m]).
  split; [|done]. unfold modes in *.
  rewrite list_lookup_fmap in Hs.
  destruct (σ !! self) as [n|] eqn:E; [|done]. injection Hs as <-.
  unfold modes. apply list_eq. intros i. rewrite list_lookup_fmap.
  destruct (decide (i = self)) as [->|Hne].
  - rewrite list_lookup_alter_eq, E, list_lookup_insert_eq
      by (rewrite length_fmap; by eapply lookup_lt_Some).
    done.
  - by rewrite list_lookup_alter_ne, list_lookup_insert_ne,
         list_lookup_fmap by done.
Qed.

Lemma stack_pop_mode s (Q : unit -> list mode -> Prop) Y :
  s ≠ [] -> Q tt (removelast s) -> stack_spec ok self (pop_mode self) s Q Y.
Proof.
  intros Hne HQ σ Hs. unfold pop_mode, bind, get. unfold modes in *.
  rewrite list_lookup_fmap in Hs.
  destruct (σ !! self) as [n|] eqn:E; [|done]. injection Hs as <-.
  destruct (_mode n) as [|m0 st] eqn:Est; [done|].
  unfold modify. exists (removelast (m0 :: st)).
  split; [|by apply HQ].
  unfold modes. apply list_eq. intros i. rewrite list_lookup_fmap.
  destruct (decide (i = self)) as [->|Hne'].
  - rewrite list_lookup_alter_eq, E, list_lookup_insert_eq
      by (rewrite length_fmap; by eapply lookup_lt_Some).
    cbn. by rewrite Est.
  - by rewrite list_lookup_alter_ne, list_lookup_insert_ne,
         list_lookup_fmap by done.
Qed.

(** The test of [has_inputs] followed by [read_input], in [_read_input]:
    the queue that was seen not to be empty is the one that is popped. *)
Lemma stack_take {B} d s0 m (k : Z -> gen B) (k2 : gen B) Q Y :
  (forall v, stack_spec ok self (k v) s0 Q Y) ->
  stack_spec ok self k2 (s0 ++ [m]) Q Y ->
  stack_spec ok self
    (let! n := get self in
     if has_inputs n d then let! result := _read_input_take self d in k result
     else k2)
    (s0 ++ [m]) Q Y.
Proof using ok_other.
  intros Hk Hk2 σ Hs. unfold bind at 1. unfold get.
  destruct (modes_lookup_inv _ _ _ Hs) as (n & Hn & Hm). rewrite Hn.
  destruct (has_inputs n d) eqn:Hh; [|by apply Hk2].
  assert (exists v rest, inputs n !! d = Some (v :: rest)) as (v & rest & Hq).
  { unfold has_inputs in Hh.
    destruct (inputs n !! d) as [[|v rest]|]; try done. by exists v, rest. }
  unfold bind. erewrite _read_input_take_at by done.
  set (n1 := set_mode s0 _).
  assert (modes (<[self := n1]> σ) !! self = Some s0) as Hs1.
  { rewrite modes_insert. apply list_lookup_insert_eq.
    by eapply lookup_lt_Some. }
  specialize (Hk v _ Hs1). unfold stack_result in *.
  destruct (k v (<[self := n1]> σ)) as [b σ2|fr σ2|e]; [| |done];
    destruct Hk as (s2 & Hmodes2 & H2); exists s2;
    (split; [|done]);
    by rewrite Hmodes2, modes_insert, list_insert_insert_eq.
Qed.

Ltac stack_step :=
  lazymatch goal with
  | |- stack_spec _ _ (ret _) _ _ _ => apply stack_ret
  | |- stack_spec _ _ (yield _) _ _ _ => apply stack_yield
  | |- stack_spec _ _ (raise _) _ _ _ => apply stack_raise; discriminate
  | |- stack_spec _ _ (push_mode _ _) _ _ _ => apply stack_push_mode
  | |- stack_spec _ _ (pop_mode _) _ _ _ =>
      apply stack_pop_mode;
      [let H := fresh in
       intros H; apply app_eq_nil in H as [_ H]; discriminate H|]
  | |- stack_spec _ _ (bind (get _) _) _ _ _ => apply stack_get; intros ? ?
  | |- stack_spec _ _ (bind _ _) _ _ _ => apply stack_bind
  | |- stack_spec _ _ (assert _) _ _ _ => apply stack_assert; intros ?
  | |- stack_spec _ _ (modify _ _) _ _ _ =>
      apply stack_modify; [intros []; reflexivity|]
  end;
  cbn beta.

Ltac stack_call H :=
  eapply stack_mono;
  [ apply H
  | cbn beta; intros ? ? ?
  | cbn beta; let HY := fresh in intros ? ? HY; try exact HY ].

Lemma spec_get_attached_node od s Y :
  stack_spec ok self (get_attached_node self od) s (fun _ s' => s' = s) Y.
Proof using ok_other.
  unfold get_attached_node. destruct od; repeat stack_step. done.
Qed.

Lemma spec_write_input node d v s Y :
  stack_spec ok self (write_input node d v) s (fun _ s' => s' = s) Y.
Proof using ok_other.
  unfold write_input. stack_step. destruct (is_log n); by stack_step.
Qed.

Lemma spec_get_next_op s Y :
  ok IndexError ->
  stack_spec ok self (get_next_op self) s (fun _ s' => s' = s) Y.
Proof using ok_other.
  intros Hok. unfold get_next_op. stack_step.
  destruct (ops n); [|by stack_step]. repeat stack_step.
  destruct (py_index _ _); [by repeat stack_step|].
  by intros σ Hs.
Qed.

Lemma spec__read_input_wait d k s0 :
  stack_spec ok self (_read_input_wait self d k) (s0 ++ [READ])
    (fun _ _ => False) (fun fr s' => s' = s0 ++ frame_modes fr).
Proof using ok_other.
  unfold _read_input_wait.
  apply (stack_take d s0 READ (fun result => yield (SrcYielded k result))).
  - intros v. stack_step. cbn. by rewrite app_nil_r.
  - by stack_step.
Qed.

Lemma spec__read_input od k s :
  stack_spec ok self (_read_input self od k) s
    (fun _ _ => False) (fun fr s' => s' = s ++ frame_modes fr).
Proof using ok_other.
  unfold _read_input. repeat stack_step.
  stack_call spec_get_attached_node. subst.
  destruct od; [apply spec__read_input_wait|stack_step].
Qed.

Lemma spec__read_input_nonblocking d s Y :
  stack_spec ok self (_read_input_nonblocking self d) s (fun _ s' => s' = s) Y.
Proof using ok_other.
  unfold _read_input_nonblocking. repeat stack_step.
  stack_call spec_get_attached_node. subst.
  apply (stack_take d s READ (fun result => ret (Some result))).
  - intros v. by stack_step.
  - repeat stack_step. by rewrite removelast_last.
Qed.

Lemma spec__write_output_wait node d s0 :
  stack_spec ok self (_write_output_wait self node d) (s0 ++ [WRITE])
    (fun _ _ => False) (fun fr s' => s' = s0 ++ frame_modes fr).
Proof using ok_other.
  unfold _write_output_wait. stack_step. destruct (has_inputs n d).
  - by stack_step.
  - repeat stack_step. cbn. by rewrite removelast_last, app_nil_r.
Qed.

Lemma spec__write_output od v s :
  stack_spec ok self (_write_output self od v) s
    (fun _ s' => s' = s ++ [WRITE]) (fun fr s' => s' = s ++ frame_modes fr).
Proof using ok_other.
  unfold _write_output. repeat stack_step.
  stack_call spec_get_attached_node. subst.
  destruct od as [d|]; [|stack_step]. destruct a as [node|]; [|by stack_step].
  stack_step. stack_call spec_write_input. subst.
  repeat stack_step.
  stack_call spec__write_output_wait; done.
Qed.

Lemma spec__write_output_nonblocking d v s Y :
  stack_spec ok self (_write_output_nonblocking self d v) s
    (fun _ s' => s' = s) Y.
Proof using ok_other.
  unfold _write_output_nonblocking. repeat stack_step.
  stack_call spec_get_attached_node. subst.
  destruct a as [node|].
  - stack_step. stack_call spec_write_input. subst.
    repeat stack_step.
    destruct (has_inputs n _); repeat stack_step; by rewrite removelast_last.
  - repeat stack_step. by rewrite removelast_last.
Qed.

Lemma spec__read_src_any ds k s0 :
  stack_spec ok self (_read_src_any self ds k) (s0 ++ [READ])
    (fun _ _ => False) (fun fr s' => s' = s0 ++ frame_modes fr).
Proof using ok_other.
  induction ds as [|d ds IH]; cbn; [by stack_step|].
  stack_step. stack_call spec__read_input_nonblocking. subst.
  destruct a; [by stack_step|apply IH].
Qed.

Lemma spec__read_src src k s :
  stack_spec ok self (_read_src self src k) s
    (fun _ _ => False) (fun fr s' => s' = s ++ frame_modes fr).
Proof using ok_other.
  unfold _read_src. repeat stack_step.
  repeat case_match; repeat stack_step;
    try apply spec__read_input; try apply spec__read_src_any;
    cbn; by rewrite ?app_nil_r.
Qed.

Lemma spec__write_dest_any ds v s0 :
  stack_spec ok self (_write_dest_any self ds v) (s0 ++ [WRITE])
    (fun _ s' => s' = s0) (fun fr s' => s' = s0 ++ frame_modes fr).
Proof using ok_other.
  induction ds as [|d ds IH]; cbn; [by stack_step|].
  stack_step. stack_call spec__write_output_nonblocking. subst.
  destruct a; [|apply IH]. stack_step. by rewrite removelast_last.
Qed.

Lemma spec__write_dest dest v s :
  stack_spec ok self (_write_dest self dest v) s
    (fun _ s' => s' = s \/ s' = s ++ [WRITE])
    (fun fr s' => s' = s ++ frame_modes fr).
Proof using ok_other.
  unfold _write_dest. repeat stack_step.
  repeat case_match; repeat stack_step; try (by left).
  - stack_call spec__write_output; by right.
  - stack_call spec__write_dest_any; by left.
  - stack_call spec__write_output; by right.
Qed.

Lemma spec_after_read_src k v s :
  stack_spec ok self (after_read_src self k v) s
    (fun _ s' => s' = s \/ s' = s ++ [WRITE])
    (fun fr s' => s' = s ++ frame_modes fr).
Proof using ok_other.
  unfold after_read_src. destruct k; repeat stack_step; try (by left).
  - apply spec__write_dest.
  - destruct (ops n); repeat stack_step. by left.
Qed.

Lemma spec__jmp label s :
  stack_spec ok self (_jmp self label) s
    (fun _ s' => s' = s) (fun fr s' => s' = s ++ frame_modes fr).
Proof using ok_other.
  unfold _jmp. stack_step. destruct (labels n); [|stack_step].
  destruct (_ ≫= _); repeat stack_step. cbn. by rewrite app_nil_r.
Qed.

Lemma spec_call h a1 a2 s :
  stack_spec ok self (call h self a1 a2) s
    (fun _ s' => s' = s) (fun fr s' => s' = s ++ frame_modes fr).
Proof using ok_other.
  destruct h; cbn;
    unfold _nop, _mov, _swp, _sav, _add, _sub, _neg, _jez, _jnz, _jgz, _jlz,
      _jro;
    repeat stack_step;
    try (cbn; by rewrite ?app_nil_r);
    try apply spec__jmp;
    try (stack_call spec__read_src; done);
    case_match; try apply spec__jmp; by stack_step.
Qed.

Lemma spec_resume fr s0 :
  stack_spec ok self (resume self fr) (s0 ++ frame_modes fr)
    (fun _ s' => s' = s0 \/ s' = s0 ++ [WRITE])
    (fun fr' s' => s' = s0 ++ frame_modes fr').
Proof using ok_other.
  destruct fr; cbn [resume frame_modes]; rewrite ?app_nil_r.
  - stack_step. by left.
  - apply spec_after_read_src.
  - stack_call spec__read_input_wait; done.
  - repeat stack_step. rewrite removelast_last. apply spec_after_read_src.
  - stack_call spec__read_src_any; done.
  - stack_call spec__write_output_wait; done.
  - stack_step. by left.
  - stack_call spec__write_dest_any; by left.
Qed.

(** The loop body after its fetch. *)
Lemma spec_dispatch_rest op a1 a2 s :
  stack_spec ok self
    (do! modify self (fun n => set_next_iptr (iptr n + 1) n) in
     match op_table op with
     | None => raise AssertionError
     | Some h => call h self a1 a2
     end)
    s (fun _ s' => s' = s) (fun fr s' => s' = s ++ frame_modes fr).
Proof using ok_other.
  repeat stack_step. destruct (op_table op); [|stack_step].
  apply spec_call.
Qed.

(** The loop body, from a heap where the fetch is in bounds. *)
Lemma dispatch_stack s (σ : Store) :
  modes σ !! self = Some s ->
  ok IndexError \/ fetches_in_bounds self σ ->
  stack_result ok self σ
    (fun _ s' => s' = s ++ [RUN])
    (fun fr s' => s' = s ++ [RUN] ++ frame_modes fr)
    (dispatch self σ).
Proof using ok_other.
  intros Hs [Hok|Hfetch].
  - revert σ Hs. change (stack_spec ok self (dispatch self) s
                           (fun _ s' => s' = s ++ [RUN])
                           (fun fr s' => s' = s ++ [RUN] ++ frame_modes fr)).
    unfold dispatch. repeat stack_step.
    stack_call spec_get_next_op; [done|]. subst.
    destruct a as [[op a1] a2].
    stack_call spec_dispatch_rest; subst; [done|]. by rewrite app_assoc.
  - destruct Hfetch as (n & l & op & a1 & a2 & Hn & _ & _ & _ & ->).
    apply modes_lookup in Hn as Hm. rewrite Hs in Hm. injection Hm as ->.
    set (nf := set_iptr _ _).
    assert (modes (<[self := nf]> σ) !! self = Some (_mode n ++ [RUN])) as Hs1.
    { rewrite modes_insert. apply list_lookup_insert_eq.
      by eapply lookup_lt_Some. }
    pose proof (spec_dispatch_rest op a1 a2 _ _ Hs1) as H.
    unfold stack_result in *.
    destruct ((do! modify self _ in _) (<[self := nf]> σ))
      as [[] σ2|fr σ2|e]; [| |done];
      destruct H as (s2 & Hm2 & ->); eexists; (split; [|reflexivity]).
    + by rewrite Hm2, modes_insert, list_insert_insert_eq.
    + by rewrite Hm2, modes_insert, list_insert_insert_eq, app_assoc.
Qed.

Lemma removelast_above (base : list mode) l :
  base ≠ [] -> l ≠ [] -> removelast (base ++ l) ≠ [].
Proof.
  intros Hb Hl. rewrite removelast_app by done.
  destruct base; [done|]. done.
Qed.

Lemma run_until_yield_stack fuel :
  forall (st : step unit) (σ0 : Store) base,
    base ≠ [] ->
    (self < length σ0)%nat ->
    ok IndexError
    \/ Forall (fetches_in_bounds self) (loop_heads_from fuel self st) ->
    match st with
    | Done _ σ1 =>
        exists ex, modes σ1 = <[self := base ++ [RUN] ++ ex]> (modes σ0)
    | Yielded fr1 σ1 =>
        modes σ1 = <[self := base ++ [RUN] ++ frame_modes fr1]> (modes σ0)
    | Raised e => ok e
    end ->
    match run_until_yield fuel self st with
    | Suspended fr σ' =>
        exists base',
          base' ≠ []
          /\ modes σ' = <[self := base' ++ [RUN] ++ frame_modes fr]> (modes σ0)
    | Failed e => ok e
    | OutOfFuel => True
    end.
Proof using ok_other.
  induction fuel as [|fuel IH]; intros st σ0 base Hbase Hlt Hfetch Hst;
    destruct st as [[] σ1|fr1 σ1|e]; cbn; try done;
    try (by exists base).
  destruct Hst as [ex Hst].
  assert (modes σ1 !! self = Some (base ++ [RUN] ++ ex)) as Hs1.
  { rewrite Hst. apply list_lookup_insert_eq.
    unfold modes. by rewrite length_fmap. }
  assert (base ++ [RUN] ++ ex ≠ []) as Hne by (by destruct base).
  pose proof (stack_pop_mode _
                (fun _ s' => s' = removelast (base ++ [RUN] ++ ex))
                (fun _ _ => False) Hne eq_refl σ1 Hs1) as Hpop.
  cbn in Hfetch. unfold bind.
  destruct (pop_mode self σ1) as [[] σ2|fr2 σ2|e]; cbn.
  - destruct Hpop as (s2 & Hm2 & ->).
    assert (modes σ2 !! self = Some (removelast (base ++ [RUN] ++ ex)))
      as Hs2.
    { rewrite Hm2. apply list_lookup_insert_eq. by eapply lookup_lt_Some. }
    apply (IH _ σ0 (removelast (base ++ [RUN] ++ ex))).
    + by apply removelast_above.
    + done.
    + destruct Hfetch as [?|Hf]; [by left|right].
      by apply Forall_cons_1 in Hf as [_ ?].
    + assert (ok IndexError \/ fetches_in_bounds self σ2) as Hf2.
      { destruct Hfetch as [?|Hf]; [by left|right].
        by apply Forall_cons_1 in Hf as [? _]. }
      pose proof (dispatch_stack _ _ Hs2 Hf2) as Hd.
      unfold stack_result in Hd.
      destruct (dispatch self σ2) as [[] σ3|fr3 σ3|e]; [| |done];
        destruct Hd as (s3 & Hm3 & ->).
      * exists []. by rewrite Hm3, Hm2, Hst, !list_insert_insert_eq.
      * by rewrite Hm3, Hm2, Hst, !list_insert_insert_eq.
  - by destruct Hpop as (? & _ & []).
  - destruct fuel; exact Hpop.
Qed.

Lemma Node_run_next_stack fuel g (σ : Store) st :
  modes σ !! self = Some st ->
  stack_ok g st ->
  ok IndexError \/ Forall (fetches_in_bounds self) (loop_heads fuel self g σ) ->
  match Node_run_next fuel self g σ with
  | Suspended fr σ' =>
      exists base,
        base ≠ []
        /\ modes σ' = <[self := base ++ [RUN] ++ frame_modes fr]> (modes σ)
  | Failed e => ok e
  | OutOfFuel => True
  end.
Proof using ok_other.
  intros Hst Hok Hfetch. unfold Node_run_next.
  assert (self < length σ)%nat as Hlt.
  { apply lookup_lt_Some in Hst. unfold modes in Hst.
    by rewrite length_fmap in Hst. }
  destruct g as [|fr0]; cbn in Hok, Hfetch.
  - apply (run_until_yield_stack fuel _ σ st); [done..| |].
    + destruct Hfetch as [?|Hf]; [by left|right].
      by apply Forall_cons_1 in Hf as [_ ?].
    + assert (ok IndexError \/ fetches_in_bounds self σ) as Hf2.
      { destruct Hfetch as [?|Hf]; [by left|right].
        by apply Forall_cons_1 in Hf as [? _]. }
      pose proof (dispatch_stack _ _ Hst Hf2) as Hd.
      unfold stack_result in Hd.
      destruct (dispatch self σ) as [[] σ1|fr1 σ1|e]; [| |done];
        destruct Hd as (s' & Hm & ->); [by exists []|done].
  - destruct Hok as (base & Hbase & ->).
    apply (run_until_yield_stack fuel _ σ base); [done..|].
    assert (modes σ !! self = Some ((base ++ [RUN]) ++ frame_modes fr0))
      as Hst' by (by rewrite <- app_assoc).
    pose proof (spec_resume fr0 (base ++ [RUN]) σ Hst') as Hspec.
    unfold stack_result in Hspec.
    destruct (resume self fr0 σ) as [[] σ1|fr1 σ1|e]; [| |done];
      destruct Hspec as (s' & Hm & Hs').
    + destruct Hs' as [->| ->].
      * exists []. by rewrite Hm, app_nil_r.
      * exists [WRITE]. by rewrite Hm, <- app_assoc.
    + subst s'. by rewrite Hm, <- app_assoc.
Qed.

End stack.

Lemma inject_modes t node (σ : Store) t' σ' :
  inject t node σ = Done t' σ' -> modes σ' = modes σ.
Proof.
  unfold inject. destruct (buffered_input t !! node); [|by intros [= _ <-]].
  unfold bind, get. destruct (σ !! node) as [n|]; [|done].
  destruct (mode_of n); [|done].
  case_bool_decide; [|by intros [= _ <-]].
  destruct (inject_scan _ _) as [[[d v] rest]|]; [|by intros [= _ <-]].
  unfold write_input, bind, get. destruct (σ !! node) as [n'|]; [|done].
  destruct (is_log n'); unfold modify; intros [= _ <-];
    by apply modes_alter_keep.
Qed.

Lemma inject_no_IndexError t node (σ : Store) st e :
  modes σ !! node = Some st -> st ≠ [] ->
  inject t node σ = Raised e -> e ≠ IndexError.
Proof.
  intros Hst Hne. destruct (modes_lookup_inv _ _ _ Hst) as (n & Hn & Hm).
  unfold inject. destruct (buffered_input t !! node); [|done].
  unfold bind, get. rewrite Hn.
  unfold mode_of. rewrite Hm.
  destruct (last st) eqn:El; [|by apply last_None in El].
  case_bool_decide; [|done].
  destruct (inject_scan _ _) as [[[d v] rest]|]; [|done].
  unfold write_input, bind, get. rewrite Hn.
  destruct (is_log n); unfold modify; done.
Qed.

Lemma inject_never_yields t node (σ : Store) fr σ' :
  inject t node σ ≠ Yielded fr σ'.
Proof.
  unfold inject. destruct (buffered_input t !! node); [|done].
  unfold bind, get. destruct (σ !! node) as [n|]; [|done].
  destruct (mode_of n); [|done].
  case_bool_decide; [|done].
  destruct (inject_scan _ _) as [[[d v] rest]|]; [|done].
  unfold write_input, bind, get. destruct (σ !! node) as [n'|]; [|done].
  destruct (is_log n'); unfold modify; done.
Qed.

Lemma TIS_run_next_stacks (ok : exn -> Prop) fuel t r (σ : Store) :
  (forall e, e ≠ IndexError -> ok e) ->
  NoDup (node_runs r).*1 ->
  stacks_ok (node_runs r) σ ->
  ok IndexError
  \/ (forall node g t' σ1,
        node_runs r !! pos r = Some (node, g) ->
        inject t node σ = Done t' σ1 ->
        Forall (fetches_in_bounds node) (loop_heads fuel node g σ1)) ->
  match TIS_run_next fuel t r σ with
  | TIS_yield t' r' σ' => stacks_ok (node_runs r') σ'
  | TIS_failed e => ok e
  | TIS_out_of_fuel => True
  end.
Proof.
  intros ok_other Hnd Hok Hfetch. unfold TIS_run_next.
  destruct (node_runs r !! pos r) as [[node g]|] eqn:Hl; [|done].
  destruct (Hok _ _ _ Hl) as (st & Hst & Hg).
  assert (st ≠ []) as Hne.
  { destruct g; cbn in Hg; [done|].
    destruct Hg as (base & Hb & ->). by destruct base. }
  destruct (inject t node σ) as [t1 σ1|fr σ1|e] eqn:Hinj.
  - pose proof (inject_modes _ _ _ _ _ Hinj) as Hm1.
    rewrite <- Hm1 in Hst.
    assert (ok IndexError
            \/ Forall (fetches_in_bounds node) (loop_heads fuel node g σ1))
      as Hf.
    { destruct Hfetch as [?|Hf]; [by left|right]. by eapply Hf. }
    pose proof (Node_run_next_stack ok ok_other node fuel g σ1 st Hst Hg Hf)
      as Hrun.
    destruct (Node_run_next fuel node g σ1) as [fr σ2|e|]; [|done..].
    destruct Hrun as (base & Hbase & Hm).
    intros i node' g' Hi. cbn in Hi.
    destruct (decide (i = pos r)) as [->|Hne'].
    + rewrite list_lookup_insert_eq in Hi by (by eapply lookup_lt_Some).
      injection Hi as <- <-. eexists. split.
      * rewrite Hm. apply list_lookup_insert_eq. by eapply lookup_lt_Some.
      * cbn. by exists base.
    + rewrite list_lookup_insert_ne in Hi by done.
      destruct (Hok _ _ _ Hi) as (st' & Hst' & Hg').
      exists st'. split; [|done].
      rewrite Hm, list_lookup_insert_ne, Hm1; [done|].
      intros <-. apply Hne'.
      eapply (NoDup_lookup _ _ _ node Hnd); rewrite list_lookup_fmap.
      * by rewrite Hi.
      * by rewrite Hl.
  - by apply ok_other.
  - apply ok_other. by eapply inject_no_IndexError.
Qed.

Lemma reachable_stacks_ok t0 (σ0 : Store) t r σ :
  NoDup (nodes t0) ->
  Forall (fun n => _mode n ≠ []) σ0 ->
  reachable t0 σ0 t r σ ->
  stacks_ok (node_runs r) σ /\ NoDup (node_runs r).*1.
Proof.
  intros Hnd Hne Hreach.
  induction Hreach as [|fuel t r σ t' r' σ' _ [IH1 IH2] Hstep].
  - split; [|by apply TIS_run_start_NoDup].
    intros i node g Hi. unfold TIS_run_start in Hi. cbn in Hi.
    rewrite list_lookup_fmap in Hi.
    destruct (filter _ _ !! i) as [node'|] eqn:E; [|done].
    injection Hi as <- <-.
    apply list_elem_of_lookup_2, list_elem_of_filter in E as [E _].
    unfold node_is_loaded in E.
    destruct (σ0 !! node') as [n|] eqn:Hn; [|done].
    exists (_mode n). split; [by apply modes_lookup|]. cbn.
    rewrite Forall_lookup in Hne. by eapply Hne.
  - split; [|by erewrite TIS_run_next_same_nodes].
    pose proof (TIS_run_next_stacks (fun _ => True) fuel t r σ
                  (fun _ _ => I) IH2 IH1 (or_introl I)) as H.
    by rewrite Hstep in H.
Qed.

(** The mode stack follows the generator.  In every state that the
    scheduler reaches from a heap where no mode stack is empty, the stack
    of a scheduled node is not empty, and once the node has started it is
    made of a non-empty part, the RUN frame of the instruction under way,
    and one READ or WRITE frame exactly when the node is suspended inside
    a read or a write.  So the mode that the scheduler looks at is READ
    for a node that waits for an input or polls ANY, WRITE for a node
    that waits in a write, and RUN otherwise.  Inside a step too, no
    [pop_mode] meets an empty stack and [node.mode] is defined: when the
    nodes are moreover ready for the fetch, no step of the scheduler fails
    with [IndexError], the exception of a [pop()] on an empty list and of
    an index out of range. *)
Theorem mode_stack_follows_the_generator :
  forall t0 (σ0 : Store) t r σ,
    NoDup (nodes t0) ->
    Forall (fun n => _mode n ≠ []) σ0 ->
    reachable t0 σ0 t r σ ->
    (forall node g,
        (node, g) ∈ node_runs r ->
        exists n,
          σ !! node = Some n
          /\ stack_ok g (_mode n)
          /\ forall fr, g = SuspendedAt fr -> mode_of n = Some (frame_mode fr))
    /\ (Forall fetch_ready σ0 ->
        forall fuel, TIS_run_next fuel t r σ ≠ TIS_failed IndexError).
Proof.
  intros t0 σ0 t r σ Hnd Hne Hreach.
  destruct (reachable_stacks_ok _ _ _ _ _ Hnd Hne Hreach) as [Hok Hnd'].
  split.
  - intros node g Hin. apply list_elem_of_lookup_1 in Hin as [i Hi].
    destruct (Hok _ _ _ Hi) as (st & Hst & Hg).
    destruct (modes_lookup_inv _ _ _ Hst) as (n & Hn & <-).
    exists n. split; [done|]. split; [done|].
    intros fr ->. destruct Hg as (base & _ & Hm).
    unfold mode_of, frame_mode. rewrite Hm, app_assoc.
    destruct fr; cbn; rewrite ?app_nil_r; by rewrite last_snoc.
  - intros Hready fuel.
    pose proof (TIS_run_next_stacks not_IndexError fuel t r σ
                  (fun e He => He) Hnd' Hok) as H.
    intros Hfail. rewrite Hfail in H. apply H; [|done].
    right. intros node g t' σ1 Hl Hinj.
    by eapply reachable_loop_heads.
Qed.

Lemma mode_stack_follows_the_generator_witness :
  exists t r σ,
    TIS_run_nexts 3 1 pair_tis (TIS_run_start pair_tis pair_heap) pair_heap
    = TIS_yield t r σ
    /\ (exists n,
          σ !! 0%nat = Some n
          /\ stack_ok (SuspendedAt (WriteBlocked 1%nat LEFT)) (_mode n)
          /\ mode_of n = Some WRITE)
    /\ TIS_run_next 1 t r σ ≠ TIS_failed IndexError.
Proof.
  eexists _, _, _. split; [vm_compute; reflexivity|].
  match goal with
  | |- (exists n, ?σ !! _ = _ /\ _) /\ TIS_run_next _ ?t ?r _ ≠ _ =>
      destruct (mode_stack_follows_the_generator pair_tis pair_heap t r σ)
        as [Hshape Hsafe]
  end.
  - apply (NoDup_seq 0 2).
  - by repeat constructor.
  - apply (TIS_run_nexts_reachable pair_tis pair_heap 3 1 pair_tis
             (TIS_run_start pair_tis pair_heap) pair_heap);
      [apply reachable_start|].
    vm_compute. reflexivity.
  - split.
    + destruct (Hshape 0%nat (SuspendedAt (WriteBlocked 1%nat LEFT)))
        as (n & Hn & Hg & Hm).
      { apply list_elem_of_here. }
      exists n. split; [done|]. split; [done|].
      exact (Hm (WriteBlocked 1%nat LEFT) eq_refl).
    + apply Hsafe.
      repeat constructor; cbn; try lia; intros lbls name target [= <-]; done.
Defined.
